(** * Hybrid retrieval engine: BM25 scoring and Reciprocal Rank Fusion

    A shallow embedding of [src/pipeline/hybrid_search.py]:
    the [BM25Okapi] lexical index, and [HybridSearch] with its
    [search], [_vector_search], [_bm25_search], [_build_bm25_index] and
    [_reciprocal_rank_fusion] methods.

    With it, the code around the engine: [CrossEncoderReranker._rerank_sync]
    and [FillerAndRerank._generate_filler] of [src/pipeline/reranker.py],
    [ConversationMemory] of [src/utils/conversation_memory.py], and
    [VoiceOptimizedChunker] of [src/indexing/chunking.py]. Their models
    and the regular expressions are parameters there; the
    [ZeroDivisionError] of the chunker is the result [None].

    Modelling conventions.
    - Python [float] values are idealised as exact rationals ([Qc], the
      canonical rationals, so that equality is plain [=]).  Rounding is
      outside the model; every formula keeps the operand order of the
      source.  An equality of scores proved here is an equality of
      rationals: two sums that are equal as rationals can differ in
      binary64.
    - A Python [dict] is an association list kept in insertion order, the
      order Python guarantees for iteration and for [dict.keys()].
    - [sorted(..., reverse=True)] is a stable descending sort.
    - What the program takes from its environment (the built-in [hash] of a
      string, [math.log], [numpy.argsort], the Chroma collection with its
      embedder) is a parameter of the definitions that use it.
    - A Python exception is a [Raise] result. *)

From Stdlib Require Import ZArith QArith Qcanon List String Ascii Bool Lia.
From Stdlib Require Import Permutation.
Import ListNotations.

Set Implicit Arguments.
Open Scope Qc_scope.

(* ================================================================== *)
(** * Part I: the program                                              *)
(* ================================================================== *)

(** ** Numbers *)

(** [float] is read as [Qc]. *)
Abbreviation float := Qc (only parsing).

Definition float_of_Z (z : Z) : float := Q2Qc (inject_Z z).
Definition float_of_nat (n : nat) : float := float_of_Z (Z.of_nat n).

(** [x < y] as a test. *)
Definition Qcltb (x y : float) : bool :=
  match x ?= y with Lt => true | _ => false end.

(** The truth value of a float: [0.0] is false. *)
Definition truthy (x : float) : bool := negb (Qc_eq_bool x 0).

(** The literal [0.5]. *)
Definition half : float := Q2Qc (1 # 2).

(** ** Exceptions *)

Inductive exn : Type :=
| IndexError
| AttributeError
| ExternalError (msg : string).

Inductive result (A : Type) : Type :=
| Ok (a : A)
| Raise (e : exn).
Arguments Ok {A} a.
Arguments Raise {A} e.

Definition bind {A B : Type} (r : result A) (f : A -> result B) : result B :=
  match r with
  | Ok a => f a
  | Raise e => Raise e
  end.

Notation "x <- c ;; k" := (bind c (fun x => k))
  (at level 61, c at next level, right associativity).

(** ** Python sequences: slices and indexing *)

(** [l[:stop]] *)
Definition slice_to {A : Type} (stop : Z) (l : list A) : list A :=
  if (stop <? 0)%Z
  then firstn (Z.to_nat (Z.of_nat (List.length l) + stop)) l
  else firstn (Z.to_nat stop) l.

(** [l[start:]] *)
Definition slice_from {A : Type} (start : Z) (l : list A) : list A :=
  if (start <? 0)%Z
  then skipn (Z.to_nat (Z.of_nat (List.length l) + start)) l
  else skipn (Z.to_nat start) l.

(** [l[idx]] for an index that is not negative. *)
Definition getitem {A : Type} (l : list A) (idx : nat) : result A :=
  match nth_error l idx with
  | Some a => Ok a
  | None => Raise IndexError
  end.

(** [l[idx] = v] within range; out of range the list is left as it is (the
    callers below only write within range). *)
Fixpoint setitem {A : Type} (l : list A) (idx : nat) (v : A) : list A :=
  match l, idx with
  | [], _ => []
  | _ :: t, O => v :: t
  | x :: t, S i => x :: setitem t i v
  end.

(** ** Python dictionaries, in insertion order *)

Section Dict.
Variables K V : Type.
Variable eqb : K -> K -> bool.

Definition dict : Type := list (K * V).

(** [d.get(k, dflt)] *)
Fixpoint dict_get (d : dict) (k : K) (dflt : V) : V :=
  match d with
  | [] => dflt
  | (k', v) :: t => if eqb k k' then v else dict_get t k dflt
  end.

(** [k in d] *)
Fixpoint dict_mem (d : dict) (k : K) : bool :=
  match d with
  | [] => false
  | (k', _) :: t => if eqb k k' then true else dict_mem t k
  end.

(** [d[k] = v]: an existing key keeps its place, a new key goes last. *)
Fixpoint dict_set (d : dict) (k : K) (v : V) : dict :=
  match d with
  | [] => [(k, v)]
  | (k', v') :: t =>
      if eqb k k' then (k', v) :: t else (k', v') :: dict_set t k v
  end.

(** [d.keys()], also the order of [for k in d]. *)
Definition dict_keys (d : dict) : list K := map fst d.
End Dict.

Arguments dict_get {K V} eqb d k dflt.
Arguments dict_mem {K V} eqb d k.
Arguments dict_set {K V} eqb d k v.
Arguments dict_keys {K V} d.

(** ** Strings: [str.lower] and [str.split] (ASCII) *)

Definition lower_ascii (c : ascii) : ascii :=
  let n := nat_of_ascii c in
  if andb (65 <=? n)%nat (n <=? 90)%nat then ascii_of_nat (n + 32) else c.

Fixpoint lower (s : string) : string :=
  match s with
  | EmptyString => EmptyString
  | String c s' => String (lower_ascii c) (lower s')
  end.

(** The ASCII characters [str.split()] treats as white space. *)
Definition is_space (c : ascii) : bool :=
  let n := nat_of_ascii c in
  orb (andb (9 <=? n)%nat (n <=? 13)%nat)
      (orb (andb (28 <=? n)%nat (n <=? 31)%nat) (n =? 32)%nat).

Definition flush (cur : string) (rest : list string) : list string :=
  match cur with
  | EmptyString => rest
  | _ => cur :: rest
  end.

(** [cur] is the token being read. *)
Fixpoint split_from (s cur : string) : list string :=
  match s with
  | EmptyString => flush cur []
  | String c s' =>
      if is_space c
      then flush cur (split_from s' EmptyString)
      else split_from s' (cur ++ String c EmptyString)
  end.

(** [s.split()] *)
Definition split (s : string) : list string := split_from s EmptyString.

(** ** Data *)

Definition metadata : Type := list (string * string).

(** The tuples [(content, score, metadata)] of a ranking list. *)
Definition ResultTuple : Type := (string * float * metadata)%type.

Record SearchResult : Type := mkSearchResult {
  content : string;
  result_metadata : metadata;
  score : float;
  source : string
}.

(** An entry [{"content": ..., "metadata": ...}] of [self.documents]. *)
Record Document : Type := mkDocument {
  doc_content : string;
  doc_metadata : metadata
}.

(** ** class BM25Okapi *)

Record BM25Okapi : Type := mkBM25 {
  corpus : list (list string);
  corpus_size : nat;
  avg_doc_len : float;
  k1 : float;
  b : float;
  doc_freqs : list (dict string nat);
  term_doc_freq : dict string nat
}.

(** [d[term] = d.get(term, 0) + 1]: the step of [Counter] and of the
    document-frequency loop. *)
Definition count_step (d : dict string nat) (term : string)
  : dict string nat :=
  dict_set String.eqb d term (dict_get String.eqb d term 0%nat + 1)%nat.

(** [Counter(doc)] *)
Definition Counter (doc : list string) : dict string nat :=
  fold_left count_step doc [].

(** [for term in freq: term_doc_freq[term] = term_doc_freq.get(term, 0) + 1] *)
Definition count_terms (tdf : dict string nat) (freq : dict string nat)
  : dict string nat :=
  fold_left count_step (dict_keys freq) tdf.

(** The body of the loop [for doc in corpus] of [__init__], on the pair
    [(doc_freqs, term_doc_freq)]. *)
Definition index_step (acc : list (dict string nat) * dict string nat)
           (doc : list string) : list (dict string nat) * dict string nat :=
  let '(dfs, tdf) := acc in
  let freq := Counter doc in
  (dfs ++ [freq], count_terms tdf freq).

Definition index_docs (docs : list (list string))
  : list (dict string nat) * dict string nat :=
  fold_left index_step docs ([], []).

(** [sum(len(doc) for doc in corpus)] *)
Definition total_len (docs : list (list string)) : nat :=
  fold_left (fun acc doc => (acc + List.length doc)%nat) docs 0%nat.

(** [BM25Okapi.__init__] *)
Definition BM25Okapi_init (corpus : list (list string)) (k1 b : float)
  : BM25Okapi :=
  let corpus_size := List.length corpus in
  let avg_doc_len :=
    match corpus_size with
    | O => 0
    | _ => float_of_nat (total_len corpus) / float_of_nat corpus_size
    end in
  let '(dfs, tdf) := index_docs corpus in
  mkBM25 corpus corpus_size avg_doc_len k1 b dfs tdf.

Definition default_k1 : float := Q2Qc (3 # 2).
Definition default_b : float := Q2Qc (3 # 4).

Section BM25_scoring.
(** [math.log] *)
Variable log : float -> float.

Variable self : BM25Okapi.

(** The body of [for idx, freq in enumerate(self.doc_freqs)]. Its
    division is by a positive number for [k1 >= 0] and [0 <= b <= 1]
    (lemma [score_denominator_positive]). Outside this range [denom] can
    be 0, where Python raises [ZeroDivisionError] and the division of
    [Qc] gives 0: the model stands for the code on this range only, and
    the theorems that depend on the value of the quotient assume it. *)
Definition score_doc (term : string) (idf : float)
           (scores : list float) (idx : nat) (freq : dict string nat)
  : list float :=
  let term_freq := dict_get String.eqb freq term 0%nat in
  match term_freq with
  | O => scores
  | _ =>
      let doc_len := List.length (nth idx (corpus self) []) in
      let denom :=
        if truthy (avg_doc_len self)
        then float_of_nat term_freq
             + k1 self
               * (1 - b self
                  + b self * float_of_nat doc_len / avg_doc_len self)
        else float_of_nat term_freq + k1 self in
      setitem scores idx
        (nth idx scores 0
         + idf * (float_of_nat term_freq * (k1 self + 1)) / denom)
  end.

Fixpoint score_docs (term : string) (idf : float) (idx : nat)
         (freqs : list (dict string nat)) (scores : list float)
  : list float :=
  match freqs with
  | [] => scores
  | freq :: rest =>
      score_docs term idf (S idx) rest (score_doc term idf scores idx freq)
  end.

(** The body of [for term in query_terms]. *)
Definition score_term (scores : list float) (term : string) : list float :=
  let df := dict_get String.eqb (term_doc_freq self) term 0%nat in
  match df with
  | O => scores
  | _ =>
      let idf :=
        log (1 + (float_of_nat (corpus_size self) - float_of_nat df + half)
                 / (float_of_nat df + half)) in
      score_docs term idf 0 (doc_freqs self) scores
  end.

(** [BM25Okapi.get_scores] *)
Definition get_scores (query_terms : list string) : list float :=
  match corpus_size self with
  | O => []
  | _ => fold_left score_term query_terms (repeat 0 (corpus_size self))
  end.
End BM25_scoring.

(** ** class HybridSearch *)

(** The fields of a [HybridSearch] object that [search] reads or writes.
    The Chroma collection and the embedder are the parameters
    [collection_query] and [collection_get] below. *)
Record HybridSearch : Type := mkHybridSearch {
  vector_weight : float;
  bm25_weight : float;
  bm25_index : option BM25Okapi;
  documents : list Document
}.

Definition default_vector_weight : float := Q2Qc (7 # 10).
Definition default_bm25_weight : float := Q2Qc (3 # 10).

(** [HybridSearch.__init__], with its default weights. *)
Definition HybridSearch_init : HybridSearch :=
  mkHybridSearch default_vector_weight default_bm25_weight None [].

(** The default of the parameter [k] of [_reciprocal_rank_fusion]. [k] is
    taken in [nat]: no caller passes another value. *)
Definition RRF_K : nat := 60.

(** The three dictionaries of [_reciprocal_rank_fusion]. *)
Record rrf_state : Type := mkRrf {
  scores : dict Z float;
  content_map : dict Z string;
  metadata_map : dict Z metadata
}.

Definition rrf_empty : rrf_state := mkRrf [] [] [].

(** [sorted(keys, key=key, reverse=True)]: the stable descending sort. An
    element goes in front of the first later one whose key is not greater. *)
Section Sorted.
Variable A : Type.
Variable key : A -> float.

Fixpoint insert_desc (x : A) (l : list A) : list A :=
  match l with
  | [] => [x]
  | y :: t =>
      if Qcltb (key x) (key y) then y :: insert_desc x t else x :: y :: t
  end.

Definition sorted_desc (l : list A) : list A :=
  fold_right insert_desc [] l.
End Sorted.

Section Fusion.
(** The built-in [hash] on strings. *)
Variable hash : string -> Z.

Variable self : HybridSearch.

(** One of the two loops [for rank, (content, score, metadata) in
    enumerate(results)], with the weight [w] of its list; [rank] is the
    rank of the head of [results]. *)
Fixpoint score_results (w : float) (k rank : nat)
         (results : list ResultTuple) (st : rrf_state) : rrf_state :=
  match results with
  | [] => st
  | (content, _, metadata) :: rest =>
      let content_key := hash content in
      let rrf_score := w * (1 / float_of_nat (k + rank + 1)) in
      score_results w k (S rank) rest
        (mkRrf
           (dict_set Z.eqb (scores st) content_key
              (dict_get Z.eqb (scores st) content_key 0 + rrf_score))
           (dict_set Z.eqb (content_map st) content_key content)
           (dict_set Z.eqb (metadata_map st) content_key metadata))
  end.

(** The state after both loops. *)
Definition rrf_scored (vector_results bm25_results : list ResultTuple)
           (k : nat) : rrf_state :=
  score_results (bm25_weight self) k 0 bm25_results
    (score_results (vector_weight self) k 0 vector_results rrf_empty).

(** [sorted(scores.keys(), key=lambda x: scores[x], reverse=True)] *)
Definition sorted_keys (st : rrf_state) : list Z :=
  sorted_desc (fun x => dict_get Z.eqb (scores st) x 0)
              (dict_keys (scores st)).

(** The entry built for one key; the three dictionaries have the same
    keys (lemma [rrf_scored_same_keys]), so no lookup falls on its
    default. *)
Definition result_of_key (st : rrf_state) (key : Z) : SearchResult :=
  mkSearchResult
    (dict_get Z.eqb (content_map st) key EmptyString)
    (dict_get Z.eqb (metadata_map st) key [])
    (dict_get Z.eqb (scores st) key 0)
    "hybrid".

(** [HybridSearch._reciprocal_rank_fusion] *)
Definition _reciprocal_rank_fusion
           (vector_results bm25_results : list ResultTuple)
           (top_k : Z) (k : nat) : list SearchResult :=
  let st := rrf_scored vector_results bm25_results k in
  map (result_of_key st) (slice_to top_k (sorted_keys st)).
End Fusion.

(** What [collection.query] returns, for the one query embedding given:
    [results['documents'][0]], [results['distances'][0]] and
    [results['metadatas'][0]]. *)
Record QueryResult : Type := mkQueryResult {
  qr_documents : list string;
  qr_distances : list float;
  qr_metadatas : list metadata
}.

(** What [collection.get] returns: [all_docs['documents']] and
    [all_docs['metadatas']]. *)
Record GetResult : Type := mkGetResult {
  gr_documents : list string;
  gr_metadatas : list metadata
}.

(** [zip] of three lists. *)
Fixpoint zip3 {A B C : Type} (la : list A) (lb : list B) (lc : list C)
  : list (A * B * C) :=
  match la, lb, lc with
  | a :: la', b :: lb', c :: lc' => (a, b, c) :: zip3 la' lb' lc'
  | _, _, _ => []
  end.

Section Search.
Variable hash : string -> Z.
Variable log : float -> float.

(** [numpy.argsort]: the indices of an array in ascending order of its
    values. *)
Variable argsort : list float -> list nat.

(** [self.embedder.encode(query)] followed by [self.collection.query]
    with [n_results]. *)
Variable collection_query : string -> Z -> result QueryResult.

(** [self.collection.get(include=["documents", "metadatas"])] *)
Variable collection_get : result GetResult.

(** [HybridSearch._vector_search] *)
Definition _vector_search (query : string) (top_k : Z)
  : result (list ResultTuple) :=
  results <- collection_query query top_k ;;
  Ok (map (fun '(doc, dist, meta) => (doc, 1 - dist, meta))
          (zip3 (qr_documents results) (qr_distances results)
                (qr_metadatas results))).

(** [HybridSearch._build_bm25_index]: the new [documents] and
    [bm25_index]. *)
Definition _build_bm25_index (self : HybridSearch) : result HybridSearch :=
  all_docs <- collection_get ;;
  let documents :=
    map (fun '(doc, meta) => mkDocument doc meta)
        (combine (gr_documents all_docs) (gr_metadatas all_docs)) in
  let tokenized_docs :=
    map (fun doc => split (lower (doc_content doc))) documents in
  Ok (mkHybridSearch (vector_weight self) (bm25_weight self)
        (Some (BM25Okapi_init tokenized_docs default_k1 default_b))
        documents).

(** The loop [for idx in top_indices] of [_bm25_search]. *)
Fixpoint collect_positive (docs : list Document) (scores : list float)
         (top_indices : list nat) (results : list ResultTuple)
  : result (list ResultTuple) :=
  match top_indices with
  | [] => Ok results
  | idx :: rest =>
      s <- getitem scores idx ;;
      if Qcltb 0 s
      then doc <- getitem docs idx ;;
           collect_positive docs scores rest
             (results ++ [(doc_content doc, s, doc_metadata doc)])
      else collect_positive docs scores rest results
  end.

(** [_bm25_search] from [tokenized_query = ...] on. *)
Definition bm25_ranked (self : HybridSearch) (query : string) (top_k : Z)
  : result (list ResultTuple) :=
  let tokenized_query := split (lower query) in
  match bm25_index self with
  | None => Raise AttributeError
  | Some index =>
      let scores := get_scores log index tokenized_query in
      let top_indices := rev (slice_from (- top_k) (argsort scores)) in
      collect_positive (documents self) scores top_indices []
  end.

(** [HybridSearch._bm25_search]: the object after the call and what the
    call returns. A failed build leaves the object as it was. *)
Definition _bm25_search (self : HybridSearch) (query : string) (top_k : Z)
  : HybridSearch * result (list ResultTuple) :=
  let built :=
    match bm25_index self with
    | None => _build_bm25_index self
    | Some _ => Ok self
    end in
  match built with
  | Raise e => (self, Raise e)
  | Ok self' => (self', bm25_ranked self' query top_k)
  end.

(** [HybridSearch.search]. Both tasks run; [asyncio.gather] hands back
    both results, or raises the exception of the first task that failed,
    and the vector task is the first to run. *)
Definition search (self : HybridSearch) (query : string) (top_k : Z)
  : HybridSearch * result (list SearchResult) :=
  let vector_task := _vector_search query top_k in
  let '(self', bm25_task) := _bm25_search self query top_k in
  (self',
   vector_results <- vector_task ;;
   bm25_results <- bm25_task ;;
   Ok (_reciprocal_rank_fusion hash self' vector_results bm25_results
         top_k RRF_K)).
End Search.

(** ** class CrossEncoderReranker ([pipeline/reranker.py]) *)

(** [result.score = s]. The results that [search] returns are distinct
    objects, and an index met twice gets the same score twice: the
    assignment is modelled as a copy. *)
Definition set_score (r : SearchResult) (s : float) : SearchResult :=
  mkSearchResult (content r) (result_metadata r) s (source r).

Section Rerank.
(** The tokenizer and the model: the logits of the pairs
    [[query, content]], squeezed to one number for each pair. *)
Variable cross_encoder : string -> list string -> result (list float).

(** [torch.argsort(scores, descending=True)] *)
Variable argsort_descending : list float -> list nat.

(** The loop [for idx in sorted_indices]. *)
Fixpoint rerank_loop (results : list SearchResult) (scores : list float)
         (sorted_indices : list nat) (reranked_results : list SearchResult)
  : result (list SearchResult) :=
  match sorted_indices with
  | [] => Ok reranked_results
  | idx :: rest =>
      r <- getitem results idx ;;
      s <- getitem scores idx ;;
      rerank_loop results scores rest (reranked_results ++ [set_score r s])
  end.

(** [CrossEncoderReranker._rerank_sync] *)
Definition _rerank_sync (query : string) (results : list SearchResult)
           (top_k : Z) : result (list SearchResult) :=
  match results with
  | [] => Ok []
  | _ =>
      scores <- cross_encoder query (map content results) ;;
      let sorted_indices := slice_to top_k (argsort_descending scores) in
      rerank_loop results scores sorted_indices []
  end.
End Rerank.

(** ** class ConversationMemory ([utils/conversation_memory.py]) *)

Record ConversationTurn : Type := mkTurn {
  user : string;
  assistant : string;
  timestamp : float;
  entities : list string
}.

Record ConversationMemory : Type := mkMemory {
  conversations : dict string (list ConversationTurn);
  entity_index : dict string (list string);
  max_turns : Z
}.

(** [ConversationMemory.__init__] *)
Definition ConversationMemory_init (max_turns : Z) : ConversationMemory :=
  mkMemory [] [] max_turns.

(** [d[k]] on a [defaultdict(list)]: a key that is not there is added with
    the empty list. The dictionary after the lookup, and the value. *)
Definition dd_getitem {V : Type} (d : dict string (list V)) (k : string)
  : dict string (list V) * list V :=
  if dict_mem String.eqb d k
  then (d, dict_get String.eqb d k [])
  else (dict_set String.eqb d k [], []).

(** [d[k].append(x)] on a [defaultdict(list)]. *)
Definition dd_append {V : Type} (d : dict string (list V)) (k : string)
           (x : V) : dict string (list V) :=
  let '(d', l) := dd_getitem d k in
  dict_set String.eqb d' k (l ++ [x]).

Section Memory.
(** [_extract_entities], two regular expressions over the text. *)
Variable _extract_entities : string -> list string.

(** [ConversationMemory.add_turn]; [now] is what [time.time()] gives for
    the time stamp of the turn. *)
Definition add_turn (self : ConversationMemory) (now : float)
           (conversation_id user assistant : string) : ConversationMemory :=
  let entities := _extract_entities (user ++ " " ++ assistant)%string in
  let turn := mkTurn user assistant now entities in
  let conversations := dd_append (conversations self) conversation_id turn in
  let entity_index :=
    fold_left (fun index entity => dd_append index entity conversation_id)
              entities (entity_index self) in
  let '(conversations, turns) := dd_getitem conversations conversation_id in
  if (max_turns self <? Z.of_nat (List.length turns))%Z
  then
    let '(conversations, turns) :=
      dd_getitem conversations conversation_id in
    mkMemory
      (dict_set String.eqb conversations conversation_id
                (slice_from (- max_turns self) turns))
      entity_index (max_turns self)
  else mkMemory conversations entity_index (max_turns self).

(** [ConversationMemory.get_history]: the object after the call (the
    lookup may add the key) and the list of [{"user", "assistant"}]. *)
Definition get_history (self : ConversationMemory) (conversation_id : string)
  : ConversationMemory * list (string * string) :=
  let '(conversations, turns) :=
    dd_getitem (conversations self) conversation_id in
  (mkMemory conversations (entity_index self) (max_turns self),
   map (fun t => (user t, assistant t)) turns).

(** [list(dict.fromkeys(l))]: the first occurrences, in order. *)
Fixpoint fromkeys (l : list string) : list string :=
  match l with
  | [] => []
  | x :: t => x :: filter (fun y => negb (String.eqb y x)) (fromkeys t)
  end.

(** [ConversationMemory.get_recent_entities] *)
Definition get_recent_entities (self : ConversationMemory)
           (conversation_id : string) (n : Z)
  : ConversationMemory * list string :=
  let '(conversations, turns) :=
    dd_getitem (conversations self) conversation_id in
  let entities :=
    fold_left (fun acc turn => acc ++ entities turn)
              (rev (slice_from (- n) turns)) [] in
  (mkMemory conversations (entity_index self) (max_turns self),
   fromkeys entities).
End Memory.

(** ** class FillerAndRerank ([pipeline/reranker.py]) *)

Record FillerAndRerank : Type := mkFillerAndRerank {
  fillers : list string;
  filler_index : nat
}.

(** [FillerAndRerank.__init__], without the reranker and the client. *)
Definition FillerAndRerank_init : FillerAndRerank :=
  mkFillerAndRerank
    ["Let me look that up for you..."%string;
     "One moment while I check the manual..."%string;
     "I'm finding the relevant information..."%string;
     "Let me search the technical documentation..."%string;
     "Checking the specifications now..."%string]
    0.

(** [FillerAndRerank._generate_filler]: the object after the call and what
    [on_ready] was called with ([on_ready] tells whether there is a
    callback). *)
Definition _generate_filler (self : FillerAndRerank) (on_ready : bool)
  : result (FillerAndRerank * list string) :=
  filler <- getitem (fillers self) (filler_index self) ;;
  let self :=
    mkFillerAndRerank
      (fillers self)
      ((filler_index self + 1) mod List.length (fillers self)) in
  Ok (self, if on_ready then [filler] else []).

(** ** class VoiceOptimizedChunker ([indexing/chunking.py]) *)

Record VoiceChunk : Type := mkVoiceChunk {
  chunk_content : string;
  chunk_metadata : metadata;
  word_count : nat;
  estimated_speech_duration_sec : float
}.

Record VoiceOptimizedChunker : Type := mkChunker {
  max_chunk_words : Z;
  overlap_words : Z;
  wpm : Z
}.

(** [VoiceOptimizedChunker.__init__] with its default arguments. *)
Definition VoiceOptimizedChunker_init : VoiceOptimizedChunker :=
  mkChunker 50 10 150.

(** [sep.join(l)] *)
Fixpoint join (sep : string) (l : list string) : string :=
  match l with
  | [] => EmptyString
  | s :: t =>
      match t with
      | [] => s
      | _ :: _ => (s ++ sep ++ join sep t)%string
      end
  end.

(** [len(s.split())] *)
Definition count_words (s : string) : Z := Z.of_nat (List.length (split s)).

(** [sum(len(s.split()) for s in l)] *)
Definition sum_words (l : list string) : Z :=
  fold_left (fun acc s => (acc + count_words s)%Z) l 0%Z.

(** [VoiceOptimizedChunker._create_chunk]; [None] is the
    [ZeroDivisionError] of [word_count / self.wpm]. *)
Definition _create_chunk (self : VoiceOptimizedChunker)
           (sentences : list string) (meta : option metadata)
  : option VoiceChunk :=
  let content := join " "%string sentences in
  let word_count := List.length (split content) in
  if (wpm self =? 0)%Z then None
  else
    let duration :=
      float_of_nat word_count / float_of_Z (wpm self) * float_of_Z 60 in
    Some (mkVoiceChunk content
                       (match meta with Some m => m | None => [] end)
                       word_count duration).

(** The loop of [_get_overlap], over the sentences from the last one. *)
Fixpoint overlap_loop (self : VoiceOptimizedChunker)
         (reversed : list string) (overlap : list string) (word_count : Z)
  : list string :=
  match reversed with
  | [] => overlap
  | sentence :: rest =>
      let sentence_words := count_words sentence in
      if (word_count + sentence_words <=? overlap_words self)%Z
      then overlap_loop self rest (sentence :: overlap)
                        (word_count + sentence_words)%Z
      else overlap
  end.

(** [VoiceOptimizedChunker._get_overlap] *)
Definition _get_overlap (self : VoiceOptimizedChunker)
           (sentences : list string) : list string :=
  match sentences with
  | [] => []
  | _ => overlap_loop self (rev sentences) [] 0%Z
  end.

(** [if current: result.append(' '.join(current))] *)
Definition flush_current (result current : list string) : list string :=
  match current with
  | [] => result
  | _ => result ++ [join " "%string current]
  end.

(** The loop of [_split_long_sentence] over the parts. *)
Fixpoint split_long_loop (self : VoiceOptimizedChunker)
         (parts : list string) (result current : list string)
         (current_words : Z) : list string :=
  match parts with
  | [] => flush_current result current
  | part :: rest =>
      let part_words := count_words part in
      if (current_words + part_words <=? max_chunk_words self)%Z
      then split_long_loop self rest result (current ++ [part])
                           (current_words + part_words)%Z
      else split_long_loop self rest (flush_current result current)
                           [part] part_words
  end.

Section Chunker.
(** The seventeen [re.sub] of [_add_pronunciation_guides]. *)
Variable _add_pronunciation_guides : string -> string.

(** [_split_into_sentences], regular expressions over the text. *)
Variable _split_into_sentences : string -> list string.

(** [re.split] at the pauses: after a comma, semicolon or colon, and at
    [and] and [or]. *)
Variable pause_split : string -> list string.

(** [VoiceOptimizedChunker._split_long_sentence] *)
Definition _split_long_sentence (self : VoiceOptimizedChunker)
           (sentence : string) : list string :=
  split_long_loop self (pause_split sentence) [] [] 0%Z.

(** The loop [for sub in sub_sentences]. *)
Fixpoint create_chunks (self : VoiceOptimizedChunker)
         (sub_sentences : list string) (meta : option metadata)
         (chunks : list VoiceChunk) : option (list VoiceChunk) :=
  match sub_sentences with
  | [] => Some chunks
  | sub :: rest =>
      match _create_chunk self [sub] meta with
      | None => None
      | Some chunk => create_chunks self rest meta (chunks ++ [chunk])
      end
  end.

(** [if current_chunk: chunks.append(self._create_chunk(current_chunk,
    metadata))] *)
Definition save_current (self : VoiceOptimizedChunker)
           (meta : option metadata) (chunks : list VoiceChunk)
           (current_chunk : list string) : option (list VoiceChunk) :=
  match current_chunk with
  | [] => Some chunks
  | _ =>
      match _create_chunk self current_chunk meta with
      | None => None
      | Some chunk => Some (chunks ++ [chunk])
      end
  end.

(** The loop of [chunk_document] over the sentences, and what follows
    it. *)
Fixpoint chunk_loop (self : VoiceOptimizedChunker) (meta : option metadata)
         (sentences : list string) (chunks : list VoiceChunk)
         (current_chunk : list string) (current_word_count : Z)
  : option (list VoiceChunk) :=
  match sentences with
  | [] => save_current self meta chunks current_chunk
  | sentence :: rest =>
      let sentence_words := count_words sentence in
      if (max_chunk_words self <? sentence_words)%Z
      then
        match save_current self meta chunks current_chunk with
        | None => None
        | Some chunks' =>
            let current_chunk' :=
              match current_chunk with [] => current_chunk | _ => [] end in
            let current_word_count' :=
              match current_chunk with
              | [] => current_word_count
              | _ => 0%Z
              end in
            let sub_sentences := _split_long_sentence self sentence in
            match create_chunks self sub_sentences meta chunks' with
            | None => None
            | Some chunks'' =>
                chunk_loop self meta rest chunks'' current_chunk'
                           current_word_count'
            end
        end
      else if (current_word_count + sentence_words
               <=? max_chunk_words self)%Z
      then chunk_loop self meta rest chunks (current_chunk ++ [sentence])
                      (current_word_count + sentence_words)%Z
      else
        match _create_chunk self current_chunk meta with
        | None => None
        | Some chunk =>
            let overlap := _get_overlap self current_chunk in
            let current_chunk' := overlap ++ [sentence] in
            chunk_loop self meta rest (chunks ++ [chunk]) current_chunk'
                       (sum_words current_chunk')
        end
  end.

(** [VoiceOptimizedChunker.chunk_document] *)
Definition chunk_document (self : VoiceOptimizedChunker) (text : string)
           (meta : option metadata) : option (list VoiceChunk) :=
  let processed_text := _add_pronunciation_guides text in
  let sentences := _split_into_sentences processed_text in
  chunk_loop self meta sentences [] [] 0%Z.
End Chunker.

(* ================================================================== *)
(** * Part II: the properties, as the specification words them        *)
(* ================================================================== *)

Definition tuple_content (t : ResultTuple) : string := fst (fst t).
Definition tuple_metadata (t : ResultTuple) : metadata := snd t.

(** What is left of a ranking list once the raw scores are dropped. *)
Definition strip (t : ResultTuple) : string * metadata :=
  (tuple_content t, tuple_metadata t).

Section Fusion_spec.
Variable hash : string -> Z.

(** The key under which a tuple is accumulated. *)
Definition tuple_key (t : ResultTuple) : Z := hash (tuple_content t).

(** The key of a fused entry. *)
Definition result_key (r : SearchResult) : Z := hash (content r).

(** The 0-indexed rank of a document in a ranking list: the position of
    the first entry with this content. *)
Fixpoint rank_of (d : string) (l : list ResultTuple) : option nat :=
  match l with
  | [] => None
  | t :: rest =>
      if String.eqb (tuple_content t) d then Some O
      else option_map S (rank_of d rest)
  end.

(** [w_L * 1 / (k_rrf + r + 1)] when the document has rank [r] in the
    list; a list without the document contributes nothing. *)
Definition list_contribution (w : float) (k : nat) (d : string)
           (l : list ResultTuple) : float :=
  match rank_of d l with
  | Some r => w * (1 / float_of_nat (k + r + 1))
  | None => 0
  end.

(** The fused score of the specification. *)
Definition rrf_formula (w_vector w_lexical : float) (k : nat)
           (vector_results bm25_results : list ResultTuple) (d : string)
  : float :=
  list_contribution w_vector k d vector_results
  + list_contribution w_lexical k d bm25_results.

(** The contributions of every entry of a list accumulated under the
    key [h]; [rank] is the rank of the head. *)
Fixpoint key_contributions (w : float) (k rank : nat) (h : Z)
         (l : list ResultTuple) : float :=
  match l with
  | [] => 0
  | t :: rest =>
      (if Z.eqb (tuple_key t) h
       then w * (1 / float_of_nat (k + rank + 1)) else 0)
      + key_contributions w k (S rank) h rest
  end.

(** The rank of the first entry of a list with key [h]. *)
Fixpoint key_rank (h : Z) (l : list ResultTuple) : option nat :=
  match l with
  | [] => None
  | t :: rest =>
      if Z.eqb (tuple_key t) h then Some O
      else option_map S (key_rank h rest)
  end.
End Fusion_spec.

(** No two of the strings [L] have the same hash. *)
Definition collision_free (hash : string -> Z) (L : list string) : Prop :=
  forall c c', In c L -> In c' L -> hash c = hash c' -> c = c'.

(** The contents of a ranking list. *)
Definition contents (l : list ResultTuple) : list string :=
  map tuple_content l.

(** The list a fused entry comes from, and its rank there. *)
Inductive origin_list : Type := FromVector | FromLexical.

Definition origin (hash : string -> Z)
           (vector_results bm25_results : list ResultTuple) (h : Z)
  : option (origin_list * nat) :=
  match key_rank hash h vector_results with
  | Some r => Some (FromVector, r)
  | None =>
      match key_rank hash h bm25_results with
      | Some r => Some (FromLexical, r)
      | None => None
      end
  end.

(** Vector before lexical, then the lower rank first. *)
Definition origin_lt (o1 o2 : origin_list * nat) : Prop :=
  match fst o1, fst o2 with
  | FromVector, FromLexical => True
  | FromLexical, FromVector => False
  | _, _ => (snd o1 < snd o2)%nat
  end.

(** Keys in the order of their first occurrence. *)
Fixpoint first_seen (l : list Z) : list Z :=
  match l with
  | [] => []
  | x :: t => x :: filter (fun y => negb (Z.eqb y x)) (first_seen t)
  end.

(** [x] comes before [y] in [l]. *)
Definition before {A : Type} (l : list A) (x y : A) : Prop :=
  exists l1 l2 l3, l = l1 ++ x :: l2 ++ y :: l3.

(** An empty or white-space-only string. *)
Fixpoint all_space (s : string) : bool :=
  match s with
  | EmptyString => true
  | String c s' => is_space c && all_space s'
  end.

(** The contents of what a call returned. *)
Definition returned_contents (r : result (list SearchResult))
  : result (list string) :=
  xs <- r ;; Ok (map content xs).

Definition ranked_contents (r : result (list ResultTuple))
  : result (list string) :=
  xs <- r ;; Ok (map (fun t : ResultTuple => fst (fst t)) xs).

(** ** The lexical score of the specification *)

Section BM25_spec.
(** The natural logarithm. *)
Variable ln : float -> float.

Variable docs : list (list string).
Variables k1 b : float.

(** [N] *)
Definition N_docs : nat := List.length docs.

(** [tf(t, i)]: how many times the term occurs in document [i]. *)
Definition tf (t : string) (i : nat) : nat :=
  count_occ string_dec (nth i docs []) t.

(** [df(t)]: how many documents contain the term. *)
Definition df (t : string) : nat :=
  List.length (filter (fun doc => (0 <? count_occ string_dec doc t)%nat)
                      docs).

(** [len(i)] *)
Definition len (i : nat) : nat := List.length (nth i docs []).

(** [avgLen]: the mean of the document lengths, 0 for no document. *)
Definition avgLen : float :=
  match docs with
  | [] => 0
  | _ => float_of_nat (list_sum (map (@List.length string) docs))
         / float_of_nat N_docs
  end.

(** [idf(t) = ln(1 + (N - df(t) + 0.5) / (df(t) + 0.5))] *)
Definition idf (t : string) : float :=
  ln (1 + (float_of_nat N_docs - float_of_nat (df t) + half)
          / (float_of_nat (df t) + half)).

(** The contribution of a term to document [i]; a term that no document
    contains contributes 0. *)
Definition term_contribution (t : string) (i : nat) : float :=
  match df t with
  | O => 0
  | _ =>
      idf t
      * (float_of_nat (tf t i) * (k1 + 1)
         / (if Qc_eq_dec avgLen 0
            then float_of_nat (tf t i) + k1
            else float_of_nat (tf t i)
                 + k1 * (1 - b + b * float_of_nat (len i) / avgLen)))
  end.

(** The lexical score of document [i]: the sum over the query terms. *)
Definition bm25_formula (query_terms : list string) (i : nat) : float :=
  fold_left (fun acc t => acc + term_contribution t i) query_terms 0.
End BM25_spec.

(** ** Notions used in the proofs *)

(** The key [y] is not among [ks]. *)
Definition fresh (ks : list Z) (y : Z) : bool := negb (existsb (Z.eqb y) ks).

(** The position of the first occurrence of a key. *)
Fixpoint index_of (x : Z) (l : list Z) : option nat :=
  match l with
  | [] => None
  | a :: t => if Z.eqb a x then Some O else option_map S (index_of x t)
  end.

(** The three dictionaries keep the same keys. *)
Definition same_keys (st : rrf_state) : Prop :=
  dict_keys (content_map st) = dict_keys (scores st) /\
  dict_keys (metadata_map st) = dict_keys (scores st).

(** Content and metadata under a key are those of one entry with this
    key, taken from the lists read so far. *)
Definition from_entry (hash : string -> Z) (st : rrf_state)
           (seen : list ResultTuple) : Prop :=
  forall h, In h (dict_keys (scores st)) ->
    exists t, In t seen /\ tuple_key hash t = h /\
      dict_get Z.eqb (content_map st) h EmptyString = tuple_content t /\
      dict_get Z.eqb (metadata_map st) h [] = tuple_metadata t.

(** Where the elements of the input stand in the output: an element with
    the greater key first, and of two elements with the same key the one
    that came first in the input. *)
Definition placed (A : Type) (key : A -> float) (l : list A) (x y : A)
  : Prop :=
  key y < key x \/ (key x = key y /\ before l x y).

(** The score a key gets from a list of pairwise distinct keys: the
    reciprocal of its rank, counted from [rank]. *)
Definition rank_score (k : nat) (w : float) (rank : nat) (keys : list Z)
           (h : Z) : float :=
  match index_of h keys with
  | Some i => w * (1 / float_of_nat (k + (rank + i) + 1))
  | None => 0
  end.

(** What [score_doc] adds to [scores[idx]]. *)
Definition doc_term (self : BM25Okapi) (term : string) (idf : float)
           (idx : nat) (freq : dict string nat) : float :=
  match dict_get String.eqb freq term 0%nat with
  | O => 0
  | S n =>
      idf * (float_of_nat (S n) * (k1 self + 1))
      / (if truthy (avg_doc_len self)
         then float_of_nat (S n)
              + k1 self
                * (1 - b self
                   + b self
                     * float_of_nat
                         (List.length (nth idx (corpus self) []))
                     / avg_doc_len self)
         else float_of_nat (S n) + k1 self)
  end.

(** What [score_term] adds to the score of document [i]. *)
Definition term_part (log : float -> float) (self : BM25Okapi)
           (term : string) (i : nat) : float :=
  match dict_get String.eqb (term_doc_freq self) term 0%nat with
  | O => 0
  | S n =>
      doc_term self term
        (log (1 + (float_of_nat (corpus_size self) - float_of_nat (S n)
                   + half)
                  / (float_of_nat (S n) + half)))
        i (nth i (doc_freqs self) [])
  end.

(** The tokens [_build_bm25_index] computes for a document. *)
Definition tokens_of (d : Document) : list string :=
  split (lower (doc_content d)).

(** The index of the object, when there is one, is the index of its
    [documents]: what [_build_bm25_index] leaves. *)
Definition aligned (self : HybridSearch) : Prop :=
  match bm25_index self with
  | None => True
  | Some index =>
      index = BM25Okapi_init (map tokens_of (documents self))
                default_k1 default_b
  end.

(** Some document of the corpus contains the term. *)
Definition occurs (docs : list (list string)) (t : string) : bool :=
  existsb (fun doc => (0 <? count_occ string_dec doc t)%nat) docs.

(** The tuple [_bm25_search] appends for the index [idx]. *)
Definition tuple_at (docs : list Document) (scores : list float) (idx : nat)
  : ResultTuple :=
  (doc_content (nth idx docs (mkDocument EmptyString [])),
   nth idx scores 0,
   doc_metadata (nth idx docs (mkDocument EmptyString []))).

(** [scores[idx] > 0] *)
Definition positive_at (scores : list float) (idx : nat) : bool :=
  Qcltb 0 (nth idx scores 0).

(** The raw score of a tuple. *)
Definition tuple_score (t : ResultTuple) : float := snd (fst t).

(** The last entry of a list with key [h]. *)
Fixpoint last_with_key (hash : string -> Z) (h : Z) (l : list ResultTuple)
  : option ResultTuple :=
  match l with
  | [] => None
  | t :: rest =>
      match last_with_key hash h rest with
      | Some t' => Some t'
      | None => if Z.eqb (hash (tuple_content t)) h then Some t else None
      end
  end.

(** The number of distinct keys of the two lists. *)
Definition distinct_keys (hash : string -> Z) (v b : list ResultTuple)
  : nat :=
  List.length (first_seen (map (tuple_key hash) (v ++ b))).

(** ** Stand-ins for the environment, for the worked examples *)

(** A hash without collisions: the bytes of the string, read as a number
    in base 256 under a leading 1. *)
Fixpoint code_hash (s : string) : Z :=
  match s with
  | EmptyString => 1
  | String c s' => Z.of_nat (nat_of_ascii c) + 256 * code_hash s'
  end.

(** A hash with collisions: the length of the string. *)
Definition length_hash (s : string) : Z := Z.of_nat (String.length s).

Definition engine (w_vector w_lexical : float) : HybridSearch :=
  mkHybridSearch w_vector w_lexical None [].

Definition meta_page (n : string) : metadata := [("page"%string, n)].

(** An entry of a ranking list. *)
Definition entry (c : string) (s : float) (m : metadata) : ResultTuple :=
  (c, s, m).

(** Two ranking lists that share the document ["b"]. *)
Definition demo_vector : list ResultTuple :=
  [entry "a" (Q2Qc (9 # 10)) (meta_page "1");
   entry "b" (Q2Qc (8 # 10)) (meta_page "2")].

Definition demo_lexical : list ResultTuple :=
  [entry "b" (Q2Qc 3) (meta_page "2");
   entry "c" (Q2Qc 2) (meta_page "3")].

(** A vector list in which two chunks, of pages 1 and 2, have the same
    text. *)
Definition repeated_vector : list ResultTuple :=
  [entry "a" (Q2Qc (9 # 10)) (meta_page "1");
   entry "a" (Q2Qc (8 # 10)) (meta_page "2")].

(** Equal weights, and two documents that each lead one list: their
    fused scores are equal. *)
Definition even_engine : HybridSearch :=
  engine (Q2Qc (1 # 2)) (Q2Qc (1 # 2)).

Definition tie_vector : list ResultTuple :=
  [entry "a" (Q2Qc (9 # 10)) (meta_page "1")].

Definition tie_lexical : list ResultTuple :=
  [entry "b" (Q2Qc 3) (meta_page "2")].

(** The vector list alone decides: weight 1 for it, weight 0 for the
    lexical list. *)
Definition vector_only_engine : HybridSearch := engine 1 0.

(** A vector list in which the text of rank 1 comes again at rank 2. *)
Definition vector_with_repeat : list ResultTuple :=
  [entry "a" (Q2Qc (9 # 10)) (meta_page "1");
   entry "b" (Q2Qc (8 # 10)) (meta_page "2");
   entry "b" (Q2Qc (7 # 10)) (meta_page "3")].

(** The corpus of the specification's example, tokenised. *)
Definition demo_corpus : list (list string) :=
  [["the"; "gpu"; "is"; "fast"]; ["the"; "cpu"; "is"; "slow"];
   ["ssd"; "storage"; "speed"]]%string.

(** A logarithm for the examples: a function that is 0 at 1 and grows. *)
Definition demo_log (x : float) : float := x - 1.

(** An [argsort] for the examples: the indices, sorted by insertion in
    ascending order of the values. *)
Fixpoint insert_asc (scores : list float) (i : nat) (l : list nat)
  : list nat :=
  match l with
  | [] => [i]
  | j :: t =>
      if Qcltb (nth j scores 0) (nth i scores 0)
      then j :: insert_asc scores i t
      else i :: j :: t
  end.

Definition demo_argsort (scores : list float) : list nat :=
  fold_right (insert_asc scores) [] (seq 0 (List.length scores)).

(** The corpus of the specification's example, one page each. *)
Definition demo_contents : list string :=
  ["the gpu is fast"; "the cpu is slow"; "ssd storage speed"]%string.

Definition demo_metadatas : list metadata :=
  [meta_page "1"; meta_page "2"; meta_page "3"]%string.

Definition demo_distances : list float :=
  [Q2Qc (1 # 10); Q2Qc (2 # 10); Q2Qc (3 # 10)].

(** A store that answers every query with its nearest documents, whatever
    the text of the query, and refuses to return no result at all. *)
Definition demo_collection_query (query : string) (n_results : Z)
  : result QueryResult :=
  if (n_results <=? 0)%Z
  then Raise (ExternalError "n_results must be positive")
  else
    let n := Z.to_nat n_results in
    Ok (mkQueryResult (firstn n demo_contents) (firstn n demo_distances)
                      (firstn n demo_metadatas)).

Definition demo_collection_get : result GetResult :=
  Ok (mkGetResult demo_contents demo_metadatas).

(** A vector store that cannot be reached. *)
Definition unavailable_collection_query (query : string) (n_results : Z)
  : result QueryResult :=
  Raise (ExternalError "vector store unavailable").

Definition demo_search : HybridSearch -> string -> Z ->
                         HybridSearch * result (list SearchResult) :=
  search code_hash demo_log demo_argsort
         demo_collection_query demo_collection_get.

Definition degraded_search : HybridSearch -> string -> Z ->
                             HybridSearch * result (list SearchResult) :=
  search code_hash demo_log demo_argsort
         unavailable_collection_query demo_collection_get.

(** The turns kept for a conversation and the conversations recorded for
    an entity, read without touching the object. *)
Definition turns_of (self : ConversationMemory) (conversation_id : string)
  : list ConversationTurn :=
  dict_get String.eqb (conversations self) conversation_id [].

Definition conversations_of (self : ConversationMemory) (entity : string)
  : list string :=
  dict_get String.eqb (entity_index self) entity [].

(** One call of [add_turn]: the clock at the call and the three arguments. *)
Record Call : Type := mkCall {
  call_now : float;
  call_id : string;
  call_user : string;
  call_assistant : string
}.

Definition exchange_of (c : Call) : string * string :=
  (call_user c, call_assistant c).

Definition calls_of (conversation_id : string) (calls : list Call)
  : list Call :=
  filter (fun c => String.eqb (call_id c) conversation_id) calls.

(** The object after a sequence of [add_turn] calls. *)
Definition add_turns (_extract_entities : string -> list string)
           (self : ConversationMemory) (calls : list Call)
  : ConversationMemory :=
  fold_left
    (fun m c => add_turn _extract_entities m (call_now c) (call_id c)
                         (call_user c) (call_assistant c))
    calls self.

(** The turn that a call of [add_turn] stores. *)
Definition turn_of (_extract_entities : string -> list string) (c : Call)
  : ConversationTurn :=
  mkTurn (call_user c) (call_assistant c) (call_now c)
         (_extract_entities (call_user c ++ " " ++ call_assistant c)%string).

(** [s] is a part of [t]. *)
Definition substring (s t : string) : Prop :=
  exists pre post, t = (pre ++ s ++ post)%string.

(** A sentence is [covered] when it is a part of the content of a chunk. *)
Definition covered (s : string) (chunks : list VoiceChunk) : Prop :=
  exists chunk, In chunk chunks /\ substring s (chunk_content chunk).

(** The value of [nth] out of range. *)
Definition default_result : SearchResult :=
  mkSearchResult EmptyString [] 0 EmptyString.

(** [n] calls of [_generate_filler] in a row, each with a callback: the
    object after the last call and the fillers emitted, in order. *)
Fixpoint generate_fillers (self : FillerAndRerank) (n : nat)
  : result (FillerAndRerank * list string) :=
  match n with
  | O => Ok (self, [])
  | S n' =>
      first <- _generate_filler self true ;;
      others <- generate_fillers (fst first) n' ;;
      Ok (fst others, snd first ++ snd others)
  end.

(** A cross-encoder for the examples: the longer the content, the higher
    its logit. *)
Definition demo_cross_encoder (query : string) (contents : list string)
  : result (list float) :=
  Ok (map (fun c => float_of_nat (String.length c)) contents).

(** A descending [argsort] for the examples. *)
Definition demo_argsort_descending (scores : list float) : list nat :=
  rev (demo_argsort scores).

(** Three fused results to rerank. *)
Definition demo_results : list SearchResult :=
  [mkSearchResult "short" (meta_page "1") (Q2Qc (1 # 61)) "hybrid";
   mkSearchResult "the longest text" (meta_page "2") (Q2Qc (1 # 62))
                  "hybrid";
   mkSearchResult "a longer one" (meta_page "3") (Q2Qc (1 # 63)) "hybrid"].

(** An entity extractor for the examples: the words of the text. *)
Definition demo_extract_entities (text : string) : list string := split text.

(** Stand-ins for the regular expressions of the chunker: a text is cut
    at a given character. *)
Fixpoint split_at (sep : ascii) (s cur : string) : list string :=
  match s with
  | EmptyString => [cur]
  | String c s' =>
      if Ascii.eqb c sep
      then cur :: split_at sep s' EmptyString
      else split_at sep s' (cur ++ String c EmptyString)
  end.

Definition demo_add_pronunciation_guides (text : string) : string := text.

Definition demo_split_into_sentences (text : string) : list string :=
  split_at "|" text EmptyString.

Definition demo_pause_split (sentence : string) : list string :=
  split_at "," sentence EmptyString.

(** A chunker with small limits, and a text of four sentences, the third
    of them long. *)
Definition demo_chunker : VoiceOptimizedChunker := mkChunker 4 2 150.

Definition demo_text : string :=
  "the gpu is fast|it is new|one two three,four five six|the end".

(** Four calls for the examples, three of them in one conversation. *)
Definition demo_calls : list Call :=
  [mkCall (float_of_Z 1) "c1" "is XR-500 fast" "yes";
   mkCall (float_of_Z 2) "c2" "hello" "hi";
   mkCall (float_of_Z 3) "c1" "and XR-600" "slower";
   mkCall (float_of_Z 4) "c1" "why" "older XR-500 board"].

(* ================================================================== *)
(** * Part III: proofs                                                 *)
(* ================================================================== *)

(** ** Slices *)

Lemma slice_to_length_le (A : Type) (stop : Z) (l : list A) :
  (0 <= stop)%Z -> (Z.of_nat (List.length (slice_to stop l)) <= stop)%Z.
Proof.
  intros Hstop. unfold slice_to.
  destruct (Z.ltb_spec stop 0) as [Hneg | _]; [lia |].
  pose proof (firstn_le_length (Z.to_nat stop) l). lia.
Qed.

Lemma slice_to_firstn (A : Type) (stop : Z) (l : list A) :
  exists n, slice_to stop l = firstn n l.
Proof.
  unfold slice_to. destruct (stop <? 0)%Z; eexists; reflexivity.
Qed.

Lemma slice_to_map (A B : Type) (f : A -> B) (stop : Z) (l : list A) :
  slice_to stop (map f l) = map f (slice_to stop l).
Proof.
  unfold slice_to. rewrite length_map.
  destruct (stop <? 0)%Z; apply firstn_map.
Qed.

Lemma nth_error_firstn_some (A : Type) (n i : nat) (l : list A) (x : A) :
  nth_error (firstn n l) i = Some x -> nth_error l i = Some x.
Proof.
  revert i l. induction n as [| n IH]; intros i l H.
  - destruct i; discriminate.
  - destruct l as [| a l]; [destruct i; discriminate |].
    destruct i as [| i]; simpl in *; [assumption | now apply IH].
Qed.

Lemma In_firstn (A : Type) (n : nat) (l : list A) (x : A) :
  In x (firstn n l) -> In x l.
Proof.
  revert l. induction n as [| n IH]; intros [| a l] H; simpl in *;
    try contradiction.
  destruct H as [H | H]; [now left | right; now apply IH].
Qed.

Lemma In_slice_to (A : Type) (stop : Z) (l : list A) (x : A) :
  In x (slice_to stop l) -> In x l.
Proof.
  destruct (slice_to_firstn stop l) as [n ->]. apply In_firstn.
Qed.

Lemma app_cons_assoc (A : Type) (l1 : list A) (x : A) (l2 : list A) :
  l1 ++ x :: l2 = (l1 ++ [x]) ++ l2.
Proof. rewrite <- app_assoc. reflexivity. Qed.

(** ** Dictionaries *)

Section Dict_facts.
Variables K V : Type.
Variable eqb : K -> K -> bool.
Hypothesis eqb_spec : forall x y, reflect (x = y) (eqb x y).

Lemma dict_get_set_same (d : dict K V) (k : K) (v dflt : V) :
  dict_get eqb (dict_set eqb d k v) k dflt = v.
Proof.
  induction d as [| [k' v'] d IH]; simpl.
  - destruct (eqb_spec k k); congruence.
  - destruct (eqb_spec k k') as [E | N]; simpl.
    + destruct (eqb_spec k k'); congruence.
    + destruct (eqb_spec k k'); congruence.
Qed.

Lemma dict_get_set_other (d : dict K V) (k k0 : K) (v dflt : V) :
  k0 <> k ->
  dict_get eqb (dict_set eqb d k v) k0 dflt = dict_get eqb d k0 dflt.
Proof.
  intros Hne. induction d as [| [k' v'] d IH]; simpl.
  - destruct (eqb_spec k0 k); congruence.
  - destruct (eqb_spec k k') as [E | N]; simpl.
    + subst k'. destruct (eqb_spec k0 k); congruence.
    + destruct (eqb_spec k0 k'); congruence.
Qed.

Lemma dict_mem_In (d : dict K V) (k : K) :
  dict_mem eqb d k = true <-> In k (dict_keys d).
Proof.
  induction d as [| [k' v'] d IH]; simpl.
  - split; [discriminate | contradiction].
  - destruct (eqb_spec k k') as [E | N].
    + split; auto.
    + rewrite IH. split; [auto | intros [E | H]; congruence].
Qed.

(** A write keeps the keys in place and puts a new key last. *)
Lemma dict_keys_set (d : dict K V) (k : K) (v : V) :
  dict_keys (dict_set eqb d k v) =
  if dict_mem eqb d k then dict_keys d else dict_keys d ++ [k].
Proof.
  unfold dict_keys.
  induction d as [| [k' v'] d IH]; simpl; [reflexivity |].
  destruct (eqb_spec k k') as [E | N]; simpl; [reflexivity |].
  rewrite IH. destruct (dict_mem eqb d k); reflexivity.
Qed.

(** The keys of a dictionary written through [dict_set] only. *)
Lemma dict_mem_keys_ext (W : Type) (d : dict K V) (d' : dict K W) (k : K) :
  dict_keys d = dict_keys d' -> dict_mem eqb d k = dict_mem eqb d' k.
Proof.
  revert d'. induction d as [| [k1 v1] d IH]; intros [| [k2 v2] d'] H;
    simpl in *; try discriminate; [reflexivity |].
  injection H as -> H. destruct (eqb k k2); [reflexivity | now apply IH].
Qed.
End Dict_facts.

(** ** Lists of keys *)

Lemma existsb_eqb_In (ks : list Z) (y : Z) :
  existsb (Z.eqb y) ks = true <-> In y ks.
Proof.
  rewrite existsb_exists. split.
  - intros [x [Hin Heq]]. apply Z.eqb_eq in Heq. now subst.
  - intros Hin. exists y. split; [assumption | apply Z.eqb_refl].
Qed.

Lemma fresh_true (ks : list Z) (y : Z) : fresh ks y = true <-> ~ In y ks.
Proof.
  unfold fresh. rewrite negb_true_iff, <- existsb_eqb_In.
  destruct (existsb (Z.eqb y) ks); split; congruence.
Qed.

Lemma fresh_false (ks : list Z) (y : Z) : fresh ks y = false <-> In y ks.
Proof.
  unfold fresh. rewrite negb_false_iff. apply existsb_eqb_In.
Qed.

Lemma dict_mem_existsb (V : Type) (d : dict Z V) (h : Z) :
  dict_mem Z.eqb d h = existsb (Z.eqb h) (dict_keys d).
Proof.
  induction d as [| [k' v'] d IH]; simpl; [reflexivity |].
  rewrite IH. destruct (h =? k')%Z; reflexivity.
Qed.

Lemma filter_filter_and (A : Type) (f g : A -> bool) (l : list A) :
  filter f (filter g l) = filter (fun x => g x && f x) l.
Proof.
  induction l as [| a l IH]; simpl; [reflexivity |].
  destruct (g a); simpl; [destruct (f a) |]; now rewrite IH.
Qed.

Lemma first_seen_In (l : list Z) (x : Z) : In x (first_seen l) <-> In x l.
Proof.
  induction l as [| a l IH]; simpl; [tauto |].
  rewrite filter_In, IH, negb_true_iff, Z.eqb_neq.
  destruct (Z.eq_dec a x); [subst; tauto |].
  split; [tauto | intros [E | H]; [congruence | right; split; congruence]].
Qed.

Lemma NoDup_filter (A : Type) (f : A -> bool) (l : list A) :
  NoDup l -> NoDup (filter f l).
Proof.
  induction 1 as [| a l Hnin _ IH]; simpl; [constructor |].
  destruct (f a); [constructor |]; auto.
  rewrite filter_In. tauto.
Qed.

Lemma first_seen_NoDup (l : list Z) : NoDup (first_seen l).
Proof.
  induction l as [| a l IH]; simpl; constructor.
  - rewrite filter_In, Z.eqb_refl. simpl. intros [_ H]. discriminate.
  - now apply NoDup_filter.
Qed.

Lemma first_seen_app (l1 l2 : list Z) :
  first_seen (l1 ++ l2) =
  first_seen l1 ++ filter (fresh l1) (first_seen l2).
Proof.
  induction l1 as [| a l1 IH]; simpl.
  - symmetry. apply forallb_filter_id. apply forallb_forall. reflexivity.
  - f_equal. rewrite IH, filter_app, filter_filter_and. f_equal.
    apply filter_ext. intros y. unfold fresh. simpl.
    rewrite negb_orb, andb_comm. reflexivity.
Qed.

Lemma filter_fresh_nil (l : list Z) : filter (fresh []) l = l.
Proof.
  apply forallb_filter_id. apply forallb_forall. reflexivity.
Qed.

Lemma fresh_ext (l1 l2 : list Z) (y : Z) :
  (forall x, In x l1 <-> In x l2) -> fresh l1 y = fresh l2 y.
Proof.
  intros H. destruct (fresh l2 y) eqn:E.
  - apply fresh_true. apply fresh_true in E. now rewrite H.
  - apply fresh_false. apply fresh_false in E. now rewrite H.
Qed.

Lemma first_seen_of_NoDup (l : list Z) : NoDup l -> first_seen l = l.
Proof.
  induction 1 as [| a l Hnin _ IH]; simpl; [reflexivity |].
  rewrite IH. f_equal.
  apply forallb_filter_id. apply forallb_forall. intros y Hy.
  apply negb_true_iff, Z.eqb_neq. congruence.
Qed.

(** ** The accumulation loops of the fusion *)

Section Fusion_facts.
Variable hash : string -> Z.

Lemma score_results_same_keys w k rank l st :
  same_keys st -> same_keys (score_results hash w k rank l st).
Proof.
  revert rank st. induction l as [| [[c s] m] l IH]; intros rank st H;
    simpl; [assumption |].
  apply IH. destruct H as [Hc Hm]. unfold same_keys. simpl.
  rewrite !(dict_keys_set Z.eqb Z.eqb_spec).
  rewrite (dict_mem_keys_ext Z.eqb (content_map st) (scores st) (hash c) Hc).
  rewrite (dict_mem_keys_ext Z.eqb (metadata_map st) (scores st) (hash c) Hm).
  rewrite Hc, Hm. split; reflexivity.
Qed.

(** The keys after a loop: the keys before it, then the new keys in the
    order in which the list first shows them. *)
Lemma score_results_keys w k rank l st :
  dict_keys (scores (score_results hash w k rank l st)) =
  dict_keys (scores st)
  ++ filter (fresh (dict_keys (scores st))) (first_seen (map (tuple_key hash) l)).
Proof.
  revert rank st. induction l as [| [[c s] m] l IH]; intros rank st; simpl.
  - now rewrite app_nil_r.
  - rewrite IH. simpl. rewrite (dict_keys_set Z.eqb Z.eqb_spec), dict_mem_existsb.
    change (tuple_key hash (c, s, m)) with (hash c).
    destruct (existsb (Z.eqb (hash c)) (dict_keys (scores st))) eqn:E.
    + unfold fresh at 2. rewrite E. simpl. f_equal.
      rewrite filter_filter_and. apply filter_ext. intros y.
      destruct (Z.eqb_spec y (hash c)) as [-> | N]; simpl;
        [unfold fresh; now rewrite E | reflexivity].
    + unfold fresh at 2. rewrite E. simpl.
      rewrite <- app_assoc. simpl. do 2 f_equal.
      rewrite filter_filter_and. apply filter_ext. intros y.
      unfold fresh. rewrite existsb_app. simpl.
      rewrite orb_false_r, negb_orb, andb_comm. reflexivity.
Qed.

(** The score under a key after a loop: what it was, plus the
    contribution of every entry of the list with this key. *)
Lemma score_results_score w k rank l st h :
  dict_get Z.eqb (scores (score_results hash w k rank l st)) h 0 =
  dict_get Z.eqb (scores st) h 0 + key_contributions hash w k rank h l.
Proof.
  revert rank st. induction l as [| [[c s] m] l IH]; intros rank st; simpl.
  - ring.
  - rewrite IH. simpl. change (tuple_key hash (c, s, m)) with (hash c).
    destruct (Z.eqb_spec (hash c) h) as [E | N].
    + subst h. rewrite (dict_get_set_same Z.eqb Z.eqb_spec). ring.
    + rewrite (dict_get_set_other Z.eqb Z.eqb_spec) by congruence. ring.
Qed.

Lemma score_results_from_entry w k rank l st seen :
  from_entry hash st seen ->
  from_entry hash (score_results hash w k rank l st) (seen ++ l).
Proof.
  revert rank st seen. induction l as [| [[c s] m] l IH];
    intros rank st seen H; simpl.
  - now rewrite app_nil_r.
  - rewrite app_cons_assoc. apply IH. intros h Hin. simpl in *.
    destruct (Z.eq_dec h (hash c)) as [-> | N].
    + exists (c, s, m). rewrite !(dict_get_set_same Z.eqb Z.eqb_spec).
      repeat split. apply in_or_app. right. now left.
    + rewrite (dict_keys_set Z.eqb Z.eqb_spec) in Hin.
      assert (Hin' : In h (dict_keys (scores st))).
      { destruct (dict_mem Z.eqb (scores st) (hash c)); [assumption |].
        apply in_app_or in Hin. destruct Hin as [Hin | [E | []]];
          [assumption | congruence]. }
      destruct (H h Hin') as [t [Ht [Hk [Hc Hm]]]].
      exists t. rewrite !(dict_get_set_other Z.eqb Z.eqb_spec) by assumption.
      repeat split; try assumption. apply in_or_app. now left.
Qed.

Variable self : HybridSearch.

Lemma rrf_scored_keys v b k :
  dict_keys (scores (rrf_scored hash self v b k)) =
  first_seen (map (tuple_key hash) (v ++ b)).
Proof.
  unfold rrf_scored. rewrite !score_results_keys. simpl.
  rewrite map_app, first_seen_app, filter_fresh_nil. f_equal.
  apply filter_ext. intros y. apply fresh_ext. intros x.
  apply first_seen_In.
Qed.

Lemma rrf_scored_score v b k h :
  dict_get Z.eqb (scores (rrf_scored hash self v b k)) h 0 =
  key_contributions hash (vector_weight self) k 0 h v
  + key_contributions hash (bm25_weight self) k 0 h b.
Proof.
  unfold rrf_scored. rewrite !score_results_score. simpl. ring.
Qed.

Lemma rrf_scored_from_entry v b k :
  from_entry hash (rrf_scored hash self v b k) (v ++ b).
Proof.
  unfold rrf_scored. apply score_results_from_entry.
  change v with ([] ++ v). apply score_results_from_entry.
  intros h [].
Qed.

(** No lookup of [result_of_key] falls on its default. *)
Lemma rrf_scored_same_keys v b k :
  same_keys (rrf_scored hash self v b k).
Proof.
  unfold rrf_scored. do 2 apply score_results_same_keys.
  split; reflexivity.
Qed.
End Fusion_facts.

(** ** The stable descending sort *)

Lemma Qcltb_spec (x y : float) : reflect (x < y) (Qcltb x y).
Proof.
  unfold Qcltb. destruct (x ?= y) eqn:E; constructor.
  - apply Qceq_alt in E. subst. apply Qcle_not_lt, Qcle_refl.
  - now apply Qclt_alt.
  - apply Qcgt_alt in E. apply Qcle_not_lt, Qclt_le_weak. exact E.
Qed.

Lemma before_cons (A : Type) (a x y : A) (l : list A) :
  before l x y -> before (a :: l) x y.
Proof.
  intros [l1 [l2 [l3 ->]]]. exists (a :: l1), l2, l3. reflexivity.
Qed.

Lemma before_head (A : Type) (a y : A) (l : list A) :
  In y l -> before (a :: l) a y.
Proof.
  intros H. apply in_split in H. destruct H as [l2 [l3 ->]].
  exists [], l2, l3. reflexivity.
Qed.

Lemma ForallOrdPairs_nth (A : Type) (R : A -> A -> Prop) (l : list A) :
  ForallOrdPairs R l ->
  forall i j x y, (i < j)%nat ->
    nth_error l i = Some x -> nth_error l j = Some y -> R x y.
Proof.
  induction 1 as [| a l Ha _ IH]; intros i j x y Hij Hi Hj.
  - destruct i; discriminate.
  - destruct j as [| j]; [lia |]. simpl in Hj. destruct i as [| i].
    + injection Hi as <-. rewrite Forall_forall in Ha.
      apply Ha. eapply nth_error_In. eassumption.
    + simpl in Hi. apply (IH i j); [lia | assumption ..].
Qed.

Lemma ForallOrdPairs_impl (A : Type) (R R' : A -> A -> Prop) (l : list A) :
  (forall x y, R x y -> R' x y) ->
  ForallOrdPairs R l -> ForallOrdPairs R' l.
Proof.
  intros HR. induction 1 as [| a l Ha _ IH]; constructor; [| assumption].
  eapply Forall_impl; [| eassumption]. intros y. apply HR.
Qed.

Section Sorted_facts.
Variable A : Type.
Variable key : A -> float.

Lemma insert_desc_In (x y : A) (l : list A) :
  In y (insert_desc key x l) <-> y = x \/ In y l.
Proof.
  induction l as [| a l IH]; simpl.
  - intuition.
  - destruct (Qcltb (key x) (key a)); simpl; rewrite ?IH; intuition.
Qed.

Lemma insert_desc_perm (x : A) (l : list A) :
  Permutation (insert_desc key x l) (x :: l).
Proof.
  induction l as [| a l IH]; simpl; [apply Permutation_refl |].
  destruct (Qcltb (key x) (key a)); [| apply Permutation_refl].
  eapply perm_trans; [apply perm_skip, IH | apply perm_swap].
Qed.

Lemma sorted_desc_perm (l : list A) : Permutation (sorted_desc key l) l.
Proof.
  induction l as [| a l IH]; simpl; [constructor |].
  eapply perm_trans; [apply insert_desc_perm | now apply perm_skip].
Qed.

Lemma sorted_desc_In (l : list A) (x : A) :
  In x (sorted_desc key l) <-> In x l.
Proof.
  split; apply Permutation_in;
    [| apply Permutation_sym]; apply sorted_desc_perm.
Qed.

Lemma placed_cons (a : A) (l : list A) (x y : A) :
  placed key l x y -> placed key (a :: l) x y.
Proof.
  intros [H | [H1 H2]]; [now left | right].
  split; [assumption | now apply before_cons].
Qed.

Lemma placed_le (l : list A) (x y : A) : placed key l x y -> key y <= key x.
Proof.
  intros [H | [H _]]; [now apply Qclt_le_weak | rewrite H; apply Qcle_refl].
Qed.

Lemma insert_desc_placed (a : A) (l s : list A) :
  (forall y, In y s -> In y l) ->
  ForallOrdPairs (placed key (a :: l)) s ->
  ForallOrdPairs (placed key (a :: l)) (insert_desc key a s).
Proof.
  intros Hin. induction 1 as [| y t Hy Ht IH]; simpl.
  - constructor; constructor.
  - destruct (Qcltb_spec (key a) (key y)) as [Hlt | Hge].
    + constructor.
      * apply Forall_forall. intros z Hz. apply insert_desc_In in Hz.
        destruct Hz as [-> | Hz]; [now left |].
        rewrite Forall_forall in Hy. now apply Hy.
      * apply IH. intros z Hz. apply Hin. now right.
    + apply Qcnot_lt_le in Hge.
      assert (Hhead : forall z, In z (y :: t) -> key z <= key a).
      { intros z [<- | Hz]; [assumption |].
        rewrite Forall_forall in Hy.
        eapply Qcle_trans; [eapply placed_le; apply Hy, Hz | assumption]. }
      constructor; [| constructor; assumption].
      apply Forall_forall. intros z Hz.
      destruct (Qcle_lt_or_eq _ _ (Hhead z Hz)) as [Hlt | Heq];
        [now left | right].
      split; [now symmetry | apply before_head, Hin, Hz].
Qed.

Lemma sorted_desc_placed (l : list A) :
  ForallOrdPairs (placed key l) (sorted_desc key l).
Proof.
  induction l as [| a l IH]; simpl; [constructor |].
  apply insert_desc_placed.
  - intros y. apply sorted_desc_In.
  - eapply ForallOrdPairs_impl; [| exact IH].
    intros x y. apply placed_cons.
Qed.

(** A list already in descending order is left as it is. *)
Lemma sorted_desc_id (l : list A) :
  ForallOrdPairs (fun x y => key y <= key x) l -> sorted_desc key l = l.
Proof.
  induction 1 as [| a l Ha _ IH]; simpl; [reflexivity |].
  rewrite IH. destruct l as [| y t]; simpl; [reflexivity |].
  destruct (Qcltb_spec (key a) (key y)) as [Hlt | _]; [| reflexivity].
  exfalso. apply (Qclt_not_le _ _ Hlt).
  rewrite Forall_forall in Ha. apply Ha. now left.
Qed.
End Sorted_facts.

(** ** The fused list *)

Section Fusion_output.
Variable hash : string -> Z.
Variable self : HybridSearch.

(** Every fused entry is the entry of one key of the score table. *)
Lemma fusion_In v b top_k k r :
  In r (_reciprocal_rank_fusion hash self v b top_k k) ->
  exists h,
    In h (first_seen (map (tuple_key hash) (v ++ b))) /\
    r = result_of_key (rrf_scored hash self v b k) h.
Proof.
  unfold _reciprocal_rank_fusion. intros H.
  apply in_map_iff in H. destruct H as [h [<- Hh]].
  exists h. split; [| reflexivity].
  apply In_slice_to in Hh. unfold sorted_keys in Hh.
  apply sorted_desc_In in Hh. now rewrite rrf_scored_keys in Hh.
Qed.

(** The key of a fused entry is the key it was built for. *)
Lemma result_of_key_key v b k h :
  In h (first_seen (map (tuple_key hash) (v ++ b))) ->
  result_key hash (result_of_key (rrf_scored hash self v b k) h) = h.
Proof.
  intros Hh. rewrite <- (rrf_scored_keys hash self v b k) in Hh.
  destruct (rrf_scored_from_entry hash self v b k h Hh)
    as [t [_ [Hk [Hc _]]]].
  unfold result_key, result_of_key. simpl. rewrite Hc. exact Hk.
Qed.

Lemma fusion_length_le v b top_k k :
  (0 <= top_k)%Z ->
  (Z.of_nat (List.length (_reciprocal_rank_fusion hash self v b top_k k))
   <= top_k)%Z.
Proof.
  intros H. unfold _reciprocal_rank_fusion. rewrite length_map.
  now apply slice_to_length_le.
Qed.

Lemma score_results_strip w k rank l l' st :
  map strip l = map strip l' ->
  score_results hash w k rank l st = score_results hash w k rank l' st.
Proof.
  revert rank l' st.
  induction l as [| [[c s] m] l IH]; intros rank [| [[c' s'] m'] l'] st H;
    simpl in *; try discriminate; [reflexivity |].
  unfold strip, tuple_content, tuple_metadata in H. simpl in H.
  injection H as Hc Hm H. subst c' m'. now apply IH.
Qed.
End Fusion_output.

Section Search_facts.
Variable hash : string -> Z.
Variable log : float -> float.
Variable argsort : list float -> list nat.
Variable collection_query : string -> Z -> result QueryResult.
Variable collection_get : result GetResult.

(** When both tasks return, [search] returns the fusion of what they
    returned. *)
Lemma search_returns self query top_k v b :
  _vector_search collection_query query top_k = Ok v ->
  snd (_bm25_search log argsort collection_get self query top_k) = Ok b ->
  snd (search hash log argsort collection_query collection_get
         self query top_k)
  = Ok (_reciprocal_rank_fusion hash
          (fst (_bm25_search log argsort collection_get self query top_k))
          v b top_k RRF_K).
Proof.
  intros Hv Hb. unfold search. rewrite Hv.
  destruct (_bm25_search log argsort collection_get self query top_k)
    as [self' r]. simpl in *. now rewrite Hb.
Qed.

(** What [search] returns is always a fusion. *)
Lemma search_Ok_inv self query top_k results :
  snd (search hash log argsort collection_query collection_get
         self query top_k) = Ok results ->
  exists self' v b,
    _vector_search collection_query query top_k = Ok v /\
    _bm25_search log argsort collection_get self query top_k
    = (self', Ok b) /\
    results = _reciprocal_rank_fusion hash self' v b top_k RRF_K.
Proof.
  unfold search.
  destruct (_bm25_search log argsort collection_get self query top_k)
    as [self' rb].
  destruct (_vector_search collection_query query top_k) as [v | e];
    simpl; [| discriminate].
  destruct rb as [b | e]; simpl; [| discriminate].
  intros H. injection H as <-. exists self', v, b. repeat split.
Qed.
End Search_facts.

(** C7. For every query and every [top_k >= 0], the sequence returned by
    [search] has at most [top_k] entries; so has the list built by
    [_reciprocal_rank_fusion], for any two ranking lists. *)
Theorem search_length_le_top_k
        (hash : string -> Z) (log : float -> float)
        (argsort : list float -> list nat)
        (collection_query : string -> Z -> result QueryResult)
        (collection_get : result GetResult)
        (self : HybridSearch) (query : string) (top_k : Z) :
  (0 <= top_k)%Z ->
  (forall v b k,
      (Z.of_nat (List.length (_reciprocal_rank_fusion hash self v b top_k k))
       <= top_k)%Z) /\
  (forall results,
      snd (search hash log argsort collection_query collection_get
             self query top_k) = Ok results ->
      (Z.of_nat (List.length results) <= top_k)%Z).
Proof.
  intros Htop. split.
  - intros v b k. now apply fusion_length_le.
  - intros results H. apply search_Ok_inv in H.
    destruct H as [self' [v [b [_ [_ ->]]]]]. now apply fusion_length_le.
Qed.

Lemma search_length_le_top_k_witness :
  (forall v b k,
      (Z.of_nat (List.length
         (_reciprocal_rank_fusion code_hash HybridSearch_init v b 2 k))
       <= 2)%Z) /\
  (forall results,
      snd (demo_search HybridSearch_init "fast gpu" 2) = Ok results ->
      (Z.of_nat (List.length results) <= 2)%Z).
Proof.
  apply (@search_length_le_top_k code_hash demo_log demo_argsort
           demo_collection_query demo_collection_get
           HybridSearch_init "fast gpu" 2%Z).
  lia.
Defined.

(** C10. The fusion reads the rank positions only: two pairs of ranking
    lists that agree entry by entry on content and metadata, whatever
    their raw scores, are fused into the same list. *)
Theorem fusion_ignores_raw_scores
        (hash : string -> Z) (self : HybridSearch)
        (v v' b b' : list ResultTuple) (top_k : Z) (k : nat) :
  map strip v = map strip v' ->
  map strip b = map strip b' ->
  _reciprocal_rank_fusion hash self v b top_k k
  = _reciprocal_rank_fusion hash self v' b' top_k k.
Proof.
  intros Hv Hb. unfold _reciprocal_rank_fusion, rrf_scored.
  rewrite (score_results_strip hash _ _ _ v v' _ Hv).
  rewrite (score_results_strip hash _ _ _ b b' _ Hb).
  reflexivity.
Qed.

Lemma fusion_ignores_raw_scores_witness :
  _reciprocal_rank_fusion code_hash HybridSearch_init
    [entry "a" (Q2Qc (9 # 10)) (meta_page "1"); entry "b" (Q2Qc (1 # 2)) []]
    [entry "b" (Q2Qc 7) []] 5 RRF_K
  = _reciprocal_rank_fusion code_hash HybridSearch_init
      [entry "a" (Q2Qc (1 # 3)) (meta_page "1"); entry "b" (Q2Qc (-2)) []]
      [entry "b" 0 []] 5 RRF_K.
Proof.
  apply (@fusion_ignores_raw_scores code_hash HybridSearch_init
           [entry "a" (Q2Qc (9 # 10)) (meta_page "1");
            entry "b" (Q2Qc (1 # 2)) []]
           [entry "a" (Q2Qc (1 # 3)) (meta_page "1");
            entry "b" (Q2Qc (-2)) []]
           [entry "b" (Q2Qc 7) []] [entry "b" 0 []] 5%Z RRF_K);
    reflexivity.
Defined.

(** ** The fused score *)

Lemma rank_of_None_notin d l :
  rank_of d l = None -> ~ In d (contents l).
Proof.
  induction l as [| t l IH]; simpl; [tauto |].
  destruct (String.eqb_spec (tuple_content t) d) as [E | N];
    [discriminate |].
  destruct (rank_of d l); simpl; [discriminate |].
  intros _ [E | H]; [congruence | now apply IH].
Qed.

Lemma rank_of_notin d l : ~ In d (contents l) -> rank_of d l = None.
Proof.
  induction l as [| t l IH]; simpl; [reflexivity |]. intros H.
  destruct (String.eqb_spec (tuple_content t) d) as [E | N]; [tauto |].
  rewrite IH; [reflexivity | tauto].
Qed.

Lemma rank_of_In d l :
  In d (contents l) -> exists r, rank_of d l = Some r.
Proof.
  intros H. destruct (rank_of d l) as [r |] eqn:E; [now exists r |].
  exfalso. now apply (rank_of_None_notin d l).
Qed.

Section Score_formula.
Variable hash : string -> Z.

Lemma key_contributions_none w k rank h l :
  (forall t, In t l -> tuple_key hash t <> h) ->
  key_contributions hash w k rank h l = 0.
Proof.
  revert rank. induction l as [| t l IH]; intros rank H; simpl;
    [reflexivity |].
  destruct (Z.eqb_spec (tuple_key hash t) h) as [E | _].
  - exfalso. apply (H t); [now left | assumption].
  - rewrite IH; [ring |]. intros t' Ht'. apply H. now right.
Qed.

Lemma collision_free_incl L L' :
  incl L' L -> collision_free hash L -> collision_free hash L'.
Proof.
  intros Hincl H c c' Hc Hc'. apply H; now apply Hincl.
Qed.

(** In a list with pairwise distinct contents, and without a collision
    with the content [c], the only entry accumulated under [hash c] is
    the one with content [c]. *)
Lemma key_contributions_unique w k rank c l :
  NoDup (contents l) ->
  collision_free hash (c :: contents l) ->
  key_contributions hash w k rank (hash c) l =
  match rank_of c l with
  | Some r => w * (1 / float_of_nat (k + (rank + r) + 1))
  | None => 0
  end.
Proof.
  revert rank. induction l as [| t l IH]; intros rank Hnd Hcf; simpl;
    [reflexivity |].
  simpl in Hnd. inversion Hnd as [| ? ? Hnin Hnd']; subst.
  assert (Hcf' : collision_free hash (c :: contents l)).
  { eapply collision_free_incl; [| exact Hcf].
    intros x [<- | Hx]; [now left | right; now right]. }
  destruct (String.eqb_spec (tuple_content t) c) as [E | N].
  - unfold tuple_key. rewrite E, Z.eqb_refl, Nat.add_0_r.
    rewrite key_contributions_none; [ring |].
    intros t' Ht' Hk. apply Hnin. rewrite E.
    replace c with (tuple_content t'); [now apply in_map |].
    apply Hcf; [right; right; now apply in_map | now left | exact Hk].
  - destruct (Z.eqb_spec (tuple_key hash t) (hash c)) as [Hk | _].
    + exfalso. apply N. apply Hcf; [right; now left | now left | exact Hk].
    + rewrite (IH (S rank) Hnd' Hcf').
      destruct (rank_of c l) as [r |]; cbn [option_map]; [| ring].
      replace (rank + S r)%nat with (S rank + r)%nat by lia. ring.
Qed.
End Score_formula.

(** [code_hash] has no collision at all. *)
Lemma code_hash_pos (s : string) : (1 <= code_hash s)%Z.
Proof.
  induction s as [| c s IH]; cbn [code_hash]; lia.
Qed.

Lemma code_hash_inj (s s' : string) : code_hash s = code_hash s' -> s = s'.
Proof.
  revert s'. induction s as [| c s IH]; intros [| c' s'] H;
    cbn [code_hash] in H.
  - reflexivity.
  - pose proof (code_hash_pos s'). lia.
  - pose proof (code_hash_pos s). lia.
  - pose proof (nat_ascii_bounded c). pose proof (nat_ascii_bounded c').
    assert (Hc : nat_of_ascii c = nat_of_ascii c') by lia.
    assert (Hs : code_hash s = code_hash s') by lia.
    f_equal; [| now apply IH].
    rewrite <- (ascii_nat_embedding c), <- (ascii_nat_embedding c').
    now rewrite Hc.
Qed.

Lemma code_hash_collision_free (L : list string) : collision_free code_hash L.
Proof.
  intros c c' _ _. apply code_hash_inj.
Qed.

Section Score_theorem.
Variable hash : string -> Z.
Variable self : HybridSearch.

(** The key, the content and the score of a fused entry. *)
Lemma fusion_entry v b top_k k r :
  In r (_reciprocal_rank_fusion hash self v b top_k k) ->
  In (content r) (contents (v ++ b)) /\
  In (result_key hash r) (first_seen (map (tuple_key hash) (v ++ b))) /\
  score r =
  key_contributions hash (vector_weight self) k 0 (result_key hash r) v
  + key_contributions hash (bm25_weight self) k 0 (result_key hash r) b.
Proof.
  intros H. apply fusion_In in H. destruct H as [h [Hh ->]].
  rewrite result_of_key_key by assumption.
  split; [| split; [assumption |]].
  - rewrite <- (rrf_scored_keys hash self v b k) in Hh.
    destruct (rrf_scored_from_entry hash self v b k h Hh)
      as [t [Ht [_ [Hc _]]]].
    unfold result_of_key. simpl. rewrite Hc. now apply in_map.
  - unfold result_of_key. simpl. apply rrf_scored_score.
Qed.
End Score_theorem.

Ltac nodup_strings := repeat constructor; simpl; intuition discriminate.

(** C1, the claim as stated, fails: when the chunks of pages 1 and 2 have
    the same text, the fused score of that text is the sum of the
    contributions of rank 0 and rank 1 of the vector list, 0.7/61 + 0.7/62,
    and not the contribution of its rank alone. *)
Lemma fused_score_formula_fails_on_repeated_content :
  ~ (forall r,
        In r (_reciprocal_rank_fusion code_hash HybridSearch_init
                repeated_vector [] 10 RRF_K) ->
        score r
        = rrf_formula default_vector_weight default_bm25_weight RRF_K
            repeated_vector [] (content r)).
Proof.
  intros H.
  specialize (H _ (or_introl eq_refl)).
  apply (f_equal (fun x : Qc => this x)) in H.
  vm_compute in H. discriminate H.
Qed.

Example fusion_of_repeated_content :
  map (fun r => (content r, result_metadata r, this (score r)))
      (_reciprocal_rank_fusion code_hash HybridSearch_init
         repeated_vector [] 10 RRF_K)
  = [("a"%string, meta_page "2", (861 # 37820)%Q)].
Proof. vm_compute. reflexivity. Qed.

(** ** The order of the fused list *)

Lemma key_rank_index_of (hash : string -> Z) (h : Z) (l : list ResultTuple) :
  key_rank hash h l = index_of h (map (tuple_key hash) l).
Proof.
  induction l as [| t l IH]; simpl; [reflexivity |].
  now rewrite IH.
Qed.

Lemma index_of_In (x : Z) (l : list Z) :
  In x l -> exists i, index_of x l = Some i.
Proof.
  induction l as [| a l IH]; simpl; [contradiction |]. intros H.
  destruct (Z.eqb_spec a x) as [E | N]; [now exists O |].
  destruct IH as [i Hi]; [destruct H; [contradiction | assumption] |].
  exists (S i). now rewrite Hi.
Qed.

Lemma index_of_lt (x : Z) (l : list Z) (i : nat) :
  index_of x l = Some i -> (i < List.length l)%nat.
Proof.
  revert i. induction l as [| a l IH]; simpl; intros i H; [discriminate |].
  destruct (a =? x)%Z.
  - injection H as <-. lia.
  - destruct (index_of x l) as [i' |]; [| discriminate].
    injection H as <-. specialize (IH i' eq_refl). lia.
Qed.

Lemma index_of_app (x : Z) (l1 l2 : list Z) :
  index_of x (l1 ++ l2) =
  match index_of x l1 with
  | Some i => Some i
  | None => option_map (fun j => (List.length l1 + j)%nat) (index_of x l2)
  end.
Proof.
  induction l1 as [| a l1 IH]; simpl.
  - destruct (index_of x l2); reflexivity.
  - destruct (a =? x)%Z; [reflexivity |]. rewrite IH.
    destruct (index_of x l1); [reflexivity |].
    destruct (index_of x l2); reflexivity.
Qed.

Lemma before_In (A : Type) (l : list A) (x y : A) :
  before l x y -> In x l /\ In y l.
Proof.
  intros [l1 [l2 [l3 ->]]]. split; apply in_or_app; right.
  - now left.
  - right. apply in_or_app. right. now left.
Qed.

Lemma before_cons_inv (A : Type) (a x y : A) (l : list A) :
  before (a :: l) x y -> (x = a /\ In y l) \/ before l x y.
Proof.
  intros [[| a' l1] [l2 [l3 H]]]; simpl in H; injection H as -> ->.
  - left. split; [reflexivity |]. apply in_or_app. right. now left.
  - right. exists l1, l2, l3. reflexivity.
Qed.

Lemma before_filter (A : Type) (f : A -> bool) (l : list A) (x y : A) :
  before (filter f l) x y -> before l x y.
Proof.
  induction l as [| a l IH]; simpl; intros H.
  - destruct H as [[| ? ?] [? [? H]]]; discriminate.
  - destruct (f a).
    + apply before_cons_inv in H. destruct H as [[-> Hy] | H].
      * apply before_head. apply filter_In in Hy. tauto.
      * apply before_cons. now apply IH.
    + apply before_cons. now apply IH.
Qed.

(** In the list of first occurrences, a key stands before another when
    its first occurrence does. *)
Lemma before_first_seen (l : list Z) (x y : Z) :
  before (first_seen l) x y ->
  exists i j, index_of x l = Some i /\ index_of y l = Some j /\ (i < j)%nat.
Proof.
  induction l as [| a l IH]; simpl; intros H.
  - destruct H as [[| ? ?] [? [? H]]]; discriminate.
  - apply before_cons_inv in H. destruct H as [[-> Hy] | H].
    + apply filter_In in Hy. destruct Hy as [Hy Hne].
      apply negb_true_iff, Z.eqb_neq in Hne.
      apply (proj1 (first_seen_In l y)) in Hy.
      destruct (index_of_In y l Hy) as [j Hj].
      exists O, (S j). rewrite Z.eqb_refl, Hj.
      destruct (Z.eqb_spec a y); [congruence |].
      repeat split. lia.
    + destruct (before_In H) as [Hx Hy].
      apply filter_In in Hx. apply filter_In in Hy.
      destruct Hx as [_ Hx]. destruct Hy as [_ Hy].
      apply negb_true_iff, Z.eqb_neq in Hx.
      apply negb_true_iff, Z.eqb_neq in Hy.
      apply before_filter in H.
      destruct (IH H) as [i [j [Hi [Hj Hij]]]].
      exists (S i), (S j). rewrite Hi, Hj.
      destruct (Z.eqb_spec a x); [congruence |].
      destruct (Z.eqb_spec a y); [congruence |].
      repeat split. lia.
Qed.

(** The first occurrences in the two lists, one after the other, follow
    the order of origin. *)
Lemma before_first_seen_origin (hash : string -> Z)
      (v b : list ResultTuple) (x y : Z) :
  before (first_seen (map (tuple_key hash) (v ++ b))) x y ->
  exists ox oy,
    origin hash v b x = Some ox /\ origin hash v b y = Some oy /\
    origin_lt ox oy.
Proof.
  intros H. apply before_first_seen in H.
  destruct H as [i [j [Hi [Hj Hij]]]].
  rewrite map_app, index_of_app in Hi, Hj.
  unfold origin. rewrite !key_rank_index_of.
  destruct (index_of x (map (tuple_key hash) v)) as [iv |] eqn:Exv;
    destruct (index_of y (map (tuple_key hash) v)) as [jv |] eqn:Eyv.
  - injection Hi as <-. injection Hj as <-.
    exists (FromVector, iv), (FromVector, jv). repeat split. exact Hij.
  - destruct (index_of y (map (tuple_key hash) b)) as [jb |];
      [| discriminate].
    exists (FromVector, iv), (FromLexical, jb). repeat split.
  - destruct (index_of x (map (tuple_key hash) b)) as [ib |];
      [| discriminate].
    simpl in Hi. injection Hi as <-. injection Hj as <-.
    apply index_of_lt in Eyv. lia.
  - destruct (index_of x (map (tuple_key hash) b)) as [ib |];
      [| discriminate].
    destruct (index_of y (map (tuple_key hash) b)) as [jb |];
      [| discriminate].
    simpl in Hi, Hj. injection Hi as <-. injection Hj as <-.
    exists (FromLexical, ib), (FromLexical, jb). repeat split.
    unfold origin_lt. simpl. lia.
Qed.

Lemma nth_error_map_inv (A B : Type) (f : A -> B) (l : list A)
      (i : nat) (y : B) :
  nth_error (map f l) i = Some y ->
  exists x, nth_error l i = Some x /\ y = f x.
Proof.
  revert i. induction l as [| a l IH]; intros [| i] H; simpl in H;
    try discriminate.
  - injection H as <-. now exists a.
  - now apply IH.
Qed.

(** The keys of the fused list are a prefix of the sorted keys. *)
Lemma fusion_nth (hash : string -> Z) (self : HybridSearch)
      (v b : list ResultTuple) (top_k : Z) (k i : nat) (r : SearchResult) :
  nth_error (_reciprocal_rank_fusion hash self v b top_k k) i = Some r ->
  exists h,
    nth_error (sorted_keys (rrf_scored hash self v b k)) i = Some h /\
    r = result_of_key (rrf_scored hash self v b k) h.
Proof.
  unfold _reciprocal_rank_fusion. intros H.
  apply nth_error_map_inv in H. destruct H as [h [Hh ->]].
  exists h. split; [| reflexivity].
  destruct (slice_to_firstn top_k (sorted_keys (rrf_scored hash self v b k)))
    as [n E].
  rewrite E in Hh. now apply nth_error_firstn_some in Hh.
Qed.

(** C5. The fused list is in descending order of the fused score, and of
    two documents with the same fused score the first is the one whose
    list of origin comes first (vector before lexical) or, within one
    list, whose rank there is lower. *)
Theorem fused_order
        (hash : string -> Z) (self : HybridSearch)
        (v b : list ResultTuple) (top_k : Z) (k : nat)
        (i j : nat) (ri rj : SearchResult) :
  (i < j)%nat ->
  nth_error (_reciprocal_rank_fusion hash self v b top_k k) i = Some ri ->
  nth_error (_reciprocal_rank_fusion hash self v b top_k k) j = Some rj ->
  score rj <= score ri /\
  (score ri = score rj ->
   exists oi oj,
     origin hash v b (result_key hash ri) = Some oi /\
     origin hash v b (result_key hash rj) = Some oj /\
     origin_lt oi oj).
Proof.
  intros Hij Hi Hj.
  apply fusion_nth in Hi. destruct Hi as [hi [Hi ->]].
  apply fusion_nth in Hj. destruct Hj as [hj [Hj ->]].
  set (st := rrf_scored hash self v b k) in *.
  pose proof (sorted_desc_placed
                (fun x => dict_get Z.eqb (scores st) x 0)
                (dict_keys (scores st))) as Hsorted.
  pose proof (ForallOrdPairs_nth Hsorted Hij Hi Hj) as Hplaced.
  split; [exact (placed_le Hplaced) |].
  simpl. intros Heq.
  destruct Hplaced as [Hlt | [_ Hbefore]].
  - exfalso. apply (Qclt_not_eq _ _ Hlt). now symmetry.
  - unfold st in Hbefore. rewrite rrf_scored_keys in Hbefore.
    destruct (before_In Hbefore) as [Hini Hinj].
    unfold st. rewrite !result_of_key_key by assumption.
    now apply before_first_seen_origin.
Qed.

Lemma fused_order_witness :
  exists ri rj,
    nth_error (_reciprocal_rank_fusion code_hash even_engine
                 tie_vector tie_lexical 10 RRF_K) 0 = Some ri /\
    nth_error (_reciprocal_rank_fusion code_hash even_engine
                 tie_vector tie_lexical 10 RRF_K) 1 = Some rj /\
    content ri = "a"%string /\ content rj = "b"%string /\
    this (score ri) = (1 # 122)%Q /\ this (score rj) = (1 # 122)%Q /\
    score rj <= score ri /\
    (score ri = score rj ->
     exists oi oj,
       origin code_hash tie_vector tie_lexical (result_key code_hash ri)
       = Some oi /\
       origin code_hash tie_vector tie_lexical (result_key code_hash rj)
       = Some oj /\
       origin_lt oi oj).
Proof.
  eexists. eexists.
  split; [vm_compute; reflexivity |].
  split; [vm_compute; reflexivity |].
  split; [reflexivity |]. split; [reflexivity |].
  split; [reflexivity |]. split; [reflexivity |].
  apply (@fused_order code_hash even_engine tie_vector tie_lexical
           10%Z RRF_K 0%nat 1%nat); [lia | vm_compute; reflexivity ..].
Defined.

(** ** Vector weight 1, lexical weight 0 *)

Lemma float_of_nat_le (a b : nat) :
  (a <= b)%nat -> float_of_nat a <= float_of_nat b.
Proof.
  intros H. unfold Qcle, float_of_nat, float_of_Z, Q2Qc. cbn [this].
  rewrite !Qred_correct, <- Zle_Qle. lia.
Qed.

Lemma float_of_nat_pos (a : nat) : (0 < a)%nat -> 0 < float_of_nat a.
Proof.
  intros H. unfold Qclt, float_of_nat, float_of_Z, Q2Qc. cbn [this].
  rewrite !Qred_correct. change 0%Q with (inject_Z 0).
  rewrite <- Zlt_Qlt. lia.
Qed.

Lemma float_of_nat_neq_0 (a : nat) : (0 < a)%nat -> float_of_nat a <> 0.
Proof.
  intros H E. apply float_of_nat_pos in H. rewrite E in H.
  exact (Qcle_not_lt _ _ (Qcle_refl 0) H).
Qed.

Lemma reciprocal_nonneg (a : nat) : (0 < a)%nat -> 0 <= 1 / float_of_nat a.
Proof.
  intros H.
  apply (Qcmult_lt_0_le_reg_r _ _ (float_of_nat a) (float_of_nat_pos H)).
  pose proof (float_of_nat_neq_0 H) as Hne.
  replace (1 / float_of_nat a * float_of_nat a) with (1 : Qc)
    by (field; exact Hne).
  replace (0 * float_of_nat a) with (0 : Qc) by ring.
  unfold Qcle. simpl. discriminate.
Qed.

(** The reciprocal rank goes down as the rank goes up. *)
Lemma reciprocal_le (a b : nat) :
  (0 < a)%nat -> (a <= b)%nat -> 1 / float_of_nat b <= 1 / float_of_nat a.
Proof.
  intros Ha Hab.
  assert (Hb : (0 < b)%nat) by lia.
  pose proof (float_of_nat_neq_0 Ha) as Hna.
  pose proof (float_of_nat_neq_0 Hb) as Hnb.
  assert (Hpos : 0 < float_of_nat a * float_of_nat b).
  { replace (0 : Qc) with (0 * float_of_nat b) by ring.
    apply Qcmult_lt_compat_r; now apply float_of_nat_pos. }
  apply (Qcmult_lt_0_le_reg_r _ _ _ Hpos).
  replace (1 / float_of_nat b * (float_of_nat a * float_of_nat b))
    with (float_of_nat a) by (field; exact Hnb).
  replace (1 / float_of_nat a * (float_of_nat a * float_of_nat b))
    with (float_of_nat b) by (field; exact Hna).
  now apply float_of_nat_le.
Qed.

Lemma ForallOrdPairs_all (A : Type) (R : A -> A -> Prop) (l : list A) :
  (forall x y, In x l -> In y l -> R x y) -> ForallOrdPairs R l.
Proof.
  induction l as [| a l IH]; intros H; constructor.
  - apply Forall_forall. intros y Hy. apply H; [now left | now right].
  - apply IH. intros x y Hx Hy. apply H; now right.
Qed.

Lemma ForallOrdPairs_ext_in (A : Type) (R R' : A -> A -> Prop) (l : list A) :
  (forall x y, In x l -> In y l -> R x y -> R' x y) ->
  ForallOrdPairs R l -> ForallOrdPairs R' l.
Proof.
  intros HR H. induction H as [| a l Ha Hl IH]; constructor.
  - rewrite Forall_forall in *. intros y Hy.
    apply HR; [now left | now right | now apply Ha].
  - apply IH. intros x y Hx Hy. apply HR; now right.
Qed.

Lemma NoDup_keys (hash : string -> Z) (l : list ResultTuple) :
  NoDup (contents l) -> collision_free hash (contents l) ->
  NoDup (map (tuple_key hash) l).
Proof.
  induction l as [| t l IH]; simpl; intros Hnd Hcf; [constructor |].
  inversion Hnd as [| ? ? Hnin Hnd']; subst. constructor.
  - intros Hin. apply in_map_iff in Hin. destruct Hin as [t' [Hk Ht']].
    apply Hnin. replace (tuple_content t) with (tuple_content t').
    + now apply in_map.
    + apply Hcf; [right; now apply in_map | now left | exact Hk].
  - apply IH; [assumption |]. intros c c' Hc Hc'. apply Hcf; now right.
Qed.

Section Rank_scores.
Variable hash : string -> Z.
Variable k : nat.

Lemma key_contributions_zero_weight rank h l :
  key_contributions hash 0 k rank h l = 0.
Proof.
  revert rank. induction l as [| t l IH]; intros rank; simpl;
    [reflexivity |].
  rewrite IH. destruct (tuple_key hash t =? h)%Z; ring.
Qed.

Lemma key_contributions_index w rank h l :
  NoDup (map (tuple_key hash) l) ->
  key_contributions hash w k rank h l
  = rank_score k w rank (map (tuple_key hash) l) h.
Proof.
  unfold rank_score. revert rank.
  induction l as [| t l IH]; intros rank Hnd; simpl; [reflexivity |].
  inversion Hnd as [| ? ? Hnin Hnd']; subst.
  destruct (Z.eqb_spec (tuple_key hash t) h) as [E | N].
  - rewrite Nat.add_0_r, key_contributions_none; [ring |].
    intros t' Ht' Hk. apply Hnin. rewrite E, <- Hk. now apply in_map.
  - rewrite (IH (S rank) Hnd').
    destruct (index_of h (map (tuple_key hash) l)) as [i |];
      cbn [option_map]; [| ring].
    replace (rank + S i)%nat with (S rank + i)%nat by lia. ring.
Qed.

Lemma rank_score_cons_other rank a keys x :
  x <> a ->
  rank_score k 1 rank (a :: keys) x = rank_score k 1 (S rank) keys x.
Proof.
  intros Hne. unfold rank_score. simpl.
  destruct (Z.eqb_spec a x) as [E | _]; [congruence |].
  destruct (index_of x keys) as [i |]; cbn [option_map]; [| reflexivity].
  replace (rank + S i)%nat with (S rank + i)%nat by lia. reflexivity.
Qed.

Lemma rank_score_le_head rank a keys y :
  rank_score k 1 rank (a :: keys) y <= rank_score k 1 rank (a :: keys) a.
Proof.
  unfold rank_score. simpl. rewrite Z.eqb_refl.
  destruct (a =? y)%Z; [apply Qcle_refl |].
  rewrite !Qcmult_1_l.
  destruct (index_of y keys) as [i |]; cbn [option_map].
  - rewrite Qcmult_1_l. apply reciprocal_le; lia.
  - apply reciprocal_nonneg. lia.
Qed.

(** Distinct keys in rank order, then keys with no rank: the scores go
    down along the list. *)
Lemma rank_score_sorted rank keys rest :
  NoDup keys ->
  (forall y, In y rest -> ~ In y keys) ->
  ForallOrdPairs
    (fun x y => rank_score k 1 rank keys y <= rank_score k 1 rank keys x)
    (keys ++ rest).
Proof.
  revert rank. induction keys as [| a keys IH]; intros rank Hnd Hrest.
  - apply ForallOrdPairs_all. intros x y _ _. apply Qcle_refl.
  - inversion Hnd as [| ? ? Hnin Hnd']; subst. simpl. constructor.
    + apply Forall_forall. intros y _. apply rank_score_le_head.
    + assert (Hne : forall x, In x (keys ++ rest) -> x <> a).
      { intros x Hx ->. apply in_app_or in Hx.
        destruct Hx as [Hx | Hx]; [contradiction |].
        apply (Hrest a Hx). now left. }
      apply ForallOrdPairs_ext_in
        with (R := fun x y =>
                     rank_score k 1 (S rank) keys y
                     <= rank_score k 1 (S rank) keys x).
      * intros x y Hx Hy H.
        rewrite !rank_score_cons_other by (now apply Hne). exact H.
      * apply IH; [assumption |].
        intros y Hy Hin. apply (Hrest y Hy). now right.
Qed.
End Rank_scores.

Section Vector_only.
Variable hash : string -> Z.
Variable self : HybridSearch.
Variables v b : list ResultTuple.
Variable k : nat.

Hypothesis w_vector : vector_weight self = 1.
Hypothesis w_lexical : bm25_weight self = 0.
Hypothesis v_distinct : NoDup (contents v).
Hypothesis no_collision : collision_free hash (contents (v ++ b)).

Let st := rrf_scored hash self v b k.
Let kv := map (tuple_key hash) v.
Let lexical_only :=
  filter (fresh kv) (first_seen (map (tuple_key hash) b)).

Lemma vector_only_kv_NoDup : NoDup kv.
Proof.
  apply NoDup_keys; [assumption |].
  eapply collision_free_incl; [| exact no_collision].
  intros c Hc. unfold contents in *. rewrite map_app.
  apply in_or_app. now left.
Qed.

Lemma vector_only_keys : dict_keys (scores st) = kv ++ lexical_only.
Proof.
  unfold st. rewrite rrf_scored_keys, map_app, first_seen_app.
  fold kv. rewrite first_seen_of_NoDup by exact vector_only_kv_NoDup.
  reflexivity.
Qed.

Lemma vector_only_score h :
  dict_get Z.eqb (scores st) h 0 = rank_score k 1 0 kv h.
Proof.
  unfold st. rewrite rrf_scored_score, w_vector, w_lexical.
  rewrite key_contributions_zero_weight.
  rewrite key_contributions_index by exact vector_only_kv_NoDup.
  fold kv. ring.
Qed.

(** The score table is already in descending order: the sort leaves its
    keys where the loops put them. *)
Lemma vector_only_sorted_keys : sorted_keys st = kv ++ lexical_only.
Proof.
  unfold sorted_keys. rewrite vector_only_keys.
  apply sorted_desc_id.
  eapply ForallOrdPairs_impl;
    [| apply (@rank_score_sorted k 0%nat kv lexical_only
                vector_only_kv_NoDup)].
  - intros x y H. simpl. rewrite !vector_only_score. exact H.
  - intros y Hy. unfold lexical_only in Hy. apply filter_In in Hy.
    now apply fresh_true.
Qed.

Lemma vector_only_content t :
  In t v ->
  dict_get Z.eqb (content_map st) (tuple_key hash t) EmptyString
  = tuple_content t.
Proof.
  intros Ht.
  assert (Hin : In (tuple_key hash t) (dict_keys (scores st))).
  { rewrite vector_only_keys. apply in_or_app. left. now apply in_map. }
  destruct (rrf_scored_from_entry hash self v b k _ Hin)
    as [t' [Ht' [Hk [Hc _]]]].
  fold st in Hc. rewrite Hc. apply no_collision.
  - now apply in_map.
  - apply in_map. apply in_or_app. now left.
  - exact Hk.
Qed.

Lemma vector_only_rest h :
  In h lexical_only ->
  In (dict_get Z.eqb (content_map st) h EmptyString) (contents b) /\
  ~ In (dict_get Z.eqb (content_map st) h EmptyString) (contents v).
Proof.
  intros Hh.
  assert (Hin : In h (dict_keys (scores st))).
  { rewrite vector_only_keys. apply in_or_app. now right. }
  destruct (rrf_scored_from_entry hash self v b k _ Hin)
    as [t' [Ht' [Hk [Hc _]]]].
  fold st in Hc. rewrite Hc.
  unfold lexical_only in Hh. apply filter_In in Hh.
  destruct Hh as [_ Hfresh]. apply fresh_true in Hfresh.
  assert (Hnotv : ~ In (tuple_content t') (contents v)).
  { intros Hv. apply in_map_iff in Hv. destruct Hv as [t [Hct Ht]].
    apply Hfresh. unfold kv. rewrite <- Hk.
    replace (tuple_key hash t') with (tuple_key hash t);
      [now apply in_map |].
    unfold tuple_key. now rewrite Hct. }
  split; [| exact Hnotv].
  apply in_app_or in Ht'. destruct Ht' as [Ht' | Ht'].
  - exfalso. apply Hnotv. now apply in_map.
  - now apply in_map.
Qed.

Lemma vector_only_contents top_k :
  exists rest,
    map content (_reciprocal_rank_fusion hash self v b top_k k)
    = slice_to top_k (contents v ++ rest) /\
    (forall c, In c rest -> In c (contents b) /\ ~ In c (contents v)).
Proof.
  exists (map (fun h => dict_get Z.eqb (content_map st) h EmptyString)
              lexical_only).
  split.
  - unfold _reciprocal_rank_fusion. fold st.
    rewrite vector_only_sorted_keys, map_map. simpl.
    rewrite <- slice_to_map, map_app. do 2 f_equal.
    unfold kv, contents. rewrite map_map.
    apply map_ext_in. intros t Ht. now apply vector_only_content.
  - intros c Hc. apply in_map_iff in Hc. destruct Hc as [h [<- Hh]].
    now apply vector_only_rest.
Qed.
End Vector_only.

Lemma slice_to_app_short (A : Type) (stop : Z) (l rest : list A) :
  (0 <= stop <= Z.of_nat (List.length l))%Z ->
  slice_to stop (l ++ rest) = slice_to stop l.
Proof.
  intros H. unfold slice_to.
  destruct (Z.ltb_spec stop 0) as [Hneg | _]; [lia |].
  rewrite firstn_app.
  replace (Z.to_nat stop - List.length l)%nat with O by lia.
  simpl. apply app_nil_r.
Qed.



Example vector_only_fusion :
  map content (_reciprocal_rank_fusion code_hash vector_only_engine
                 demo_vector demo_lexical 10 RRF_K)
  = ["a"; "b"; "c"]%string.
Proof. vm_compute. reflexivity. Qed.


(** ** The key of the accumulation *)

Lemma NoDup_slice_to (A : Type) (stop : Z) (l : list A) :
  NoDup l -> NoDup (slice_to stop l).
Proof.
  intros H. destruct (slice_to_firstn stop l) as [n ->].
  revert l H. induction n as [| n IH]; intros l H; simpl; [constructor |].
  destruct H as [| a l Hnin Hnd]; constructor.
  - intros Hin. apply Hnin. eapply In_firstn. eassumption.
  - now apply IH.
Qed.

Lemma sorted_keys_NoDup (hash : string -> Z) (self : HybridSearch)
      (v b : list ResultTuple) (k : nat) :
  NoDup (sorted_keys (rrf_scored hash self v b k)).
Proof.
  unfold sorted_keys.
  eapply Permutation_NoDup;
    [apply Permutation_sym, sorted_desc_perm |].
  rewrite rrf_scored_keys. apply first_seen_NoDup.
Qed.

(** C6, the claim as stated, fails: the chunks of pages 1 and 2 are two
    documents with the same text; the fusion merges them into one entry,
    which carries the metadata of page 2 and the sum of both
    contributions, and the chunk of page 1 has no entry of its own. *)
Lemma distinct_documents_merged :
  map (fun r => (content r, result_metadata r))
      (_reciprocal_rank_fusion code_hash HybridSearch_init
         repeated_vector [] 10 RRF_K)
  = [("a"%string, meta_page "2")] /\
  ~ (forall t, In t repeated_vector ->
       exists r,
         In r (_reciprocal_rank_fusion code_hash HybridSearch_init
                 repeated_vector [] 10 RRF_K) /\
         content r = tuple_content t /\
         result_metadata r = tuple_metadata t).
Proof.
  split; [vm_compute; reflexivity |].
  intros H. destruct (H _ (or_introl eq_refl)) as [r [Hr [_ Hm]]].
  destruct Hr as [<- | []]. vm_compute in Hm. discriminate Hm.
Qed.

(** Under a hash with collisions, two different texts are merged as well:
    with the length of the text as its hash, ["ab"] of the vector list and
    ["cd"] of the lexical list end in one entry, with the text read
    last. *)
Example colliding_contents_merged :
  map (fun r => (content r, this (score r)))
      (_reciprocal_rank_fusion length_hash HybridSearch_init
         [entry "ab" 1 []] [entry "cd" 1 []] 10 RRF_K)
  = [("cd"%string, (1 # 61)%Q)].
Proof. vm_compute. reflexivity. Qed.

(** ** The lexical index *)

Lemma count_step_get (freq : dict string nat) (x t : string) :
  dict_get String.eqb (count_step freq x) t 0%nat
  = (dict_get String.eqb freq t 0 + if string_dec x t then 1 else 0)%nat.
Proof.
  unfold count_step. destruct (string_dec x t) as [-> | N].
  - now rewrite (dict_get_set_same String.eqb String.eqb_spec).
  - rewrite (dict_get_set_other String.eqb String.eqb_spec) by congruence.
    lia.
Qed.

Lemma count_loop_get (l : list string) (freq : dict string nat) (t : string) :
  dict_get String.eqb (fold_left count_step l freq) t 0%nat
  = (dict_get String.eqb freq t 0 + count_occ string_dec l t)%nat.
Proof.
  revert freq. induction l as [| x l IH]; intros freq; simpl; [lia |].
  rewrite IH, count_step_get. destruct (string_dec x t); lia.
Qed.

Lemma count_loop_keys (l : list string) (freq : dict string nat) :
  NoDup (dict_keys freq) ->
  NoDup (dict_keys (fold_left count_step l freq)) /\
  (forall t, In t (dict_keys (fold_left count_step l freq))
             <-> In t (dict_keys freq) \/ In t l).
Proof.
  revert freq. induction l as [| x l IH]; intros freq Hnd; simpl.
  - split; [assumption | tauto].
  - assert (Hstep : dict_keys (count_step freq x)
                    = if dict_mem String.eqb freq x
                      then dict_keys freq else dict_keys freq ++ [x])
      by apply (dict_keys_set String.eqb String.eqb_spec).
    assert (Hnd' : NoDup (dict_keys (count_step freq x))).
    { rewrite Hstep. destruct (dict_mem String.eqb freq x) eqn:E;
        [assumption |].
      apply NoDup_app; [assumption | repeat constructor; intros [] |].
      intros y Hy [<- | []].
      apply (dict_mem_In String.eqb String.eqb_spec) in Hy. congruence. }
    destruct (IH _ Hnd') as [H1 H2]. split; [assumption |].
    intros t. rewrite H2, Hstep.
    destruct (dict_mem String.eqb freq x) eqn:E.
    + apply (dict_mem_In String.eqb String.eqb_spec) in E.
      split; [tauto |]. intros [H | [<- | H]]; tauto.
    + rewrite in_app_iff. simpl. tauto.
Qed.

Lemma Counter_get (doc : list string) (t : string) :
  dict_get String.eqb (Counter doc) t 0%nat = count_occ string_dec doc t.
Proof.
  unfold Counter. apply (count_loop_get doc [] t).
Qed.

(** A term is counted once among the keys of [Counter(doc)], when the
    document contains it. *)
Lemma Counter_keys_count (doc : list string) (t : string) :
  count_occ string_dec (dict_keys (Counter doc)) t
  = if (0 <? count_occ string_dec doc t)%nat then 1%nat else 0%nat.
Proof.
  destruct (@count_loop_keys doc [] (NoDup_nil _)) as [Hnd Hin].
  fold (Counter doc) in Hnd, Hin.
  pose proof (proj1 (NoDup_count_occ string_dec _) Hnd t) as Hle.
  pose proof (count_occ_In string_dec (dict_keys (Counter doc)) t) as Hk.
  pose proof (count_occ_In string_dec doc t) as Hd.
  rewrite Hin in Hk. simpl in Hk.
  destruct (Nat.ltb_spec 0 (count_occ string_dec doc t)) as [Hpos | Hzero].
  - assert (count_occ string_dec (dict_keys (Counter doc)) t > 0)%nat
      by (apply Hk; right; now apply Hd).
    lia.
  - destruct (Nat.eq_dec (count_occ string_dec (dict_keys (Counter doc)) t) 0)
      as [E | NE]; [assumption |].
    assert (Hin' : False \/ In t doc) by (apply Hk; lia).
    destruct Hin' as [[] | Hin']. apply Hd in Hin'. lia.
Qed.

Lemma count_terms_get (tdf : dict string nat) (doc : list string)
      (t : string) :
  dict_get String.eqb (count_terms tdf (Counter doc)) t 0%nat
  = (dict_get String.eqb tdf t 0
     + if (0 <? count_occ string_dec doc t)%nat then 1 else 0)%nat.
Proof.
  unfold count_terms.
  now rewrite count_loop_get, Counter_keys_count.
Qed.

Lemma index_docs_from (docs : list (list string))
      (dfs : list (dict string nat)) (tdf : dict string nat) :
  fst (fold_left index_step docs (dfs, tdf)) = dfs ++ map Counter docs /\
  forall t,
    dict_get String.eqb (snd (fold_left index_step docs (dfs, tdf))) t 0%nat
    = (dict_get String.eqb tdf t 0 + df docs t)%nat.
Proof.
  revert dfs tdf. induction docs as [| doc docs IH]; intros dfs tdf; simpl.
  - split; [now rewrite app_nil_r | intros t; unfold df; simpl; lia].
  - destruct (IH (dfs ++ [Counter doc]) (count_terms tdf (Counter doc)))
      as [H1 H2].
    split.
    + rewrite H1, <- app_assoc. reflexivity.
    + intros t. rewrite H2, count_terms_get. unfold df. simpl.
      destruct (0 <? count_occ string_dec doc t)%nat; simpl; lia.
Qed.

Lemma total_len_sum (docs : list (list string)) :
  total_len docs = list_sum (map (@List.length string) docs).
Proof.
  unfold total_len.
  assert (H : forall acc,
             fold_left (fun a doc => (a + List.length doc)%nat) docs acc
             = (acc + list_sum (map (@List.length string) docs))%nat).
  { induction docs as [| d docs IH]; intros acc; simpl; [lia |].
    rewrite IH. lia. }
  apply H.
Qed.

(** The fields of a built index. *)
Lemma BM25Okapi_init_fields (docs : list (list string)) (p1 pb : float) :
  let index := BM25Okapi_init docs p1 pb in
  corpus index = docs /\
  corpus_size index = List.length docs /\
  avg_doc_len index = avgLen docs /\
  k1 index = p1 /\ b index = pb /\
  doc_freqs index = map Counter docs /\
  forall t, dict_get String.eqb (term_doc_freq index) t 0%nat = df docs t.
Proof.
  unfold BM25Okapi_init.
  assert (H : fst (index_docs docs) = map Counter docs /\
              forall t, dict_get String.eqb (snd (index_docs docs)) t 0%nat
                        = df docs t)
    by exact (index_docs_from docs [] []).
  revert H. destruct (index_docs docs) as [dfs tdf]. simpl.
  intros [H1 H2]. repeat split; try assumption.
  unfold avgLen, N_docs. rewrite total_len_sum.
  destruct docs; reflexivity.
Qed.

(** ** The lexical score *)

Lemma setitem_length (A : Type) (l : list A) (idx : nat) (v : A) :
  List.length (setitem l idx v) = List.length l.
Proof.
  revert idx. induction l as [| a l IH]; intros [| idx]; simpl;
    try reflexivity.
  now rewrite IH.
Qed.

Lemma setitem_nth (A : Type) (l : list A) (idx i : nat) (v d : A) :
  (idx < List.length l)%nat ->
  nth i (setitem l idx v) d = if (i =? idx)%nat then v else nth i l d.
Proof.
  revert idx i. induction l as [| a l IH]; intros idx i H; simpl in H;
    [lia |].
  destruct idx as [| idx]; destruct i as [| i]; simpl; try reflexivity.
  apply IH. lia.
Qed.

Section Scoring_facts.
Variable log : float -> float.
Variable self : BM25Okapi.

Lemma score_doc_spec term idf scores idx freq :
  (idx < List.length scores)%nat ->
  List.length (score_doc self term idf scores idx freq)
  = List.length scores /\
  forall i,
    nth i (score_doc self term idf scores idx freq) 0
    = nth i scores 0
      + (if (i =? idx)%nat then doc_term self term idf idx freq else 0).
Proof.
  intros H. unfold score_doc, doc_term.
  destruct (dict_get String.eqb freq term 0%nat) as [| n].
  - split; [reflexivity |]. intros i. destruct (i =? idx)%nat; ring.
  - split; [apply setitem_length |]. intros i.
    rewrite setitem_nth by assumption.
    destruct (Nat.eqb_spec i idx) as [-> | _]; ring.
Qed.

Lemma score_docs_spec term idf freqs idx scores :
  (idx + List.length freqs <= List.length scores)%nat ->
  List.length (score_docs self term idf idx freqs scores)
  = List.length scores /\
  forall i,
    nth i (score_docs self term idf idx freqs scores) 0
    = nth i scores 0
      + (if ((idx <=? i) && (i <? idx + List.length freqs))%nat
         then doc_term self term idf i (nth (i - idx) freqs [])
         else 0).
Proof.
  revert idx scores.
  induction freqs as [| freq rest IH]; intros idx scores H; simpl in *.
  - split; [reflexivity |]. intros i.
    replace ((idx <=? i) && (i <? idx + 0))%nat with false; [ring |].
    symmetry. apply andb_false_iff.
    destruct (Nat.leb_spec idx i); [right | now left].
    apply Nat.ltb_ge. lia.
  - destruct (@score_doc_spec term idf scores idx freq) as [Hlen Hnth];
      [lia |].
    destruct (IH (S idx) (score_doc self term idf scores idx freq))
      as [Hlen' Hnth']; [lia |].
    split; [congruence |]. intros i. rewrite Hnth', Hnth.
    destruct (Nat.eqb_spec i idx) as [-> | Hne].
    + replace (S idx <=? idx)%nat with false
        by (symmetry; apply Nat.leb_gt; lia).
      replace (idx <=? idx)%nat with true
        by (symmetry; apply Nat.leb_le; lia).
      replace (idx <? idx + S (List.length rest))%nat with true
        by (symmetry; apply Nat.ltb_lt; lia).
      rewrite Nat.sub_diag. simpl. ring.
    + destruct (Nat.leb_spec (S idx) i) as [Hle | Hgt].
      * replace (idx <=? i)%nat with true
          by (symmetry; apply Nat.leb_le; lia).
        replace (i <? idx + S (List.length rest))%nat
          with (i <? S (idx + List.length rest))%nat
          by (f_equal; lia).
        replace (i - idx)%nat with (S (i - S idx)) by lia.
        simpl. ring.
      * replace (idx <=? i)%nat with false
          by (symmetry; apply Nat.leb_gt; lia).
        simpl. ring.
Qed.

Lemma score_term_spec scores term :
  List.length scores = List.length (doc_freqs self) ->
  List.length (score_term log self scores term) = List.length scores /\
  forall i, (i < List.length scores)%nat ->
    nth i (score_term log self scores term) 0
    = nth i scores 0 + term_part log self term i.
Proof.
  intros Hlen. unfold score_term, term_part.
  destruct (dict_get String.eqb (term_doc_freq self) term 0%nat) as [| n].
  - split; [reflexivity |]. intros i _. ring.
  - match goal with
    | |- context [score_docs self term ?idf 0 _ _] =>
        destruct (@score_docs_spec term idf (doc_freqs self) 0%nat scores)
          as [H1 H2]; [simpl; lia |]
    end.
    split; [assumption |]. intros i Hi. rewrite H2. simpl.
    rewrite Nat.sub_0_r.
    replace (i <? List.length (doc_freqs self))%nat with true
      by (symmetry; apply Nat.ltb_lt; lia).
    reflexivity.
Qed.

Lemma score_terms_spec query_terms scores :
  List.length scores = List.length (doc_freqs self) ->
  List.length (fold_left (score_term log self) query_terms scores)
  = List.length scores /\
  forall i, (i < List.length scores)%nat ->
    nth i (fold_left (score_term log self) query_terms scores) 0
    = fold_left (fun acc t => acc + term_part log self t i) query_terms
                (nth i scores 0).
Proof.
  revert scores. induction query_terms as [| t q IH]; intros scores Hlen;
    simpl.
  - split; [reflexivity |]. intros i _. reflexivity.
  - destruct (score_term_spec scores t Hlen) as [H1 H2].
    destruct (IH (score_term log self scores t)) as [H3 H4];
      [congruence |].
    split; [congruence |]. intros i Hi.
    rewrite H4 by lia. now rewrite H2.
Qed.
End Scoring_facts.

(** ** The divisions of the lexical score *)

Lemma Qc_mult_nonneg (x y : Qc) : 0 <= x -> 0 <= y -> 0 <= x * y.
Proof.
  intros Hx Hy. replace (0 : Qc) with (0 * y) by ring.
  now apply Qcmult_le_compat_r.
Qed.

Lemma Qc_plus_nonneg (x y : Qc) : 0 <= x -> 0 <= y -> 0 <= x + y.
Proof.
  intros Hx Hy. replace (0 : Qc) with (0 + 0) by ring.
  now apply Qcplus_le_compat.
Qed.

Lemma Qc_inv_nonneg (x : Qc) : 0 <= x -> 0 <= / x.
Proof.
  intros Hx. destruct (Qc_eq_dec x 0) as [-> | Hne]; [apply Qcle_refl |].
  assert (Hpos : 0 < x).
  { destruct (Qcle_lt_or_eq _ _ Hx) as [H | H]; [exact H | congruence]. }
  apply (Qcmult_lt_0_le_reg_r _ _ x Hpos).
  rewrite Qcmult_inv_l by exact Hne.
  replace (0 * x) with (0 : Qc) by ring. discriminate.
Qed.

Lemma float_of_nat_nonneg (n : nat) : 0 <= float_of_nat n.
Proof.
  change (0 : Qc) with (float_of_nat 0). apply float_of_nat_le. lia.
Qed.

Lemma avgLen_nonneg (docs : list (list string)) : 0 <= avgLen docs.
Proof.
  unfold avgLen. destruct docs as [| d docs]; [apply Qcle_refl |].
  apply Qc_mult_nonneg; [| apply Qc_inv_nonneg]; apply float_of_nat_nonneg.
Qed.

(** With [k1 >= 0] and [0 <= b <= 1], as for the parameters 1.5 and 0.75
    of the index that [_build_bm25_index] builds, the denominator of a
    term that occurs in the document is positive: [score_doc] never
    divides by zero. *)
Lemma score_denominator_positive (docs : list (list string)) (p1 pb : float)
      (term_freq doc_len : nat) :
  0 <= p1 -> 0 <= pb -> pb <= 1 -> (0 < term_freq)%nat ->
  0 < (if truthy (avgLen docs)
       then float_of_nat term_freq
            + p1 * (1 - pb + pb * float_of_nat doc_len / avgLen docs)
       else float_of_nat term_freq + p1).
Proof.
  intros H1 Hb0 Hb1 Htf.
  assert (Hpos : 0 < float_of_nat term_freq) by now apply float_of_nat_pos.
  assert (Hstep : forall x, 0 <= x -> 0 < float_of_nat term_freq + x).
  { intros x Hx. eapply Qclt_le_trans; [exact Hpos |].
    replace (float_of_nat term_freq) with (float_of_nat term_freq + 0) at 1
      by ring.
    apply Qcplus_le_compat; [apply Qcle_refl | exact Hx]. }
  destruct (truthy (avgLen docs)); apply Hstep; [| exact H1].
  apply Qc_mult_nonneg; [exact H1 |]. apply Qc_plus_nonneg.
  - unfold Qcminus. now apply Qcle_minus_iff in Hb1.
  - unfold Qcdiv. apply Qc_mult_nonneg.
    + apply Qc_mult_nonneg; [exact Hb0 | apply float_of_nat_nonneg].
    + apply Qc_inv_nonneg, avgLen_nonneg.
Qed.

Section Lexical_score.
Variable log : float -> float.
Variable docs : list (list string).
Variables p1 pb : float.

Lemma term_part_formula t i :
  (i < List.length docs)%nat ->
  term_part log (BM25Okapi_init docs p1 pb) t i
  = term_contribution log docs p1 pb t i.
Proof.
  intros Hi.
  destruct (BM25Okapi_init_fields docs p1 pb)
    as [Hc [Hn [Ha [Hk [Hb [Hf Hd]]]]]].
  unfold term_part, term_contribution, doc_term, idf, tf, len, N_docs.
  rewrite Hc, Hn, Ha, Hk, Hb, Hf, Hd.
  destruct (df docs t) as [| n]; [reflexivity |].
  change [] with (Counter []) at 1. rewrite map_nth, Counter_get.
  destruct (count_occ string_dec (nth i docs []) t) as [| m] eqn:E.
  - replace (float_of_nat 0) with 0 by reflexivity.
    unfold Qcdiv. ring.
  - unfold truthy, Qc_eq_bool.
    destruct (Qc_eq_dec (avgLen docs) 0); simpl; unfold Qcdiv; ring.
Qed.

Lemma bm25_formula_zero query i :
  (forall t, In t query -> ~ In t (nth i docs [])) ->
  bm25_formula log docs p1 pb query i = 0.
Proof.
  unfold bm25_formula. intros H.
  assert (Hacc : forall acc,
             fold_left
               (fun acc t => acc + term_contribution log docs p1 pb t i)
               query acc = acc).
  { induction query as [| t q IH]; intros acc; simpl; [reflexivity |].
    rewrite IH by (intros t' Ht'; apply H; now right).
    unfold term_contribution, tf.
    rewrite (proj1 (count_occ_not_In string_dec _ t) (H t (or_introl eq_refl))).
    destruct (df docs t); [ring |].
    replace (float_of_nat 0) with 0 by reflexivity.
    unfold Qcdiv. ring. }
  apply Hacc.
Qed.
End Lexical_score.

(** The example of the specification: for the query ["fast gpu"], document
    0 scores above documents 1 and 2, which score 0. *)
Example lexical_scores_of_the_example :
  map (fun x : Qc => this x)
      (get_scores demo_log
         (BM25Okapi_init demo_corpus default_k1 default_b)
         ["fast"; "gpu"]%string)
  = [(2200 # 687)%Q; 0%Q; 0%Q].
Proof. vm_compute. reflexivity. Qed.

(** ** [search] *)

Lemma is_space_lower (c : ascii) : is_space c = true -> lower_ascii c = c.
Proof.
  destruct c as [[] [] [] [] [] [] [] []]; vm_compute;
    intros H; try reflexivity; discriminate H.
Qed.

Lemma all_space_tokens (s : string) :
  all_space s = true -> split (lower s) = [].
Proof.
  unfold split. induction s as [| c s IH]; simpl; [reflexivity |].
  intros H. apply andb_true_iff in H. destruct H as [Hc Hs].
  rewrite (is_space_lower c Hc), Hc. simpl. now apply IH.
Qed.

(** The weights are all the fusion reads of the object. *)
Lemma fusion_weights (hash : string -> Z) (s1 s2 : HybridSearch)
      (v b : list ResultTuple) (top_k : Z) (k : nat) :
  vector_weight s1 = vector_weight s2 ->
  bm25_weight s1 = bm25_weight s2 ->
  _reciprocal_rank_fusion hash s1 v b top_k k
  = _reciprocal_rank_fusion hash s2 v b top_k k.
Proof.
  intros Hv Hb. unfold _reciprocal_rank_fusion, rrf_scored.
  now rewrite Hv, Hb.
Qed.

Lemma fusion_source (hash : string -> Z) (self : HybridSearch)
      (v b : list ResultTuple) (top_k : Z) (k : nat) :
  Forall (fun r => source r = "hybrid"%string)
         (_reciprocal_rank_fusion hash self v b top_k k).
Proof.
  apply Forall_forall. intros r Hr. unfold _reciprocal_rank_fusion in Hr.
  apply in_map_iff in Hr. destruct Hr as [h [<- _]]. reflexivity.
Qed.

Section Search_state.
Variable hash : string -> Z.
Variable log : float -> float.
Variable argsort : list float -> list nat.
Variable collection_query : string -> Z -> result QueryResult.
Variable collection_get : result GetResult.

Lemma build_keeps_weights self self' :
  _build_bm25_index collection_get self = Ok self' ->
  vector_weight self' = vector_weight self /\
  bm25_weight self' = bm25_weight self /\
  bm25_index self' <> None.
Proof.
  unfold _build_bm25_index. destruct collection_get as [g | e]; simpl;
    [| discriminate].
  intros H. injection H as <-. simpl. repeat split. discriminate.
Qed.

Lemma bm25_search_keeps_weights self query top_k :
  vector_weight
    (fst (_bm25_search log argsort collection_get self query top_k))
  = vector_weight self /\
  bm25_weight
    (fst (_bm25_search log argsort collection_get self query top_k))
  = bm25_weight self.
Proof.
  unfold _bm25_search. destruct (bm25_index self) as [index |].
  - simpl. split; reflexivity.
  - destruct (_build_bm25_index collection_get self) as [self' | e] eqn:E;
      simpl; [| split; reflexivity].
    destruct (build_keeps_weights self E) as [Hv [Hb _]]. now split.
Qed.

(** A second call finds the index of the first and returns the same
    ranking. *)
Lemma bm25_search_again self query top_k :
  _bm25_search log argsort collection_get
    (fst (_bm25_search log argsort collection_get self query top_k))
    query top_k
  = _bm25_search log argsort collection_get self query top_k.
Proof.
  unfold _bm25_search at 2 3.
  destruct (bm25_index self) as [index |] eqn:Eidx.
  - simpl. unfold _bm25_search. now rewrite Eidx.
  - destruct (_build_bm25_index collection_get self) as [self' | e] eqn:E;
      simpl.
    + destruct (build_keeps_weights self E) as [_ [_ Hsome]].
      unfold _bm25_search.
      destruct (bm25_index self') as [index' |]; [reflexivity | congruence].
    + unfold _bm25_search. now rewrite Eidx, E.
Qed.

Lemma search_fst self query top_k :
  fst (search hash log argsort collection_query collection_get
         self query top_k)
  = fst (_bm25_search log argsort collection_get self query top_k).
Proof.
  unfold search.
  now destruct (_bm25_search log argsort collection_get self query top_k).
Qed.

Lemma search_snd self query top_k :
  snd (search hash log argsort collection_query collection_get
         self query top_k)
  = (vector_results <- _vector_search collection_query query top_k ;;
     bm25_results <-
       snd (_bm25_search log argsort collection_get self query top_k) ;;
     Ok (_reciprocal_rank_fusion hash
           (fst (_bm25_search log argsort collection_get
                   self query top_k))
           vector_results bm25_results top_k RRF_K)).
Proof.
  unfold search.
  now destruct (_bm25_search log argsort collection_get self query top_k).
Qed.
End Search_state.

(** C9. [search] is deterministic on one corpus: a second call with the
    same query and [top_k], on the object the first call left, returns the
    same ordered output and leaves the object as it found it; so does the
    lexical ranking, which is computed from the same index; and the scores
    of an index are a function of its corpus and the query terms. *)
Theorem search_is_deterministic
        (hash : string -> Z) (log : float -> float)
        (argsort : list float -> list nat)
        (collection_query : string -> Z -> result QueryResult)
        (collection_get : result GetResult)
        (self : HybridSearch) (query : string) (top_k : Z) :
  search hash log argsort collection_query collection_get
    (fst (search hash log argsort collection_query collection_get
            self query top_k))
    query top_k
  = search hash log argsort collection_query collection_get
      self query top_k /\
  _bm25_search log argsort collection_get
    (fst (search hash log argsort collection_query collection_get
            self query top_k))
    query top_k
  = _bm25_search log argsort collection_get self query top_k /\
  (forall docs docs' p1 pb query_terms query_terms',
      docs = docs' -> query_terms = query_terms' ->
      get_scores log (BM25Okapi_init docs p1 pb) query_terms
      = get_scores log (BM25Okapi_init docs' p1 pb) query_terms').
Proof.
  assert (Hagain :
            _bm25_search log argsort collection_get
              (fst (search hash log argsort collection_query collection_get
                      self query top_k))
              query top_k
            = _bm25_search log argsort collection_get self query top_k).
  { rewrite search_fst. apply bm25_search_again. }
  split; [| split; [exact Hagain |]].
  - apply injective_projections.
    + rewrite !search_fst, bm25_search_again. reflexivity.
    + rewrite !search_snd, !search_fst, !bm25_search_again. reflexivity.
  - intros docs docs' p1 pb q q' -> ->. reflexivity.
Qed.

Lemma search_is_deterministic_witness :
  demo_search (fst (demo_search HybridSearch_init "fast gpu" 2)) "fast gpu" 2
  = demo_search HybridSearch_init "fast gpu" 2 /\
  _bm25_search demo_log demo_argsort demo_collection_get
    (fst (demo_search HybridSearch_init "fast gpu" 2)) "fast gpu" 2
  = _bm25_search demo_log demo_argsort demo_collection_get
      HybridSearch_init "fast gpu" 2 /\
  (forall docs docs' p1 pb query_terms query_terms',
      docs = docs' -> query_terms = query_terms' ->
      get_scores demo_log (BM25Okapi_init docs p1 pb) query_terms
      = get_scores demo_log (BM25Okapi_init docs' p1 pb) query_terms').
Proof.
  exact (@search_is_deterministic code_hash demo_log demo_argsort
           demo_collection_query demo_collection_get
           HybridSearch_init "fast gpu" 2%Z).
Defined.

(** C3, as amended. There is no degraded mode: when the vector task
    raises, [search] raises the same exception, whatever the lexical task
    returns; when the vector task returns and the lexical task raises,
    [search] raises the exception of the lexical task; and every result
    that [search] returns carries the one tag "hybrid". *)
Theorem search_propagates_failure
        (hash : string -> Z) (log : float -> float)
        (argsort : list float -> list nat)
        (collection_query : string -> Z -> result QueryResult)
        (collection_get : result GetResult)
        (self : HybridSearch) (query : string) (top_k : Z) (e : exn) :
  _vector_search collection_query query top_k = Raise e ->
  snd (search hash log argsort collection_query collection_get
         self query top_k) = Raise e /\
  (forall collection_query' v e',
      _vector_search collection_query' query top_k = Ok v ->
      snd (_bm25_search log argsort collection_get self query top_k)
      = Raise e' ->
      snd (search hash log argsort collection_query' collection_get
             self query top_k) = Raise e') /\
  (forall collection_query' results,
      snd (search hash log argsort collection_query' collection_get
             self query top_k) = Ok results ->
      Forall (fun r => source r = "hybrid"%string) results).
Proof.
  intros Hv. split; [| split].
  - rewrite search_snd, Hv. reflexivity.
  - intros cq' v e' Hv' Hb. rewrite search_snd, Hv', Hb. reflexivity.
  - intros cq' results H. apply search_Ok_inv in H.
    destruct H as [self' [v [b [_ [_ ->]]]]]. apply fusion_source.
Qed.

Lemma search_propagates_failure_witness :
  snd (degraded_search HybridSearch_init "fast gpu" 2)
  = Raise (ExternalError "vector store unavailable") /\
  (forall collection_query' v e',
      _vector_search collection_query' "fast gpu" 2 = Ok v ->
      snd (_bm25_search demo_log demo_argsort demo_collection_get
             HybridSearch_init "fast gpu" 2)
      = Raise e' ->
      snd (search code_hash demo_log demo_argsort collection_query'
             demo_collection_get HybridSearch_init "fast gpu" 2)
      = Raise e') /\
  (forall collection_query' results,
      snd (search code_hash demo_log demo_argsort collection_query'
             demo_collection_get HybridSearch_init "fast gpu" 2)
      = Ok results ->
      Forall (fun r => source r = "hybrid"%string) results).
Proof.
  apply (@search_propagates_failure code_hash demo_log demo_argsort
           unavailable_collection_query demo_collection_get
           HybridSearch_init "fast gpu" 2%Z
           (ExternalError "vector store unavailable")).
  reflexivity.
Defined.

(** C3, the claim as stated, fails: with the vector store out of reach,
    the lexical task alone returns a ranking for the query ["fast gpu"],
    and [search] returns no result list: it raises the exception of the
    vector task. *)
Lemma no_degraded_mode :
  ranked_contents
    (snd (_bm25_search demo_log demo_argsort demo_collection_get
            HybridSearch_init "fast gpu" 2))
  = Ok ["the gpu is fast"%string] /\
  snd (degraded_search HybridSearch_init "fast gpu" 2)
  = Raise (ExternalError "vector store unavailable") /\
  ~ (exists results,
        snd (degraded_search HybridSearch_init "fast gpu" 2) = Ok results).
Proof.
  split; [vm_compute; reflexivity |].
  split; [vm_compute; reflexivity |].
  intros [results H]. vm_compute in H. discriminate H.
Qed.

(** ** The empty query *)

Lemma get_scores_no_terms (log : float -> float) (index : BM25Okapi) :
  Forall (fun s => s = 0) (get_scores log index []).
Proof.
  unfold get_scores. destruct (corpus_size index); simpl; [constructor |].
  constructor; [reflexivity |]. apply Forall_forall.
  intros x Hx. now apply repeat_spec in Hx.
Qed.

Lemma collect_positive_zero (docs : list Document) (scores : list float)
      (top_indices : list nat) (results : list ResultTuple) :
  Forall (fun s => s = 0) scores ->
  Forall (fun i => (i < List.length scores)%nat) top_indices ->
  collect_positive docs scores top_indices results = Ok results.
Proof.
  intros Hzero. revert results.
  induction top_indices as [| idx rest IH]; intros results Hrange; simpl;
    [reflexivity |].
  inversion Hrange as [| ? ? Hidx Hrest]; subst.
  unfold getitem.
  destruct (nth_error scores idx) as [s |] eqn:E.
  - simpl. rewrite Forall_forall in Hzero.
    rewrite (Hzero s (nth_error_In _ _ E)). simpl. now apply IH.
  - apply nth_error_None in E. lia.
Qed.

Lemma In_skipn (A : Type) (n : nat) (l : list A) (x : A) :
  In x (skipn n l) -> In x l.
Proof.
  intros H. rewrite <- (firstn_skipn n l). apply in_or_app. now right.
Qed.

Lemma Forall_slice_from (A : Type) (P : A -> Prop) (start : Z) (l : list A) :
  Forall P l -> Forall P (slice_from start l).
Proof.
  intros H. unfold slice_from.
  destruct (start <? 0)%Z; apply Forall_forall; intros x Hx;
    rewrite Forall_forall in H; apply H; eapply In_skipn; eassumption.
Qed.

Section Empty_query.
Variable log : float -> float.
Variable argsort : list float -> list nat.
Variable collection_get : result GetResult.

(** [numpy.argsort] returns indices of the array it is given. *)
Hypothesis argsort_range :
  forall s, Forall (fun i => (i < List.length s)%nat) (argsort s).

Variable query : string.
Hypothesis blank : all_space query = true.

Lemma bm25_ranked_blank self top_k :
  bm25_index self <> None ->
  bm25_ranked log argsort self query top_k = Ok [].
Proof.
  intros Hidx. unfold bm25_ranked.
  destruct (bm25_index self) as [index |]; [| congruence].
  rewrite (all_space_tokens query blank).
  apply collect_positive_zero; [apply get_scores_no_terms |].
  apply Forall_rev, Forall_slice_from, argsort_range.
Qed.

Lemma bm25_search_blank self top_k :
  bm25_index self <> None \/ (exists g, collection_get = Ok g) ->
  snd (_bm25_search log argsort collection_get self query top_k) = Ok [].
Proof.
  intros H. unfold _bm25_search.
  destruct (bm25_index self) as [index |] eqn:Eidx.
  - simpl. apply bm25_ranked_blank. congruence.
  - destruct H as [H | [g Hg]]; [congruence |].
    destruct (_build_bm25_index collection_get self) as [self' | e] eqn:E.
    + simpl. apply bm25_ranked_blank.
      now destruct (@build_keeps_weights collection_get self self' E)
        as [_ [_ Hsome]].
    + unfold _build_bm25_index in E. rewrite Hg in E. discriminate E.
Qed.
End Empty_query.

(** C4, as amended. For an empty or white-space-only query the lexical
    ranking is empty, and [search] returns the fusion of the vector ranking
    with the empty list, cut at [top_k]: the empty sequence when the vector
    store returns no document or [top_k] is 0, the documents of the vector
    ranking otherwise; and it raises when the vector task raises. (The
    index is there or can be built, and [argsort] returns indices of its
    array.) *)
Theorem blank_query_search
        (hash : string -> Z) (log : float -> float)
        (argsort : list float -> list nat)
        (collection_query : string -> Z -> result QueryResult)
        (collection_get : result GetResult)
        (self : HybridSearch) (query : string) (top_k : Z) :
  (forall s, Forall (fun i => (i < List.length s)%nat) (argsort s)) ->
  all_space query = true ->
  bm25_index self <> None \/ (exists g, collection_get = Ok g) ->
  snd (_bm25_search log argsort collection_get self query top_k) = Ok [] /\
  snd (search hash log argsort collection_query collection_get
         self query top_k)
  = (vector_results <- _vector_search collection_query query top_k ;;
     Ok (_reciprocal_rank_fusion hash self vector_results [] top_k RRF_K)).
Proof.
  intros Hargsort Hblank Hindex.
  pose proof (@bm25_search_blank log argsort collection_get Hargsort
                query Hblank self top_k Hindex) as Hb.
  split; [exact Hb |].
  rewrite search_snd, Hb.
  destruct (_vector_search collection_query query top_k) as [v | e]; simpl;
    [| reflexivity].
  f_equal. apply fusion_weights;
    apply (bm25_search_keeps_weights log argsort collection_get
             self query top_k).
Qed.

Lemma insert_asc_In (scores : list float) (i x : nat) (l : list nat) :
  In x (insert_asc scores i l) -> x = i \/ In x l.
Proof.
  induction l as [| j t IH]; simpl.
  - intros [<- | []]. now left.
  - destruct (Qcltb (nth j scores 0) (nth i scores 0)); simpl.
    + intros [<- | H]; [right; now left |].
      destruct (IH H); [now left | right; now right].
    + intros [<- | H]; [now left | now right].
Qed.

Lemma demo_argsort_range (s : list float) :
  Forall (fun i => (i < List.length s)%nat) (demo_argsort s).
Proof.
  unfold demo_argsort. apply Forall_forall. intros x Hx.
  assert (H : forall l, In x (fold_right (insert_asc s) [] l) -> In x l).
  { induction l as [| i l IH]; simpl; [tauto |]. intros Hin.
    apply insert_asc_In in Hin. destruct Hin as [-> | Hin];
      [now left | right; now apply IH]. }
  apply H in Hx. apply in_seq in Hx. lia.
Qed.

Lemma blank_query_search_witness :
  snd (_bm25_search demo_log demo_argsort demo_collection_get
         HybridSearch_init " " 2) = Ok [] /\
  snd (demo_search HybridSearch_init " " 2)
  = (vector_results <- _vector_search demo_collection_query " " 2 ;;
     Ok (_reciprocal_rank_fusion code_hash HybridSearch_init
           vector_results [] 2 RRF_K)).
Proof.
  apply (@blank_query_search code_hash demo_log demo_argsort
           demo_collection_query demo_collection_get
           HybridSearch_init " " 2%Z).
  - exact demo_argsort_range.
  - reflexivity.
  - right. exists (mkGetResult demo_contents demo_metadatas). reflexivity.
Defined.

(** C4, the claim as stated, fails: [search] has no guard for the empty
    query. The query is embedded and sent to the vector store like any
    other, and for the empty query and [top_k = 2] the two documents that
    the store returns come back as the result. *)
Lemma empty_query_returns_vector_documents :
  returned_contents (snd (demo_search HybridSearch_init "" 2))
  = Ok ["the gpu is fast"; "the cpu is slow"]%string /\
  snd (demo_search HybridSearch_init "" 2) <> Ok [].
Proof.
  split; [vm_compute; reflexivity |].
  intros H. vm_compute in H. discriminate H.
Qed.

(* ================================================================== *)
(** * Part IV: further properties of the program                      *)
(* ================================================================== *)

(** ** The tables and the scores of the lexical index *)

Lemma df_le_N (docs : list (list string)) (t : string) :
  (df docs t <= List.length docs)%nat.
Proof. unfold df. apply filter_length_le. Qed.

Lemma df_occurs (docs : list (list string)) (t : string) :
  df docs t = O <-> occurs docs t = false.
Proof.
  unfold df, occurs. induction docs as [| d docs IH]; simpl; [tauto |].
  destruct (0 <? count_occ string_dec d t)%nat; simpl.
  - split; discriminate.
  - exact IH.
Qed.

Lemma df_of_member (docs : list (list string)) (t : string) (i : nat) :
  In t (nth i docs []) -> (0 < df docs t)%nat.
Proof.
  unfold df. revert i. induction docs as [| d docs IH]; intros i H; simpl.
  - destruct i; contradiction.
  - destruct i as [| i]; simpl in H.
    + apply (count_occ_In string_dec) in H.
      replace (0 <? count_occ string_dec d t)%nat with true
        by (symmetry; apply Nat.ltb_lt; lia).
      simpl. lia.
    + specialize (IH i H).
      destruct (0 <? count_occ string_dec d t)%nat; simpl; lia.
Qed.

(** The scores of a built index, document by document. *)
Lemma get_scores_built (log : float -> float) (docs : list (list string))
      (p1 pb : float) (query_terms : list string) :
  List.length (get_scores log (BM25Okapi_init docs p1 pb) query_terms)
  = List.length docs /\
  forall i, (i < List.length docs)%nat ->
    nth i (get_scores log (BM25Okapi_init docs p1 pb) query_terms) 0
    = bm25_formula log docs p1 pb query_terms i.
Proof.
  destruct (BM25Okapi_init_fields docs p1 pb)
    as [_ [Hn [_ [_ [_ [Hf _]]]]]].
  unfold get_scores. rewrite Hn.
  destruct (List.length docs) as [| n] eqn:En.
  - split; [reflexivity | intros i Hi; lia].
  - assert (Hlen : List.length (repeat (0 : Qc) (S n))
                   = List.length (doc_freqs (BM25Okapi_init docs p1 pb)))
      by (rewrite Hf, repeat_length, length_map; congruence).
    destruct (score_terms_spec log (BM25Okapi_init docs p1 pb)
                query_terms _ Hlen) as [H1 H2].
    rewrite repeat_length in H1, H2. split; [exact H1 |].
    intros i Hi. rewrite (H2 i Hi), nth_repeat. unfold bm25_formula.
    clear H1 H2 Hlen. generalize (0 : Qc).
    induction query_terms as [| t q IH]; intros acc; simpl; [reflexivity |].
    rewrite term_part_formula by lia. apply IH.
Qed.

(** X1. The tables that [BM25Okapi.__init__] builds hold the counts they
    are named for: [doc_freqs[i]] gives for each term the number of its
    occurrences in document [i], [term_doc_freq] the number of documents
    that contain the term, never more than [corpus_size], which is the
    number of documents. *)
Theorem index_tables_count
        (docs : list (list string)) (p1 pb : float) (t : string) (i : nat) :
  corpus_size (BM25Okapi_init docs p1 pb) = List.length docs /\
  List.length (doc_freqs (BM25Okapi_init docs p1 pb)) = List.length docs /\
  dict_get String.eqb (nth i (doc_freqs (BM25Okapi_init docs p1 pb)) [])
           t 0%nat
  = count_occ string_dec (nth i docs []) t /\
  dict_get String.eqb (term_doc_freq (BM25Okapi_init docs p1 pb)) t 0%nat
  = List.length
      (filter (fun doc => (0 <? count_occ string_dec doc t)%nat) docs) /\
  (dict_get String.eqb (term_doc_freq (BM25Okapi_init docs p1 pb)) t 0
   <= corpus_size (BM25Okapi_init docs p1 pb))%nat.
Proof.
  destruct (BM25Okapi_init_fields docs p1 pb)
    as [_ [Hn [_ [_ [_ [Hf Hd]]]]]].
  rewrite Hn, Hf, Hd, length_map.
  repeat split; try reflexivity.
  - change [] with (Counter []) at 1. rewrite map_nth. apply Counter_get.
  - apply df_le_N.
Qed.

(** X2. Query terms that occur in no document of the corpus have no
    effect: the scores of a query are the scores of the query without
    them. *)
Theorem unknown_terms_are_ignored
        (log : float -> float) (docs : list (list string)) (p1 pb : float)
        (query_terms : list string) :
  get_scores log (BM25Okapi_init docs p1 pb) query_terms
  = get_scores log (BM25Okapi_init docs p1 pb)
      (filter (occurs docs) query_terms).
Proof.
  destruct (BM25Okapi_init_fields docs p1 pb)
    as [_ [_ [_ [_ [_ [_ Hd]]]]]].
  unfold get_scores.
  destruct (corpus_size (BM25Okapi_init docs p1 pb)) as [| n];
    [reflexivity |].
  generalize (repeat (0 : Qc) (S n)).
  induction query_terms as [| t q IH]; intros scores; simpl; [reflexivity |].
  destruct (occurs docs t) eqn:E; simpl; [apply IH |].
  rewrite <- IH. f_equal. unfold score_term.
  rewrite Hd, (proj2 (df_occurs docs t) E). reflexivity.
Qed.

Lemma Qc_mult_pos (x y : Qc) : 0 < x -> 0 < y -> 0 < x * y.
Proof.
  intros Hx Hy. replace (0 : Qc) with (0 * y) by ring.
  now apply Qcmult_lt_compat_r.
Qed.

Lemma Qc_inv_pos (x : Qc) : 0 < x -> 0 < / x.
Proof.
  intros Hx.
  assert (Hne : x <> 0) by (intros E; rewrite E in Hx; discriminate Hx).
  destruct (Qcle_lt_or_eq _ _ (Qc_inv_nonneg (Qclt_le_weak _ _ Hx)))
    as [H | H]; [exact H |].
  exfalso. apply Q_apart_0_1. rewrite <- (Qcmult_inv_l x Hne), <- H. ring.
Qed.

Lemma Qc_plus_pos_nonneg (x y : Qc) : 0 < x -> 0 <= y -> 0 < x + y.
Proof.
  intros Hx Hy. eapply Qclt_le_trans; [exact Hx |].
  replace x with (x + 0) at 1 by ring.
  apply Qcplus_le_compat; [apply Qcle_refl | exact Hy].
Qed.

Lemma Qc_lt_plus_pos (x y : Qc) : 0 < y -> x < x + y.
Proof.
  intros Hy. apply Qclt_minus_iff.
  replace (x + y + - x) with y by ring. exact Hy.
Qed.

Lemma half_pos : 0 < half.
Proof. reflexivity. Qed.

Section Score_sign.
Variable log : float -> float.
Variable docs : list (list string).
Variables p1 pb : float.

Hypothesis log_pos : forall x, 1 < x -> 0 < log x.
Hypothesis p1_nonneg : 0 <= p1.
Hypothesis pb_nonneg : 0 <= pb.
Hypothesis pb_le_1 : pb <= 1.

Lemma idf_pos t : 0 < idf log docs t.
Proof.
  unfold idf. apply log_pos. apply Qc_lt_plus_pos.
  unfold Qcdiv. apply Qc_mult_pos.
  - apply Qclt_le_trans with (y := half); [exact half_pos |].
    replace half with (0 + half) at 1 by ring.
    apply Qcplus_le_compat; [| apply Qcle_refl].
    unfold Qcminus. apply (proj1 (Qcle_minus_iff _ _)).
    apply float_of_nat_le. unfold N_docs. apply df_le_N.
  - apply Qc_inv_pos. rewrite Qcplus_comm.
    apply Qc_plus_pos_nonneg; [exact half_pos | apply float_of_nat_nonneg].
Qed.

Lemma term_contribution_sign t i :
  0 <= term_contribution log docs p1 pb t i /\
  (0 < term_contribution log docs p1 pb t i -> In t (nth i docs [])) /\
  (In t (nth i docs []) -> 0 < term_contribution log docs p1 pb t i).
Proof.
  unfold term_contribution.
  assert (Hdenom :
            (0 < tf docs t i)%nat ->
            0 < (if Qc_eq_dec (avgLen docs) 0
                 then float_of_nat (tf docs t i) + p1
                 else float_of_nat (tf docs t i)
                      + p1 * (1 - pb + pb * float_of_nat (len docs i)
                                       / avgLen docs))).
  { intros Htf.
    pose proof (score_denominator_positive docs (len docs i)
                  p1_nonneg pb_nonneg pb_le_1 Htf) as H.
    unfold truthy, Qc_eq_bool in H.
    destruct (Qc_eq_dec (avgLen docs) 0); exact H. }
  destruct (Nat.eq_dec (tf docs t i) 0) as [Hz | Hnz].
  - assert (Hzero : forall x y : Qc,
               x * (float_of_nat (tf docs t i) * (p1 + 1) / y) = 0).
    { intros x y. rewrite Hz. replace (float_of_nat 0) with (0 : Qc)
        by reflexivity. unfold Qcdiv. ring. }
    assert (Hnot : ~ In t (nth i docs [])).
    { intros Hin. apply (count_occ_In string_dec) in Hin.
      unfold tf in Hz. lia. }
    destruct (df docs t).
    + split; [apply Qcle_refl |]. split; [discriminate | contradiction].
    + rewrite Hzero. split; [apply Qcle_refl |].
      split; [discriminate | contradiction].
  - assert (Htf : (0 < tf docs t i)%nat) by lia.
    assert (Hin : In t (nth i docs [])).
    { apply (count_occ_In string_dec). unfold tf in Htf. lia. }
    pose proof (df_of_member docs t i Hin) as Hdf.
    destruct (df docs t) as [| n] eqn:Edf; [lia |].
    assert (Hpos :
              0 < idf log docs t
                  * (float_of_nat (tf docs t i) * (p1 + 1)
                     / (if Qc_eq_dec (avgLen docs) 0
                        then float_of_nat (tf docs t i) + p1
                        else float_of_nat (tf docs t i)
                             + p1 * (1 - pb
                                     + pb * float_of_nat (len docs i)
                                       / avgLen docs)))).
    { apply Qc_mult_pos; [apply idf_pos |].
      unfold Qcdiv at 1. apply Qc_mult_pos.
      - apply Qc_mult_pos; [now apply float_of_nat_pos |].
        rewrite Qcplus_comm. apply Qc_plus_pos_nonneg;
          [reflexivity | exact p1_nonneg].
      - apply Qc_inv_pos. now apply Hdenom. }
    split; [now apply Qclt_le_weak |]. split; intros _; assumption.
Qed.

Lemma bm25_sum_sign i query_terms acc :
  0 <= acc ->
  0 <= fold_left (fun a t => a + term_contribution log docs p1 pb t i)
         query_terms acc /\
  (0 < fold_left (fun a t => a + term_contribution log docs p1 pb t i)
         query_terms acc
   <-> 0 < acc \/ exists t, In t query_terms /\ In t (nth i docs [])).
Proof.
  revert acc. induction query_terms as [| t q IH]; intros acc Hacc; simpl.
  - split; [exact Hacc |]. split; [now left |].
    intros [H | [t [[] _]]]. exact H.
  - destruct (term_contribution_sign t i) as [Hc0 [Hc1 Hc2]].
    destruct (IH (acc + term_contribution log docs p1 pb t i)
                 (Qc_plus_nonneg Hacc Hc0)) as [H1 H2].
    split; [exact H1 |]. rewrite H2. split.
    + intros [H | [t' [Ht' Hin]]].
      * destruct (Qclt_le_dec 0 acc) as [Hpos | Hle]; [now left |].
        right. exists t. split; [now left |]. apply Hc1.
        assert (E : acc = 0) by (apply Qcle_antisym; assumption).
        rewrite E in H. replace (0 + term_contribution log docs p1 pb t i)
          with (term_contribution log docs p1 pb t i) in H by ring.
        exact H.
      * right. exists t'. split; [now right | exact Hin].
    + intros [H | [t' [[<- | Ht'] Hin]]].
      * left. now apply Qc_plus_pos_nonneg.
      * left. rewrite Qcplus_comm. apply Qc_plus_pos_nonneg;
          [now apply Hc2 | exact Hacc].
      * right. exists t'. now split.
Qed.
End Score_sign.

(** X3. With a logarithm that is positive above 1, [k1 >= 0] and
    [0 <= b <= 1] (the parameters 1.5 and 0.75 of the program among
    them), no lexical score is negative, and the score of a document is
    positive exactly when the document contains one of the query terms. *)
Theorem lexical_score_sign
        (log : float -> float) (docs : list (list string)) (p1 pb : float)
        (query_terms : list string) (i : nat) :
  (forall x, 1 < x -> 0 < log x) ->
  0 <= p1 -> 0 <= pb -> pb <= 1 ->
  (i < List.length docs)%nat ->
  0 <= nth i (get_scores log (BM25Okapi_init docs p1 pb) query_terms) 0 /\
  (0 < nth i (get_scores log (BM25Okapi_init docs p1 pb) query_terms) 0
   <-> exists t, In t query_terms /\ In t (nth i docs [])).
Proof.
  intros Hlog H1 Hb0 Hb1 Hi.
  destruct (get_scores_built log docs p1 pb query_terms) as [_ Hnth].
  rewrite (Hnth i Hi). unfold bm25_formula.
  destruct (@bm25_sum_sign log docs p1 pb Hlog H1 Hb0 Hb1 i query_terms 0
              (Qcle_refl 0)) as [Hge Hiff].
  split; [exact Hge |]. rewrite Hiff. split.
  - intros [H | H]; [discriminate H | exact H].
  - intros H. now right.
Qed.

Lemma demo_log_pos (x : Qc) : 1 < x -> 0 < demo_log x.
Proof.
  intros H. unfold demo_log, Qcminus. now apply Qclt_minus_iff in H.
Qed.

Lemma lexical_score_sign_witness :
  0 <= nth 0 (get_scores demo_log
                (BM25Okapi_init demo_corpus default_k1 default_b)
                ["fast"; "gpu"]%string) 0 /\
  (0 < nth 0 (get_scores demo_log
                (BM25Okapi_init demo_corpus default_k1 default_b)
                ["fast"; "gpu"]%string) 0
   <-> exists t, In t ["fast"; "gpu"]%string /\ In t (nth 0 demo_corpus [])).
Proof.
  apply (@lexical_score_sign demo_log demo_corpus default_k1 default_b
           ["fast"; "gpu"]%string 0%nat).
  - exact demo_log_pos.
  - discriminate.
  - discriminate.
  - discriminate.
  - simpl. lia.
Defined.

(** ** The lexical task *)

Lemma getitem_Ok (A : Type) (l : list A) (idx : nat) (a d : A) :
  getitem l idx = Ok a -> (idx < List.length l)%nat /\ nth idx l d = a.
Proof.
  unfold getitem. destruct (nth_error l idx) as [x |] eqn:E;
    [| discriminate].
  intros H. injection H as <-. split.
  - apply nth_error_Some. congruence.
  - now apply nth_error_nth.
Qed.

(** What the loop of [_bm25_search] returns, when it returns. *)
Lemma collect_positive_Ok (docs : list Document) (scores : list float)
      (idxs : list nat) (acc out : list ResultTuple) :
  collect_positive docs scores idxs acc = Ok out ->
  out = acc ++ map (tuple_at docs scores) (filter (positive_at scores) idxs)
  /\ Forall (fun idx => (idx < List.length docs)%nat)
            (filter (positive_at scores) idxs).
Proof.
  revert acc. induction idxs as [| idx rest IH]; intros acc H; simpl in *.
  - injection H as <-. split; [now rewrite app_nil_r | constructor].
  - destruct (getitem scores idx) as [s |] eqn:Es; simpl in H;
      [| discriminate].
    destruct (getitem_Ok scores idx 0 Es) as [_ Hs].
    assert (Hpos : positive_at scores idx = Qcltb 0 s)
      by (unfold positive_at; now rewrite Hs).
    rewrite Hpos. destruct (Qcltb 0 s).
    + destruct (getitem docs idx) as [d |] eqn:Ed; simpl in H;
        [| discriminate].
      destruct (getitem_Ok docs idx (mkDocument EmptyString []) Ed)
        as [Hlt Hd].
      destruct (IH _ H) as [Hout Hrange]. split.
      * rewrite Hout, <- app_assoc. simpl. unfold tuple_at at 2.
        now rewrite Hd, Hs.
      * constructor; assumption.
    + now apply IH.
Qed.

(** The loop returns when no index is out of range. *)
Lemma collect_positive_total (docs : list Document) (scores : list float)
      (idxs : list nat) (acc : list ResultTuple) :
  (List.length scores <= List.length docs)%nat ->
  Forall (fun idx => (idx < List.length scores)%nat) idxs ->
  exists out, collect_positive docs scores idxs acc = Ok out.
Proof.
  intros Hlen Hrange. revert acc.
  induction Hrange as [| idx rest Hidx _ IH]; intros acc; simpl.
  - now exists acc.
  - unfold getitem.
    destruct (nth_error scores idx) as [s |] eqn:Es;
      [| apply nth_error_None in Es; lia].
    simpl. destruct (Qcltb 0 s); [| apply IH].
    destruct (nth_error docs idx) as [d |] eqn:Ed;
      [| apply nth_error_None in Ed; lia].
    simpl. apply IH.
Qed.

Section Lexical_task.
Variable log : float -> float.
Variable argsort : list float -> list nat.
Variable collection_get : result GetResult.

Lemma build_aligned self self' :
  _build_bm25_index collection_get self = Ok self' -> aligned self'.
Proof.
  unfold _build_bm25_index. destruct collection_get as [g | e]; simpl;
    [| discriminate].
  intros H. injection H as <-. unfold aligned. simpl. reflexivity.
Qed.

(** [_bm25_search] keeps the index and the documents of the object in
    step. *)
Lemma bm25_search_aligned self query top_k :
  aligned self ->
  aligned (fst (_bm25_search log argsort collection_get self query top_k)).
Proof.
  intros H. unfold _bm25_search.
  destruct (bm25_index self) as [index |] eqn:E; [exact H |].
  destruct (_build_bm25_index collection_get self) as [self' | e] eqn:Eb;
    simpl; [| exact H].
  now apply (build_aligned self).
Qed.

(** What [_bm25_search] returns, when it returns. *)
Lemma bm25_search_Ok_inv self query top_k b :
  snd (_bm25_search log argsort collection_get self query top_k) = Ok b ->
  exists index,
    bm25_index
      (fst (_bm25_search log argsort collection_get self query top_k))
    = Some index /\
    b = map (tuple_at
               (documents
                  (fst (_bm25_search log argsort collection_get
                          self query top_k)))
               (get_scores log index (split (lower query))))
            (filter
               (positive_at (get_scores log index (split (lower query))))
               (rev (slice_from (- top_k)
                       (argsort
                          (get_scores log index (split (lower query)))))))
    /\
    Forall
      (fun idx =>
         (idx < List.length
                  (documents
                     (fst (_bm25_search log argsort collection_get
                             self query top_k))))%nat)
      (filter
         (positive_at (get_scores log index (split (lower query))))
         (rev (slice_from (- top_k)
                 (argsort (get_scores log index (split (lower query))))))).
Proof.
  unfold _bm25_search.
  destruct (match bm25_index self with
            | Some _ => Ok self
            | None => _build_bm25_index collection_get self
            end) as [self' | e]; simpl; [| discriminate].
  unfold bm25_ranked. destruct (bm25_index self') as [index |];
    [| discriminate].
  intros H. exists index. split; [reflexivity |].
  now apply collect_positive_Ok in H.
Qed.
End Lexical_task.

Lemma bm25_formula_nonzero (log : float -> float) (docs : list (list string))
      (p1 pb : float) (query_terms : list string) (i : nat) :
  bm25_formula log docs p1 pb query_terms i <> 0 ->
  exists t, In t query_terms /\ In t (nth i docs []).
Proof.
  unfold bm25_formula.
  assert (H : forall acc,
             fold_left
               (fun a t => a + term_contribution log docs p1 pb t i)
               query_terms acc <> acc ->
             exists t, In t query_terms /\ In t (nth i docs [])).
  { induction query_terms as [| t q IH]; intros acc H; simpl in H.
    - congruence.
    - destruct (in_dec string_dec t (nth i docs [])) as [Hin | Hnot].
      + exists t. split; [now left | exact Hin].
      + assert (E : acc + term_contribution log docs p1 pb t i = acc).
        { unfold term_contribution, tf.
          rewrite (proj1 (count_occ_not_In string_dec _ t) Hnot).
          destruct (df docs t); [ring |].
          replace (float_of_nat 0) with (0 : Qc) by reflexivity.
          unfold Qcdiv. ring. }
        rewrite E in H. destruct (IH acc H) as [t' [Ht' Hin']].
        exists t'. split; [now right | exact Hin']. }
  apply H.
Qed.

Lemma positive_at_lt (scores : list float) (idx : nat) :
  positive_at scores idx = true -> 0 < nth idx scores 0.
Proof.
  unfold positive_at. now destruct (Qcltb_spec 0 (nth idx scores 0)).
Qed.

(** X4. Every tuple that the lexical task returns is a document of the
    object, with its own metadata, has a positive score, and contains at
    least one token of the query (both lower-cased and split on white
    space), whatever [argsort] does. *)
Theorem lexical_results_match
        (log : float -> float) (argsort : list float -> list nat)
        (collection_get : result GetResult)
        (self : HybridSearch) (query : string) (top_k : Z)
        (b : list ResultTuple) :
  aligned self ->
  snd (_bm25_search log argsort collection_get self query top_k) = Ok b ->
  Forall
    (fun t =>
       0 < tuple_score t /\
       In (mkDocument (tuple_content t) (tuple_metadata t))
          (documents
             (fst (_bm25_search log argsort collection_get
                     self query top_k))) /\
       exists token,
         In token (split (lower query)) /\
         In token (split (lower (tuple_content t))))
    b.
Proof.
  intros Hal Hb.
  pose proof (@bm25_search_aligned log argsort collection_get
                self query top_k Hal) as Hal'.
  destruct (@bm25_search_Ok_inv log argsort collection_get
              self query top_k b Hb)
    as [index [Hidx [-> Hrange]]].
  unfold aligned in Hal'. rewrite Hidx in Hal'. subst index.
  set (docs := documents
                 (fst (_bm25_search log argsort collection_get
                         self query top_k))) in *.
  set (scores := get_scores log
                   (BM25Okapi_init (map tokens_of docs)
                      default_k1 default_b)
                   (split (lower query))) in *.
  apply Forall_forall. intros t Ht. apply in_map_iff in Ht.
  destruct Ht as [idx [<- Hin]].
  rewrite Forall_forall in Hrange. pose proof (Hrange idx Hin) as Hlt.
  apply filter_In in Hin. destruct Hin as [_ Hpos].
  apply positive_at_lt in Hpos.
  split; [exact Hpos |]. split.
  - unfold tuple_at, tuple_content, tuple_metadata. simpl.
    destruct (nth idx docs (mkDocument EmptyString [])) as [c m] eqn:E.
    simpl. rewrite <- E. now apply nth_In.
  - destruct (get_scores_built log (map tokens_of docs)
                default_k1 default_b (split (lower query))) as [_ Hnth].
    fold scores in Hnth.
    assert (Hlt' : (idx < List.length (map tokens_of docs))%nat)
      by now rewrite length_map.
    rewrite (Hnth idx Hlt') in Hpos.
    destruct (@bm25_formula_nonzero log (map tokens_of docs)
                default_k1 default_b (split (lower query)) idx)
      as [token [Hq Hd]].
    { intros E. rewrite E in Hpos. discriminate Hpos. }
    exists token. split; [exact Hq |].
    change [] with (tokens_of (mkDocument EmptyString [])) in Hd.
    rewrite map_nth in Hd. exact Hd.
Qed.

Lemma lexical_results_match_witness :
  exists b,
    ranked_contents (Ok b) = Ok ["the gpu is fast"%string] /\
    Forall
      (fun t =>
         0 < tuple_score t /\
         In (mkDocument (tuple_content t) (tuple_metadata t))
            (documents
               (fst (_bm25_search demo_log demo_argsort demo_collection_get
                       HybridSearch_init "Fast GPU" 2))) /\
         exists token,
           In token (split (lower "Fast GPU")) /\
           In token (split (lower (tuple_content t))))
      b.
Proof.
  eexists. split.
  2: { apply (@lexical_results_match demo_log demo_argsort
                demo_collection_get HybridSearch_init "Fast GPU" 2%Z).
       - exact I.
       - vm_compute. reflexivity. }
  reflexivity.
Defined.

Lemma slice_from_last_length (A : Type) (k : Z) (l : list A) :
  (1 <= k)%Z -> (Z.of_nat (List.length (slice_from (- k) l)) <= k)%Z.
Proof.
  intros Hk. unfold slice_from.
  destruct (Z.ltb_spec (- k) 0) as [_ | Hge]; [| lia].
  rewrite length_skipn. lia.
Qed.

(** X5. For [top_k >= 1] the lexical task returns at most [top_k]
    tuples. *)
Theorem lexical_results_at_most_top_k
        (log : float -> float) (argsort : list float -> list nat)
        (collection_get : result GetResult)
        (self : HybridSearch) (query : string) (top_k : Z)
        (b : list ResultTuple) :
  (1 <= top_k)%Z ->
  snd (_bm25_search log argsort collection_get self query top_k) = Ok b ->
  (Z.of_nat (List.length b) <= top_k)%Z.
Proof.
  intros Htop Hb.
  destruct (@bm25_search_Ok_inv log argsort collection_get
              self query top_k b Hb) as [index [_ [-> _]]].
  rewrite length_map.
  match goal with
  | |- (Z.of_nat (List.length (filter ?f (rev ?l))) <= _)%Z =>
      pose proof (filter_length_le f (rev l)) as H1;
      pose proof (length_rev l) as H2
  end.
  pose proof (slice_from_last_length
                (argsort (get_scores log index (split (lower query))))
                Htop) as H3.
  lia.
Qed.

Lemma lexical_results_at_most_top_k_witness :
  exists b,
    snd (_bm25_search demo_log demo_argsort demo_collection_get
           HybridSearch_init "the" 1) = Ok b /\
    ranked_contents (Ok b) = Ok ["the cpu is slow"%string] /\
    (Z.of_nat (List.length b) <= 1)%Z.
Proof.
  eexists. split; [vm_compute; reflexivity |].
  split; [reflexivity |].
  apply (@lexical_results_at_most_top_k demo_log demo_argsort
           demo_collection_get HybridSearch_init "the" 1%Z);
    [lia | vm_compute; reflexivity].
Defined.

(** The defaults 1.5 and 0.75 are in the range of the sign lemmas. *)
Lemma default_parameters_range :
  0 <= default_k1 /\ 0 <= default_b /\ default_b <= 1.
Proof. repeat split; discriminate. Qed.

(** X6. [top_k = 0] does not mean no lexical result: the slice
    [[-0:]] keeps every index, so the lexical task returns every document
    that contains a token of the query. (The logarithm is positive above
    1 and [argsort] returns every index of its array.) *)
Theorem lexical_top_k_zero_returns_all
        (log : float -> float) (argsort : list float -> list nat)
        (collection_get : result GetResult)
        (self : HybridSearch) (query : string) (b : list ResultTuple)
        (d : Document) (token : string) :
  (forall x, 1 < x -> 0 < log x) ->
  (forall s idx, (idx < List.length s)%nat -> In idx (argsort s)) ->
  aligned self ->
  snd (_bm25_search log argsort collection_get self query 0) = Ok b ->
  In d (documents
          (fst (_bm25_search log argsort collection_get self query 0))) ->
  In token (split (lower query)) ->
  In token (tokens_of d) ->
  In (doc_content d, doc_metadata d) (map strip b).
Proof.
  intros Hlog Hall Hal Hb Hd Hq Htok.
  pose proof (@bm25_search_aligned log argsort collection_get
                self query 0%Z Hal) as Hal'.
  destruct (@bm25_search_Ok_inv log argsort collection_get
              self query 0%Z b Hb) as [index [Hidx [-> _]]].
  unfold aligned in Hal'. rewrite Hidx in Hal'. subst index.
  set (docs := documents
                 (fst (_bm25_search log argsort collection_get
                         self query 0))) in *.
  set (scores := get_scores log
                   (BM25Okapi_init (map tokens_of docs)
                      default_k1 default_b)
                   (split (lower query))) in *.
  destruct (In_nth docs d (mkDocument EmptyString []) Hd) as [idx [Hlt Hnth]].
  destruct (get_scores_built log (map tokens_of docs)
              default_k1 default_b (split (lower query))) as [Hlen Hsc].
  fold scores in Hlen, Hsc. rewrite length_map in Hlen, Hsc.
  destruct default_parameters_range as [Hk [Hb0 Hb1]].
  assert (Hpos : 0 < nth idx scores 0).
  { rewrite (Hsc idx Hlt). unfold bm25_formula.
    apply (@bm25_sum_sign log (map tokens_of docs) default_k1 default_b
             Hlog Hk Hb0 Hb1 idx (split (lower query)) 0 (Qcle_refl 0)).
    right. exists token. split; [exact Hq |].
    change [] with (tokens_of (mkDocument EmptyString [])).
    now rewrite map_nth, Hnth. }
  rewrite map_map. apply in_map_iff. exists idx. split.
  - unfold strip, tuple_at, tuple_content, tuple_metadata. simpl.
    now rewrite Hnth.
  - apply filter_In. split.
    + apply -> in_rev. unfold slice_from. simpl. apply Hall. lia.
    + unfold positive_at. now destruct (Qcltb_spec 0 (nth idx scores 0)).
Qed.

Lemma insert_asc_member (scores : list float) (i x : nat) (l : list nat) :
  x = i \/ In x l -> In x (insert_asc scores i l).
Proof.
  induction l as [| j t IH]; simpl.
  - intros [-> | []]. now left.
  - destruct (Qcltb (nth j scores 0) (nth i scores 0)); simpl.
    + intros [-> | [-> | H]]; [right; apply IH; now left | now left |].
      right. apply IH. now right.
    + intros [-> | H]; [now left | now right].
Qed.

Lemma demo_argsort_all (s : list float) (idx : nat) :
  (idx < List.length s)%nat -> In idx (demo_argsort s).
Proof.
  intros H. unfold demo_argsort.
  assert (Hin : In idx (seq 0 (List.length s))) by (apply in_seq; lia).
  revert Hin. generalize (seq 0 (List.length s)).
  induction l as [| i l IH]; simpl; [tauto |].
  intros [-> | Hin]; apply insert_asc_member; [now left |].
  right. now apply IH.
Qed.

Lemma lexical_top_k_zero_returns_all_witness :
  exists b,
    snd (_bm25_search demo_log demo_argsort demo_collection_get
           HybridSearch_init "the" 0) = Ok b /\
    List.length b = 2%nat /\
    In ("the gpu is fast"%string, meta_page "1") (map strip b).
Proof.
  eexists. split; [vm_compute; reflexivity |].
  split; [reflexivity |].
  apply (@lexical_top_k_zero_returns_all demo_log demo_argsort
           demo_collection_get HybridSearch_init "the" _
           (mkDocument "the gpu is fast" (meta_page "1")) "the").
  - exact demo_log_pos.
  - exact demo_argsort_all.
  - exact I.
  - vm_compute. reflexivity.
  - vm_compute. left. reflexivity.
  - vm_compute. left. reflexivity.
  - vm_compute. left. reflexivity.
Defined.

(** X7. On an object whose index and documents are in step, with an
    index already built or a store that can be read, and an [argsort]
    that returns indices of its array, the lexical task returns a list: no
    index is out of range. *)
Theorem lexical_task_returns
        (log : float -> float) (argsort : list float -> list nat)
        (collection_get : result GetResult)
        (self : HybridSearch) (query : string) (top_k : Z) :
  (forall s, Forall (fun i => (i < List.length s)%nat) (argsort s)) ->
  aligned self ->
  bm25_index self <> None \/ (exists g, collection_get = Ok g) ->
  exists b,
    snd (_bm25_search log argsort collection_get self query top_k) = Ok b.
Proof.
  intros Hrange Hal Hidx.
  pose proof (@bm25_search_aligned log argsort collection_get
                self query top_k Hal) as Hal'.
  revert Hal'. unfold _bm25_search.
  assert (Hbuilt :
            exists self',
              match bm25_index self with
              | Some _ => Ok self
              | None => _build_bm25_index collection_get self
              end = Ok self' /\ bm25_index self' <> None).
  { destruct (bm25_index self) as [index |] eqn:E.
    - exists self. split; [reflexivity | congruence].
    - destruct Hidx as [H | [g Hg]]; [congruence |].
      unfold _build_bm25_index. rewrite Hg. simpl.
      eexists. split; [reflexivity |]. simpl. discriminate. }
  destruct Hbuilt as [self' [-> Hsome]]. simpl. intros Hal'.
  unfold bm25_ranked. unfold aligned in Hal'.
  destruct (bm25_index self') as [index |]; [| congruence]. subst index.
  apply collect_positive_total.
  - destruct (get_scores_built log (map tokens_of (documents self'))
                default_k1 default_b (split (lower query))) as [Hlen _].
    rewrite Hlen, length_map. lia.
  - apply Forall_rev, Forall_slice_from, Hrange.
Qed.

Lemma lexical_task_returns_witness :
  exists b,
    snd (_bm25_search demo_log demo_argsort demo_collection_get
           HybridSearch_init "fast gpu" 2) = Ok b.
Proof.
  apply (@lexical_task_returns demo_log demo_argsort demo_collection_get
           HybridSearch_init "fast gpu" 2%Z).
  - exact demo_argsort_range.
  - exact I.
  - right. exists (mkGetResult demo_contents demo_metadatas). reflexivity.
Defined.

Lemma ForallOrdPairs_app (A : Type) (R : A -> A -> Prop) (l1 l2 : list A) :
  ForallOrdPairs R l1 -> ForallOrdPairs R l2 ->
  (forall x y, In x l1 -> In y l2 -> R x y) ->
  ForallOrdPairs R (l1 ++ l2).
Proof.
  intros H1 H2 H12. induction H1 as [| a l Ha _ IH]; simpl; [exact H2 |].
  constructor.
  - apply Forall_app. split; [exact Ha |].
    apply Forall_forall. intros y Hy. apply H12; [now left | exact Hy].
  - apply IH. intros x y Hx Hy. apply H12; [now right | exact Hy].
Qed.

Lemma ForallOrdPairs_rev (A : Type) (R : A -> A -> Prop) (l : list A) :
  ForallOrdPairs R l -> ForallOrdPairs (fun x y => R y x) (rev l).
Proof.
  induction 1 as [| a l Ha _ IH]; simpl; [constructor |].
  apply ForallOrdPairs_app; [exact IH | repeat constructor |].
  intros x y Hx [<- | []]. rewrite Forall_forall in Ha.
  apply Ha. now apply in_rev.
Qed.

Lemma ForallOrdPairs_filter (A : Type) (R : A -> A -> Prop)
      (f : A -> bool) (l : list A) :
  ForallOrdPairs R l -> ForallOrdPairs R (filter f l).
Proof.
  induction 1 as [| a l Ha _ IH]; simpl; [constructor |].
  destruct (f a); [| exact IH]. constructor; [| exact IH].
  rewrite Forall_forall in *. intros y Hy. apply Ha.
  apply filter_In in Hy. tauto.
Qed.

Lemma ForallOrdPairs_map (A B : Type) (R : B -> B -> Prop) (f : A -> B)
      (l : list A) :
  ForallOrdPairs (fun x y => R (f x) (f y)) l ->
  ForallOrdPairs R (map f l).
Proof.
  induction 1 as [| a l Ha _ IH]; simpl; constructor; [| exact IH].
  rewrite Forall_forall in *. intros y Hy. apply in_map_iff in Hy.
  destruct Hy as [x [<- Hx]]. now apply Ha.
Qed.

Lemma ForallOrdPairs_skipn (A : Type) (R : A -> A -> Prop) (n : nat)
      (l : list A) :
  ForallOrdPairs R l -> ForallOrdPairs R (skipn n l).
Proof.
  revert l. induction n as [| n IH]; intros l H; simpl; [exact H |].
  destruct H as [| a l _ Hl]; [constructor | now apply IH].
Qed.

(** X8. When [argsort] returns its indices in ascending order of the
    values, the lexical task returns its tuples in descending order of
    their scores. *)
Theorem lexical_results_descending
        (log : float -> float) (argsort : list float -> list nat)
        (collection_get : result GetResult)
        (self : HybridSearch) (query : string) (top_k : Z)
        (b : list ResultTuple) :
  (forall s,
      ForallOrdPairs (fun i j => nth i s 0 <= nth j s 0) (argsort s)) ->
  snd (_bm25_search log argsort collection_get self query top_k) = Ok b ->
  ForallOrdPairs (fun t1 t2 => tuple_score t2 <= tuple_score t1) b.
Proof.
  intros Hasc Hb.
  destruct (@bm25_search_Ok_inv log argsort collection_get
              self query top_k b Hb) as [index [_ [-> _]]].
  apply ForallOrdPairs_map, ForallOrdPairs_filter.
  apply (ForallOrdPairs_rev
           (R := fun i j =>
                   nth i (get_scores log index (split (lower query))) 0
                   <= nth j (get_scores log index (split (lower query))) 0)).
  unfold slice_from.
  destruct (- top_k <? 0)%Z; apply ForallOrdPairs_skipn, Hasc.
Qed.

Lemma insert_asc_sorted (scores : list float) (i : nat) (l : list nat) :
  ForallOrdPairs (fun a c => nth a scores 0 <= nth c scores 0) l ->
  ForallOrdPairs (fun a c => nth a scores 0 <= nth c scores 0)
                 (insert_asc scores i l).
Proof.
  induction 1 as [| j t Hj Ht IH]; simpl.
  - repeat constructor.
  - destruct (Qcltb_spec (nth j scores 0) (nth i scores 0)) as [Hlt | Hge].
    + constructor; [| exact IH]. apply Forall_forall. intros z Hz.
      apply insert_asc_In in Hz. destruct Hz as [-> | Hz].
      * now apply Qclt_le_weak.
      * rewrite Forall_forall in Hj. now apply Hj.
    + apply Qcnot_lt_le in Hge. constructor; [| constructor; assumption].
      constructor; [exact Hge |]. rewrite Forall_forall in *.
      intros z Hz. eapply Qcle_trans; [exact Hge | now apply Hj].
Qed.

Lemma demo_argsort_ascending (s : list float) :
  ForallOrdPairs (fun i j => nth i s 0 <= nth j s 0) (demo_argsort s).
Proof.
  unfold demo_argsort. generalize (seq 0 (List.length s)).
  induction l as [| i l IH]; simpl; [constructor |].
  now apply insert_asc_sorted.
Qed.

Lemma lexical_results_descending_witness :
  exists b,
    snd (_bm25_search demo_log demo_argsort demo_collection_get
           HybridSearch_init "the gpu" 3) = Ok b /\
    ranked_contents (Ok b) = Ok ["the gpu is fast"; "the cpu is slow"]%string
    /\ ForallOrdPairs (fun t1 t2 => tuple_score t2 <= tuple_score t1) b.
Proof.
  eexists. split; [vm_compute; reflexivity |].
  split; [reflexivity |].
  apply (@lexical_results_descending demo_log demo_argsort
           demo_collection_get HybridSearch_init "the gpu" 3%Z);
    [exact demo_argsort_ascending | vm_compute; reflexivity].
Defined.

(** X9. Once the index is there, the store is no longer read: after a
    call that found or built the index, a later lexical search gives the
    same ranking and leaves the same object whatever the store holds by
    then, so documents added to the store later are not found. *)
Theorem index_is_never_rebuilt
        (log : float -> float) (argsort : list float -> list nat)
        (collection_get collection_get' : result GetResult)
        (self : HybridSearch) (query query' : string) (top_k top_k' : Z) :
  bm25_index self <> None \/ (exists g, collection_get = Ok g) ->
  _bm25_search log argsort collection_get'
    (fst (_bm25_search log argsort collection_get self query top_k))
    query' top_k'
  = _bm25_search log argsort collection_get
      (fst (_bm25_search log argsort collection_get self query top_k))
      query' top_k' /\
  fst (_bm25_search log argsort collection_get'
         (fst (_bm25_search log argsort collection_get self query top_k))
         query' top_k')
  = fst (_bm25_search log argsort collection_get self query top_k).
Proof.
  intros Hidx.
  assert (Hsome :
            bm25_index
              (fst (_bm25_search log argsort collection_get
                      self query top_k)) <> None).
  { unfold _bm25_search. destruct (bm25_index self) as [index |] eqn:E.
    - simpl. congruence.
    - destruct Hidx as [H | [g Hg]]; [congruence |].
      unfold _build_bm25_index. rewrite Hg. simpl. discriminate. }
  revert Hsome.
  generalize (fst (_bm25_search log argsort collection_get
                     self query top_k)).
  intros self' Hsome. unfold _bm25_search.
  destruct (bm25_index self') as [index |]; [| congruence].
  split; reflexivity.
Qed.

Lemma index_is_never_rebuilt_witness :
  _bm25_search demo_log demo_argsort (Ok (mkGetResult [] []))
    (fst (_bm25_search demo_log demo_argsort demo_collection_get
            HybridSearch_init "gpu" 2))
    "cpu" 2
  = _bm25_search demo_log demo_argsort demo_collection_get
      (fst (_bm25_search demo_log demo_argsort demo_collection_get
              HybridSearch_init "gpu" 2))
      "cpu" 2 /\
  fst (_bm25_search demo_log demo_argsort (Ok (mkGetResult [] []))
         (fst (_bm25_search demo_log demo_argsort demo_collection_get
                 HybridSearch_init "gpu" 2))
         "cpu" 2)
  = fst (_bm25_search demo_log demo_argsort demo_collection_get
           HybridSearch_init "gpu" 2).
Proof.
  apply (@index_is_never_rebuilt demo_log demo_argsort
           demo_collection_get (Ok (mkGetResult [] []))
           HybridSearch_init "gpu" "cpu" 2%Z 2%Z).
  right. exists (mkGetResult demo_contents demo_metadatas). reflexivity.
Defined.

(** ** The fused list: size, growth with [top_k], overwriting *)

Lemma slice_to_length (A : Type) (stop : Z) (l : list A) :
  Z.of_nat (List.length (slice_to stop l))
  = if (stop <? 0)%Z
    then Z.max 0 (Z.of_nat (List.length l) + stop)
    else Z.min stop (Z.of_nat (List.length l)).
Proof.
  unfold slice_to. destruct (Z.ltb_spec stop 0); rewrite length_firstn; lia.
Qed.

Lemma sorted_keys_length (hash : string -> Z) (self : HybridSearch)
      (v b : list ResultTuple) (k : nat) :
  List.length (sorted_keys (rrf_scored hash self v b k))
  = distinct_keys hash v b.
Proof.
  unfold sorted_keys, distinct_keys.
  rewrite (Permutation_length (sorted_desc_perm _ _)).
  now rewrite rrf_scored_keys.
Qed.

Lemma first_seen_length_le (l : list Z) :
  (List.length (first_seen l) <= List.length l)%nat.
Proof.
  induction l as [| a l IH]; simpl; [lia |].
  pose proof (filter_length_le (fun y => negb (y =? a)%Z) (first_seen l)).
  lia.
Qed.

(** X10. The fused list has one entry for each distinct key of the two
    lists, cut by the slice [[:top_k]]: [min(top_k, n)] entries for
    [top_k >= 0] and, as a negative bound counts from the end,
    [max(0, n + top_k)] entries for [top_k < 0], where [n] is the number
    of distinct keys, at most [len(vector_results) + len(bm25_results)]. *)
Theorem fusion_length
        (hash : string -> Z) (self : HybridSearch)
        (v b : list ResultTuple) (top_k : Z) (k : nat) :
  Z.of_nat (List.length (_reciprocal_rank_fusion hash self v b top_k k))
  = (if (top_k <? 0)%Z
     then Z.max 0 (Z.of_nat (distinct_keys hash v b) + top_k)
     else Z.min top_k (Z.of_nat (distinct_keys hash v b))) /\
  (distinct_keys hash v b <= List.length v + List.length b)%nat.
Proof.
  split.
  - unfold _reciprocal_rank_fusion.
    now rewrite length_map, slice_to_length, sorted_keys_length.
  - unfold distinct_keys.
    pose proof (first_seen_length_le (map (tuple_key hash) (v ++ b))) as H.
    rewrite length_map, length_app in H. exact H.
Qed.

(** X11. Asking for more results only adds results at the end: for
    [0 <= top_k <= top_k'], the list fused with [top_k] is the first
    [top_k] entries of the list fused with [top_k']. *)
Theorem fusion_grows_with_top_k
        (hash : string -> Z) (self : HybridSearch)
        (v b : list ResultTuple) (top_k top_k' : Z) (k : nat) :
  (0 <= top_k <= top_k')%Z ->
  _reciprocal_rank_fusion hash self v b top_k k
  = firstn (Z.to_nat top_k)
           (_reciprocal_rank_fusion hash self v b top_k' k).
Proof.
  intros H. unfold _reciprocal_rank_fusion, slice_to.
  destruct (Z.ltb_spec top_k 0); [lia |].
  destruct (Z.ltb_spec top_k' 0); [lia |].
  rewrite firstn_map. f_equal. rewrite firstn_firstn. f_equal. lia.
Qed.

Lemma fusion_grows_with_top_k_witness :
  _reciprocal_rank_fusion code_hash HybridSearch_init
    demo_vector demo_lexical 1 RRF_K
  = firstn (Z.to_nat 1)
           (_reciprocal_rank_fusion code_hash HybridSearch_init
              demo_vector demo_lexical 3 RRF_K).
Proof.
  apply (@fusion_grows_with_top_k code_hash HybridSearch_init
           demo_vector demo_lexical 1%Z 3%Z RRF_K).
  lia.
Defined.

Lemma slice_to_all (A : Type) (stop : Z) (l : list A) :
  (Z.of_nat (List.length l) <= stop)%Z -> slice_to stop l = l.
Proof.
  intros H. unfold slice_to. destruct (Z.ltb_spec stop 0); [lia |].
  apply firstn_all2. lia.
Qed.

(** X12. When [top_k] is at least the number of distinct keys, in
    particular at least [len(vector_results) + len(bm25_results)], no
    entry of either list is dropped: each has a fused entry under its
    key. *)
Theorem fusion_keeps_every_key
        (hash : string -> Z) (self : HybridSearch)
        (v b : list ResultTuple) (top_k : Z) (k : nat) (t : ResultTuple) :
  (Z.of_nat (distinct_keys hash v b) <= top_k)%Z ->
  In t (v ++ b) ->
  exists r,
    In r (_reciprocal_rank_fusion hash self v b top_k k) /\
    result_key hash r = tuple_key hash t.
Proof.
  intros Htop Ht. unfold _reciprocal_rank_fusion.
  rewrite slice_to_all by now rewrite sorted_keys_length.
  assert (Hkey : In (tuple_key hash t)
                    (first_seen (map (tuple_key hash) (v ++ b)))).
  { apply first_seen_In. now apply in_map. }
  exists (result_of_key (rrf_scored hash self v b k) (tuple_key hash t)).
  split.
  - apply in_map. unfold sorted_keys. apply sorted_desc_In.
    now rewrite rrf_scored_keys.
  - now apply result_of_key_key.
Qed.

Lemma fusion_keeps_every_key_witness :
  exists r,
    In r (_reciprocal_rank_fusion code_hash HybridSearch_init
            demo_vector demo_lexical 3 RRF_K) /\
    result_key code_hash r
    = tuple_key code_hash (entry "c" (Q2Qc 2) (meta_page "3")).
Proof.
  apply (@fusion_keeps_every_key code_hash HybridSearch_init
           demo_vector demo_lexical 3%Z RRF_K
           (entry "c" (Q2Qc 2) (meta_page "3"))).
  - vm_compute. discriminate.
  - vm_compute. tauto.
Defined.

Lemma last_with_key_app (hash : string -> Z) (h : Z)
      (l1 l2 : list ResultTuple) :
  last_with_key hash h (l1 ++ l2)
  = match last_with_key hash h l2 with
    | Some t => Some t
    | None => last_with_key hash h l1
    end.
Proof.
  induction l1 as [| t l1 IH]; simpl.
  - now destruct (last_with_key hash h l2).
  - rewrite IH. destruct (last_with_key hash h l2); [reflexivity |].
    reflexivity.
Qed.

Lemma last_with_key_In (hash : string -> Z) (h : Z) (l : list ResultTuple) :
  In h (map (tuple_key hash) l) ->
  exists t, last_with_key hash h l = Some t.
Proof.
  induction l as [| t l IH]; simpl; [contradiction |].
  intros [E | H].
  - destruct (last_with_key hash h l) as [t' |]; [now exists t' |].
    unfold tuple_key in E. rewrite E, Z.eqb_refl. now exists t.
  - destruct (IH H) as [t' ->]. now exists t'.
Qed.

(** The content and the metadata kept under a key after a loop: those of
    the last entry of the list with this key, or what was there. *)
Lemma score_results_last (hash : string -> Z) (w : float) (k rank : nat)
      (l : list ResultTuple) (st : rrf_state) (h : Z) :
  dict_get Z.eqb (content_map (score_results hash w k rank l st)) h
           EmptyString
  = match last_with_key hash h l with
    | Some t => tuple_content t
    | None => dict_get Z.eqb (content_map st) h EmptyString
    end /\
  dict_get Z.eqb (metadata_map (score_results hash w k rank l st)) h []
  = match last_with_key hash h l with
    | Some t => tuple_metadata t
    | None => dict_get Z.eqb (metadata_map st) h []
    end.
Proof.
  revert rank st. induction l as [| [[c s] m] l IH]; intros rank st; simpl.
  - split; reflexivity.
  - match goal with
    | |- context [score_results hash w k (S rank) l ?st'] =>
        destruct (IH (S rank) st') as [Hc Hm]
    end.
    rewrite Hc, Hm. simpl.
    destruct (last_with_key hash h l) as [t' |]; [split; reflexivity |].
    change (tuple_content (c, s, m)) with c.
    destruct (Z.eqb_spec (hash c) h) as [E | N].
    + subst h. rewrite !(dict_get_set_same Z.eqb Z.eqb_spec).
      split; reflexivity.
    + rewrite !(dict_get_set_other Z.eqb Z.eqb_spec) by congruence.
      split; reflexivity.
Qed.

(** X13. A fused entry carries the content and the metadata of the last
    entry with its key, reading the vector list and then the lexical
    list: for a document found in both lists, the metadata returned is
    the one the lexical list gives. *)
Theorem fusion_last_entry_wins
        (hash : string -> Z) (self : HybridSearch)
        (v b : list ResultTuple) (top_k : Z) (k : nat) :
  Forall
    (fun r =>
       exists t,
         last_with_key hash (result_key hash r) (v ++ b) = Some t /\
         content r = tuple_content t /\
         result_metadata r = tuple_metadata t)
    (_reciprocal_rank_fusion hash self v b top_k k).
Proof.
  apply Forall_forall. intros r Hr.
  destruct (fusion_In hash self v b top_k k r Hr) as [h [Hh ->]].
  rewrite result_of_key_key by exact Hh.
  destruct (@last_with_key_In hash h (v ++ b)) as [t Ht].
  { exact (proj1 (first_seen_In _ h) Hh). }
  exists t. split; [exact Ht |].
  unfold result_of_key, rrf_scored. simpl.
  destruct (score_results_last hash (bm25_weight self) k 0 b
              (score_results hash (vector_weight self) k 0 v rrf_empty) h)
    as [Hc Hm].
  destruct (score_results_last hash (vector_weight self) k 0 v rrf_empty h)
    as [Hc' Hm'].
  rewrite Hc, Hm, Hc', Hm'. rewrite last_with_key_app in Ht.
  destruct (last_with_key hash h b) as [tb |].
  - injection Ht as <-. split; reflexivity.
  - rewrite Ht. split; reflexivity.
Qed.

Example lexical_metadata_wins :
  map (fun r => (content r, result_metadata r))
      (_reciprocal_rank_fusion code_hash HybridSearch_init
         [entry "a" 1 (meta_page "1")] [entry "a" 1 (meta_page "2")]
         5 RRF_K)
  = [("a"%string, meta_page "2")].
Proof. vm_compute. reflexivity. Qed.

(** ** [search] and the store *)

Lemma zip3_In_fst (A B C : Type) (la : list A) (lb : list B) (lc : list C)
      (x : A * B * C) :
  In x (zip3 la lb lc) -> In (fst (fst x)) la.
Proof.
  revert lb lc. induction la as [| a la IH]; intros [| b lb] [| c lc] H;
    simpl in H; try contradiction.
  destruct H as [<- | H]; [now left | right; eapply IH; eassumption].
Qed.

Lemma vector_search_contents
      (collection_query : string -> Z -> result QueryResult)
      (query : string) (top_k : Z) (v : list ResultTuple) :
  _vector_search collection_query query top_k = Ok v ->
  exists q,
    collection_query query top_k = Ok q /\
    forall t, In t v -> In (tuple_content t) (qr_documents q).
Proof.
  unfold _vector_search.
  destruct (collection_query query top_k) as [q | e]; simpl;
    [| discriminate].
  intros H. injection H as <-. exists q. split; [reflexivity |].
  intros t Ht. apply in_map_iff in Ht.
  destruct Ht as [[[doc dist] meta] [<- Hin]].
  apply zip3_In_fst in Hin. exact Hin.
Qed.

(** X15. [search] returns no text of its own: the content of every result
    is a document of the answer of the vector store to this query, or a
    document of the object. *)
Theorem search_results_come_from_the_store
        (hash : string -> Z) (log : float -> float)
        (argsort : list float -> list nat)
        (collection_query : string -> Z -> result QueryResult)
        (collection_get : result GetResult)
        (self : HybridSearch) (query : string) (top_k : Z)
        (results : list SearchResult) :
  snd (search hash log argsort collection_query collection_get
         self query top_k) = Ok results ->
  exists q,
    collection_query query top_k = Ok q /\
    Forall
      (fun r =>
         In (content r) (qr_documents q) \/
         In (content r)
            (map doc_content
               (documents
                  (fst (search hash log argsort collection_query
                          collection_get self query top_k)))))
      results.
Proof.
  intros H. rewrite search_fst.
  destruct (search_Ok_inv hash log argsort collection_query collection_get
              self query top_k H) as [self' [v [b [Hv [Hb ->]]]]].
  destruct (vector_search_contents collection_query query top_k Hv)
    as [q [Hq Hvq]].
  exists q. split; [exact Hq |].
  assert (Hb' : snd (_bm25_search log argsort collection_get
                       self query top_k) = Ok b) by now rewrite Hb.
  destruct (@bm25_search_Ok_inv log argsort collection_get
              self query top_k b Hb') as [index [_ [Hbeq Hrange]]].
  apply Forall_forall. intros r Hr.
  destruct (fusion_entry hash self' v b top_k RRF_K r Hr) as [Hc _].
  unfold contents in Hc. rewrite map_app in Hc.
  apply in_app_or in Hc. destruct Hc as [Hc | Hc].
  - left. apply in_map_iff in Hc. destruct Hc as [t [<- Ht]].
    now apply Hvq.
  - right. apply in_map_iff in Hc. destruct Hc as [t [<- Ht]].
    rewrite Hbeq in Ht. apply in_map_iff in Ht.
    destruct Ht as [idx [<- Hidx]].
    rewrite Forall_forall in Hrange. specialize (Hrange idx Hidx).
    unfold tuple_at, tuple_content. simpl.
    apply in_map. now apply nth_In.
Qed.

Lemma search_results_come_from_the_store_witness :
  exists results,
    snd (demo_search HybridSearch_init "fast gpu" 2) = Ok results /\
    exists q,
      demo_collection_query "fast gpu" 2 = Ok q /\
      Forall
        (fun r =>
           In (content r) (qr_documents q) \/
           In (content r)
              (map doc_content
                 (documents
                    (fst (demo_search HybridSearch_init "fast gpu" 2)))))
        results.
Proof.
  eexists. split; [vm_compute; reflexivity |].
  apply (@search_results_come_from_the_store code_hash demo_log
           demo_argsort demo_collection_query demo_collection_get
           HybridSearch_init "fast gpu" 2%Z).
  vm_compute. reflexivity.
Defined.

(** ** The reranker *)

Lemma rerank_loop_Ok (results : list SearchResult) (scores : list float)
      (idxs : list nat) (acc out : list SearchResult) :
  rerank_loop results scores idxs acc = Ok out ->
  out = acc ++ map (fun idx => set_score (nth idx results default_result)
                                         (nth idx scores 0)) idxs /\
  Forall (fun idx => (idx < List.length results)%nat) idxs.
Proof.
  revert acc. induction idxs as [| idx rest IH]; intros acc H; simpl in *.
  - injection H as <-. split; [now rewrite app_nil_r | constructor].
  - destruct (getitem results idx) as [r |] eqn:Er; simpl in H;
      [| discriminate].
    destruct (getitem scores idx) as [s |] eqn:Es; simpl in H;
      [| discriminate].
    destruct (getitem_Ok results idx default_result Er) as [Hlt Hr].
    destruct (getitem_Ok scores idx 0 Es) as [_ Hs].
    destruct (IH _ H) as [Hout Hrange]. split.
    + rewrite Hout, <- app_assoc. simpl. now rewrite Hr, Hs.
    + constructor; assumption.
Qed.

Lemma rerank_loop_total (results : list SearchResult) (scores : list float)
      (idxs : list nat) (acc : list SearchResult) :
  Forall (fun idx => (idx < List.length results)%nat
                     /\ (idx < List.length scores)%nat) idxs ->
  exists out, rerank_loop results scores idxs acc = Ok out.
Proof.
  intros H. revert acc. induction H as [| idx rest [H1 H2] _ IH];
    intros acc; simpl.
  - now exists acc.
  - unfold getitem.
    destruct (nth_error results idx) eqn:Er;
      [| apply nth_error_None in Er; lia].
    destruct (nth_error scores idx) eqn:Es;
      [| apply nth_error_None in Es; lia].
    simpl. apply IH.
Qed.

(** X16. What the reranker returns, when it returns, is made of the
    results it was given: each returned result is one of them with a new
    score and the same content, metadata and source tag; and for
    [top_k >= 0] there are at most [top_k] of them. *)
Theorem rerank_returns_given_results
        (cross_encoder : string -> list string -> result (list float))
        (argsort_descending : list float -> list nat)
        (query : string) (results : list SearchResult) (top_k : Z)
        (reranked : list SearchResult) :
  (0 <= top_k)%Z ->
  _rerank_sync cross_encoder argsort_descending query results top_k
  = Ok reranked ->
  (Z.of_nat (List.length reranked) <= top_k)%Z /\
  Forall
    (fun r' =>
       exists r s, In r results /\ r' = set_score r s)
    reranked.
Proof.
  intros Htop H. unfold _rerank_sync in H.
  destruct results as [| r0 results'].
  - injection H as <-. split; [simpl; lia | constructor].
  - set (results := r0 :: results') in *.
    destruct (cross_encoder query (map content results)) as [scores | e];
      simpl in H; [| discriminate].
    apply rerank_loop_Ok in H. destruct H as [-> Hrange]. cbn [app]. split.
    + rewrite length_map. now apply slice_to_length_le.
    + apply Forall_forall. intros r' Hr'. apply in_map_iff in Hr'.
      destruct Hr' as [idx [<- Hidx]].
      rewrite Forall_forall in Hrange. specialize (Hrange idx Hidx).
      exists (nth idx results default_result), (nth idx scores 0).
      split; [now apply nth_In | reflexivity].
Qed.

Lemma rerank_returns_given_results_witness :
  exists reranked,
    _rerank_sync demo_cross_encoder demo_argsort_descending
      "which one" demo_results 2 = Ok reranked /\
    map content reranked = ["the longest text"; "a longer one"]%string /\
    (Z.of_nat (List.length reranked) <= 2)%Z /\
    Forall
      (fun r' =>
         exists r s, In r demo_results /\ r' = set_score r s)
      reranked.
Proof.
  eexists. split; [vm_compute; reflexivity |].
  split; [reflexivity |].
  apply (@rerank_returns_given_results demo_cross_encoder
           demo_argsort_descending "which one" demo_results 2%Z);
    [lia | vm_compute; reflexivity].
Defined.

Lemma map_nth_seq (A : Type) (l : list A) (d : A) :
  map (fun i => nth i l d) (seq 0 (List.length l)) = l.
Proof.
  induction l as [| a l IH]; simpl; [reflexivity |].
  f_equal. rewrite <- seq_shift, map_map. exact IH.
Qed.

(** X17. When the model gives one score for each result, [argsort]
    returns a permutation of the indices in descending order of the
    scores, and [top_k] is at least the number of results, the reranker
    returns all the results it was given, each once, in descending order
    of the new scores. *)
Theorem rerank_is_a_sorted_permutation
        (cross_encoder : string -> list string -> result (list float))
        (argsort_descending : list float -> list nat)
        (query : string) (results : list SearchResult) (top_k : Z)
        (scores : list float) :
  (forall s, Permutation (argsort_descending s) (seq 0 (List.length s))) ->
  (forall s, ForallOrdPairs (fun i j => nth j s 0 <= nth i s 0)
                            (argsort_descending s)) ->
  cross_encoder query (map content results) = Ok scores ->
  List.length scores = List.length results ->
  (Z.of_nat (List.length results) <= top_k)%Z ->
  exists reranked,
    _rerank_sync cross_encoder argsort_descending query results top_k
    = Ok reranked /\
    Permutation (map content reranked) (map content results) /\
    ForallOrdPairs (fun r1 r2 => score r2 <= score r1) reranked.
Proof.
  intros Hperm Hdesc Hce Hlen Htop. unfold _rerank_sync.
  destruct results as [| r0 results'].
  - exists []. repeat split; constructor.
  - set (results := r0 :: results') in *. rewrite Hce. simpl.
    assert (Hall : slice_to top_k (argsort_descending scores)
                   = argsort_descending scores).
    { apply slice_to_all.
      rewrite (Permutation_length (Hperm scores)), length_seq. lia. }
    rewrite Hall.
    destruct (@rerank_loop_total results scores
                (argsort_descending scores) []) as [out Hout].
    { apply Forall_forall. intros idx Hidx.
      apply (Permutation_in _ (Hperm scores)) in Hidx.
      apply in_seq in Hidx. lia. }
    exists out. split; [exact Hout |].
    apply rerank_loop_Ok in Hout. destruct Hout as [-> _]. cbn [app]. split.
    + rewrite map_map. cbn [set_score content].
      rewrite (map_ext (fun idx => content (nth idx results default_result))
                       (fun idx => nth idx (map content results)
                                       EmptyString)).
      * apply Permutation_trans
          with (map (fun idx => nth idx (map content results) EmptyString)
                    (seq 0 (List.length (map content results)))).
        -- rewrite length_map, <- Hlen. apply Permutation_map, Hperm.
        -- now rewrite map_nth_seq.
      * intros idx. change EmptyString with (content default_result).
        now rewrite map_nth.
    + apply ForallOrdPairs_map. simpl. apply Hdesc.
Qed.

Lemma insert_asc_perm (scores : list float) (i : nat) (l : list nat) :
  Permutation (insert_asc scores i l) (i :: l).
Proof.
  induction l as [| j t IH]; simpl; [reflexivity |].
  destruct (Qcltb (nth j scores 0) (nth i scores 0)); [| reflexivity].
  rewrite IH. apply perm_swap.
Qed.

Lemma demo_argsort_perm (s : list float) :
  Permutation (demo_argsort s) (seq 0 (List.length s)).
Proof.
  unfold demo_argsort. generalize (seq 0 (List.length s)).
  induction l as [| i l IH]; simpl; [reflexivity |].
  rewrite insert_asc_perm. now constructor.
Qed.

Lemma rerank_is_a_sorted_permutation_witness :
  exists reranked,
    _rerank_sync demo_cross_encoder demo_argsort_descending
      "which one" demo_results 5 = Ok reranked /\
    Permutation (map content reranked) (map content demo_results) /\
    ForallOrdPairs (fun r1 r2 => score r2 <= score r1) reranked.
Proof.
  apply (@rerank_is_a_sorted_permutation demo_cross_encoder
           demo_argsort_descending "which one" demo_results 5%Z
           (map (fun c => float_of_nat (String.length c))
                (map content demo_results))).
  - intros s. unfold demo_argsort_descending.
    rewrite <- Permutation_rev. apply demo_argsort_perm.
  - intros s. unfold demo_argsort_descending.
    apply (ForallOrdPairs_rev (demo_argsort_ascending s)).
  - reflexivity.
  - reflexivity.
  - simpl. lia.
Defined.

(** ** The conversation memory *)

Lemma dict_get_not_mem (V : Type) (d : dict string V) (k : string) (dflt : V) :
  dict_mem String.eqb d k = false -> dict_get String.eqb d k dflt = dflt.
Proof.
  induction d as [| [k' v'] d IH]; simpl; [reflexivity |].
  destruct (String.eqb k k'); [discriminate | exact IH].
Qed.

Lemma dd_getitem_snd (V : Type) (d : dict string (list V)) (k : string) :
  snd (dd_getitem d k) = dict_get String.eqb d k [].
Proof.
  unfold dd_getitem. destruct (dict_mem String.eqb d k) eqn:E; simpl;
    [reflexivity |].
  symmetry. now apply dict_get_not_mem.
Qed.

Lemma dd_getitem_fst (V : Type) (d : dict string (list V)) (k k0 : string) :
  dict_get String.eqb (fst (dd_getitem d k)) k0 []
  = dict_get String.eqb d k0 [].
Proof.
  unfold dd_getitem. destruct (dict_mem String.eqb d k) eqn:E; simpl;
    [reflexivity |].
  destruct (String.eqb_spec k0 k) as [-> | N].
  - rewrite (dict_get_set_same String.eqb String.eqb_spec).
    symmetry. now apply dict_get_not_mem.
  - now rewrite (dict_get_set_other String.eqb String.eqb_spec).
Qed.

Lemma dd_append_same (V : Type) (d : dict string (list V)) (k : string)
      (x : V) :
  dict_get String.eqb (dd_append d k x) k []
  = dict_get String.eqb d k [] ++ [x].
Proof.
  unfold dd_append.
  pose proof (dd_getitem_snd d k) as Hs.
  destruct (dd_getitem d k) as [d' l]. simpl in Hs. subst l.
  now rewrite (dict_get_set_same String.eqb String.eqb_spec).
Qed.

Lemma dd_append_other (V : Type) (d : dict string (list V)) (k k0 : string)
      (x : V) :
  k0 <> k ->
  dict_get String.eqb (dd_append d k x) k0 [] = dict_get String.eqb d k0 [].
Proof.
  intros N. unfold dd_append.
  pose proof (dd_getitem_fst d k k0) as Hf.
  destruct (dd_getitem d k) as [d' l]. simpl in Hf.
  now rewrite (dict_get_set_other String.eqb String.eqb_spec).
Qed.

(** The turns of the conversation a turn is added to. *)
Lemma turns_of_add_turn_same (extract : string -> list string)
      (self : ConversationMemory) (now : float)
      (conversation_id user assistant : string) :
  turns_of (add_turn extract self now conversation_id user assistant)
           conversation_id
  = let turns :=
      turns_of self conversation_id
      ++ [mkTurn user assistant now
                 (extract (user ++ " " ++ assistant)%string)] in
    if (max_turns self <? Z.of_nat (List.length turns))%Z
    then slice_from (- max_turns self) turns
    else turns.
Proof.
  unfold turns_of, add_turn. cbv zeta.
  set (turn := mkTurn user assistant now _).
  set (d1 := dd_append (conversations self) conversation_id turn).
  pose proof (dd_append_same (conversations self) conversation_id turn)
    as Hd1. fold d1 in Hd1.
  pose proof (dd_getitem_snd d1 conversation_id) as Hs.
  pose proof (dd_getitem_fst d1 conversation_id conversation_id) as Hf.
  destruct (dd_getitem d1 conversation_id) as [d2 turns].
  simpl in Hs, Hf. rewrite Hd1 in Hs. subst turns.
  destruct (max_turns self <? _)%Z.
  - pose proof (dd_getitem_snd d2 conversation_id) as Hs2.
    destruct (dd_getitem d2 conversation_id) as [d3 turns]. simpl in *.
    rewrite (dict_get_set_same String.eqb String.eqb_spec).
    subst turns. now rewrite Hf, Hd1.
  - simpl. now rewrite Hf, Hd1.
Qed.

Lemma turns_of_add_turn_other (extract : string -> list string)
      (self : ConversationMemory) (now : float)
      (conversation_id user assistant other : string) :
  other <> conversation_id ->
  turns_of (add_turn extract self now conversation_id user assistant) other
  = turns_of self other.
Proof.
  intros N. unfold turns_of, add_turn. cbv zeta.
  set (turn := mkTurn user assistant now _).
  set (d1 := dd_append (conversations self) conversation_id turn).
  pose proof (@dd_append_other _ (conversations self) conversation_id other
                turn N) as Hd1. fold d1 in Hd1.
  pose proof (dd_getitem_fst d1 conversation_id other) as Hf.
  destruct (dd_getitem d1 conversation_id) as [d2 turns]. simpl in Hf.
  destruct (max_turns self <? _)%Z.
  - pose proof (dd_getitem_fst d2 conversation_id other) as Hf2.
    destruct (dd_getitem d2 conversation_id) as [d3 turns']. simpl in *.
    rewrite (dict_get_set_other String.eqb String.eqb_spec) by exact N.
    now rewrite Hf2, Hf, Hd1.
  - simpl. now rewrite Hf, Hd1.
Qed.

Lemma get_history_turns (self : ConversationMemory)
      (conversation_id : string) :
  snd (get_history self conversation_id)
  = map (fun t => (user t, assistant t)) (turns_of self conversation_id).
Proof.
  unfold get_history, turns_of.
  pose proof (dd_getitem_snd (conversations self) conversation_id) as Hs.
  destruct (dd_getitem (conversations self) conversation_id) as [d l].
  simpl in *. now subst l.
Qed.

Lemma slice_from_map (A B : Type) (f : A -> B) (start : Z) (l : list A) :
  slice_from start (map f l) = map f (slice_from start l).
Proof.
  unfold slice_from. rewrite length_map.
  destruct (start <? 0)%Z; apply skipn_map.
Qed.

Lemma slice_from_last (A : Type) (k : Z) (l : list A) (x : A) :
  (1 <= k)%Z -> exists l', slice_from (- k) (l ++ [x]) = l' ++ [x].
Proof.
  intros Hk. unfold slice_from.
  destruct (Z.ltb_spec (- k) 0) as [_ | Hge]; [| lia].
  rewrite length_app, skipn_app. simpl.
  replace (Z.to_nat (Z.of_nat (List.length l + 1) + - k) - List.length l)%nat
    with 0%nat by lia.
  simpl. eexists. reflexivity.
Qed.

(** X18. Whatever the memory holds, after [add_turn] with
    [max_turns >= 1] the conversation has at most [max_turns] turns, and
    the last exchange of its history is the one just added. *)
Theorem history_is_bounded (extract : string -> list string)
        (self : ConversationMemory) (now : float)
        (conversation_id user assistant : string) :
  (1 <= max_turns self)%Z ->
  let self' := add_turn extract self now conversation_id user assistant in
  let history := snd (get_history self' conversation_id) in
  (Z.of_nat (List.length history) <= max_turns self)%Z /\
  exists earlier, history = earlier ++ [(user, assistant)].
Proof.
  intros Hmax self' history. subst history self'.
  rewrite get_history_turns, turns_of_add_turn_same. cbv zeta.
  set (turn := mkTurn user assistant now _).
  destruct (Z.ltb_spec (max_turns self)
              (Z.of_nat (List.length (turns_of self conversation_id
                                      ++ [turn])))) as [Hlt | Hge].
  - split.
    + rewrite length_map. now apply slice_from_last_length.
    + destruct (@slice_from_last _ (max_turns self)
                  (turns_of self conversation_id) turn Hmax) as [l' ->].
      rewrite map_app. simpl. eexists. reflexivity.
  - split.
    + now rewrite length_map.
    + rewrite map_app. simpl. eexists. reflexivity.
Qed.

Lemma history_is_bounded_witness :
  snd (get_history
         (add_turn demo_extract_entities
            (add_turns demo_extract_entities (ConversationMemory_init 2)
                       demo_calls)
            (float_of_Z 5) "c1" "thanks" "welcome") "c1")
  = [("why", "older XR-500 board"); ("thanks", "welcome")]%string /\
  (Z.of_nat
     (List.length
        (snd (get_history
                (add_turn demo_extract_entities
                   (add_turns demo_extract_entities (ConversationMemory_init 2)
                              demo_calls)
                   (float_of_Z 5) "c1" "thanks" "welcome") "c1")))
   <= 2)%Z /\
  exists earlier,
    snd (get_history
           (add_turn demo_extract_entities
              (add_turns demo_extract_entities (ConversationMemory_init 2)
                         demo_calls)
              (float_of_Z 5) "c1" "thanks" "welcome") "c1")
    = earlier ++ [("thanks", "welcome")]%string.
Proof.
  split; [vm_compute; reflexivity |].
  apply (@history_is_bounded demo_extract_entities
           (add_turns demo_extract_entities (ConversationMemory_init 2)
                      demo_calls)
           (float_of_Z 5) "c1" "thanks" "welcome").
  vm_compute. discriminate.
Defined.

Lemma add_turns_snoc (extract : string -> list string)
      (self : ConversationMemory) (calls : list Call) (c : Call) :
  add_turns extract self (calls ++ [c])
  = add_turn extract (add_turns extract self calls) (call_now c) (call_id c)
             (call_user c) (call_assistant c).
Proof.
  unfold add_turns. now rewrite fold_left_app.
Qed.

Lemma add_turn_max_turns (extract : string -> list string)
      (self : ConversationMemory) (now : float)
      (conversation_id user assistant : string) :
  max_turns (add_turn extract self now conversation_id user assistant)
  = max_turns self.
Proof.
  unfold add_turn. cbv zeta.
  destruct (dd_getitem _ conversation_id) as [d turns].
  destruct (max_turns self <? _)%Z; [| reflexivity].
  now destruct (dd_getitem d conversation_id).
Qed.

Lemma add_turns_max_turns (extract : string -> list string)
      (self : ConversationMemory) (calls : list Call) :
  max_turns (add_turns extract self calls) = max_turns self.
Proof.
  induction calls as [| c calls IH] using rev_ind; [reflexivity |].
  now rewrite add_turns_snoc, add_turn_max_turns.
Qed.

(** Trimming after each append keeps what trimming once at the end keeps. *)
Lemma trim_step (A : Type) (m : Z) (l : list A) (x : A) :
  (1 <= m)%Z ->
  (if (m <? Z.of_nat (List.length (slice_from (- m) l ++ [x])))%Z
   then slice_from (- m) (slice_from (- m) l ++ [x])
   else slice_from (- m) l ++ [x])
  = slice_from (- m) (l ++ [x]).
Proof.
  intros Hm. unfold slice_from.
  destruct (Z.ltb_spec (- m) 0) as [_ | Hge]; [| lia].
  rewrite !length_app, length_skipn. simpl.
  destruct (Z.ltb_spec m
              (Z.of_nat
                 (List.length l
                  - Z.to_nat (Z.of_nat (List.length l) + - m) + 1)))
    as [Hlt | Hle].
  - rewrite !skipn_app, length_skipn, skipn_skipn.
    f_equal.
    + f_equal. lia.
    + f_equal. lia.
  - rewrite skipn_app. f_equal.
    + f_equal. lia.
    + replace (Z.to_nat (Z.of_nat (List.length l + 1) + - m)
               - List.length l)%nat with 0%nat by lia.
      reflexivity.
Qed.

(** X19. On a new memory with [max_turns >= 1], after any sequence of
    [add_turn] calls (to any conversations) the history of a conversation
    is exactly the last [max_turns] exchanges added to it, in the order of
    the calls. *)
Theorem history_is_the_last_exchanges (extract : string -> list string)
        (m : Z) (calls : list Call) (conversation_id : string) :
  (1 <= m)%Z ->
  snd (get_history (add_turns extract (ConversationMemory_init m) calls)
                   conversation_id)
  = slice_from (- m) (map exchange_of (calls_of conversation_id calls)).
Proof.
  intros Hm. rewrite get_history_turns.
  change exchange_of
    with (fun c => (fun t => (user t, assistant t)) (turn_of extract c)).
  rewrite <- (map_map (turn_of extract)), slice_from_map. f_equal.
  induction calls as [| c calls IH] using rev_ind.
  - unfold slice_from. simpl. destruct (- m <? 0)%Z; now rewrite skipn_nil.
  - rewrite add_turns_snoc. unfold calls_of. rewrite filter_app. simpl.
    destruct (String.eqb_spec (call_id c) conversation_id) as [E | N].
    + rewrite <- E in *. rewrite turns_of_add_turn_same. cbv zeta.
      rewrite add_turns_max_turns. simpl max_turns.
      rewrite IH, map_app. simpl map.
      fold (turn_of extract c).
      now apply trim_step.
    + rewrite app_nil_r, turns_of_add_turn_other by congruence.
      exact IH.
Qed.

Lemma history_is_the_last_exchanges_witness :
  snd (get_history (add_turns demo_extract_entities
                              (ConversationMemory_init 2) demo_calls) "c1")
  = slice_from (- 2) (map exchange_of (calls_of "c1" demo_calls)) /\
  slice_from (- 2) (map exchange_of (calls_of "c1" demo_calls))
  = [("and XR-600", "slower"); ("why", "older XR-500 board")]%string.
Proof.
  split; [| reflexivity].
  apply (@history_is_the_last_exchanges demo_extract_entities 2%Z demo_calls
           "c1"). lia.
Defined.

(** X20. With [max_turns = 0] nothing is ever trimmed: [turns[-0:]] is the
    whole list, so [add_turn] only appends to the history. *)
Theorem zero_max_turns_keeps_everything (extract : string -> list string)
        (self : ConversationMemory) (now : float)
        (conversation_id user assistant : string) :
  max_turns self = 0%Z ->
  snd (get_history
         (add_turn extract self now conversation_id user assistant)
         conversation_id)
  = snd (get_history self conversation_id) ++ [(user, assistant)].
Proof.
  intros Hmax. rewrite !get_history_turns, turns_of_add_turn_same.
  cbv zeta. rewrite Hmax.
  set (turn := mkTurn user assistant now _).
  assert (Hall : slice_from (- 0)
                   (turns_of self conversation_id ++ [turn])
                 = turns_of self conversation_id ++ [turn])
    by reflexivity.
  rewrite Hall.
  destruct (0 <? _)%Z; now rewrite map_app.
Qed.

Lemma zero_max_turns_keeps_everything_witness :
  snd (get_history
         (add_turn demo_extract_entities
            (add_turns demo_extract_entities (ConversationMemory_init 0)
                       demo_calls)
            (float_of_Z 5) "c1" "thanks" "welcome") "c1")
  = snd (get_history
           (add_turns demo_extract_entities (ConversationMemory_init 0)
                      demo_calls) "c1")
    ++ [("thanks", "welcome")]%string /\
  List.length
    (snd (get_history
            (add_turns demo_extract_entities (ConversationMemory_init 0)
                       demo_calls) "c1")) = 3%nat.
Proof.
  split; [| reflexivity].
  apply (@zero_max_turns_keeps_everything demo_extract_entities
           (add_turns demo_extract_entities (ConversationMemory_init 0)
                      demo_calls)
           (float_of_Z 5) "c1" "thanks" "welcome").
  reflexivity.
Defined.

Lemma fold_extend (turns : list ConversationTurn) (acc : list string) :
  fold_left (fun acc turn => acc ++ entities turn) turns acc
  = acc ++ flat_map entities turns.
Proof.
  revert acc. induction turns as [| t turns IH]; intros acc; simpl.
  - now rewrite app_nil_r.
  - now rewrite IH, app_assoc.
Qed.

Lemma get_recent_entities_turns (self : ConversationMemory)
      (conversation_id : string) (n : Z) :
  snd (get_recent_entities self conversation_id n)
  = fromkeys (flat_map entities
                (rev (slice_from (- n) (turns_of self conversation_id)))).
Proof.
  unfold get_recent_entities, turns_of.
  pose proof (dd_getitem_snd (conversations self) conversation_id) as Hs.
  destruct (dd_getitem (conversations self) conversation_id) as [d l].
  simpl in *. subst l. now rewrite fold_extend.
Qed.

(** X21. [add_turn] on one conversation leaves every other conversation
    as it was: its history and its recent entities are unchanged. *)
Theorem add_turn_leaves_other_conversations
        (extract : string -> list string)
        (self : ConversationMemory) (now : float)
        (conversation_id user assistant other : string) (n : Z) :
  other <> conversation_id ->
  let self' := add_turn extract self now conversation_id user assistant in
  snd (get_history self' other) = snd (get_history self other) /\
  snd (get_recent_entities self' other n)
  = snd (get_recent_entities self other n).
Proof.
  intros N self'. subst self'.
  rewrite !get_history_turns, !get_recent_entities_turns.
  now rewrite turns_of_add_turn_other.
Qed.

Lemma add_turn_leaves_other_conversations_witness :
  snd (get_history
         (add_turn demo_extract_entities
            (add_turns demo_extract_entities (ConversationMemory_init 2)
                       demo_calls)
            (float_of_Z 5) "c1" "thanks" "welcome") "c2")
  = snd (get_history
           (add_turns demo_extract_entities (ConversationMemory_init 2)
                      demo_calls) "c2") /\
  snd (get_recent_entities
         (add_turn demo_extract_entities
            (add_turns demo_extract_entities (ConversationMemory_init 2)
                       demo_calls)
            (float_of_Z 5) "c1" "thanks" "welcome") "c2" 5)
  = snd (get_recent_entities
           (add_turns demo_extract_entities (ConversationMemory_init 2)
                      demo_calls) "c2" 5).
Proof.
  apply (@add_turn_leaves_other_conversations demo_extract_entities
           (add_turns demo_extract_entities (ConversationMemory_init 2)
                      demo_calls)
           (float_of_Z 5) "c1" "thanks" "welcome" "c2" 5%Z).
  discriminate.
Defined.

Lemma add_turn_entity_index (extract : string -> list string)
      (self : ConversationMemory) (now : float)
      (conversation_id user assistant : string) :
  entity_index (add_turn extract self now conversation_id user assistant)
  = fold_left (fun index entity => dd_append index entity conversation_id)
              (extract (user ++ " " ++ assistant)%string)
              (entity_index self).
Proof.
  unfold add_turn. cbv zeta.
  destruct (dd_getitem _ conversation_id) as [d turns].
  destruct (max_turns self <? _)%Z; [| reflexivity].
  now destruct (dd_getitem d conversation_id).
Qed.

(** X22. The entity index only grows: [add_turn] appends the conversation
    identifier to the entry of an entity once for each time the entity was
    extracted from the turn, and removes nothing, also when turns are
    trimmed from the history. *)
Theorem entity_index_only_grows (extract : string -> list string)
        (self : ConversationMemory) (now : float)
        (conversation_id user assistant entity : string) :
  conversations_of
    (add_turn extract self now conversation_id user assistant) entity
  = conversations_of self entity
    ++ repeat conversation_id
         (count_occ string_dec
                    (extract (user ++ " " ++ assistant)%string) entity).
Proof.
  unfold conversations_of. rewrite add_turn_entity_index.
  generalize (extract (user ++ " " ++ assistant)%string) as ents.
  generalize (entity_index self) as index.
  intros index ents. revert index.
  induction ents as [| e ents IH]; intros index; simpl.
  - now rewrite app_nil_r.
  - rewrite IH. destruct (string_dec e entity) as [-> | N].
    + rewrite dd_append_same, <- app_assoc. reflexivity.
    + rewrite dd_append_other by congruence. reflexivity.
Qed.

Lemma fromkeys_In (l : list string) (x : string) :
  In x (fromkeys l) <-> In x l.
Proof.
  induction l as [| y l IH]; simpl; [tauto |].
  rewrite filter_In, IH.
  destruct (String.eqb_spec x y) as [-> | N]; simpl.
  - tauto.
  - split; [tauto | intros [E | H]; [now left | now right]].
Qed.

Lemma fromkeys_NoDup (l : list string) : NoDup (fromkeys l).
Proof.
  induction l as [| y l IH]; simpl; constructor.
  - rewrite filter_In. intros [_ H].
    now rewrite String.eqb_refl in H.
  - now apply NoDup_filter.
Qed.

(** X23. [get_recent_entities] returns each entity once, and returns
    exactly the entities of the turns it looks at: the last [n] turns kept
    for the conversation (all the turns kept, for [n = 0]). *)
Theorem recent_entities_are_distinct (self : ConversationMemory)
        (conversation_id : string) (n : Z) :
  let recent := snd (get_recent_entities self conversation_id n) in
  NoDup recent /\
  forall entity,
    In entity recent <->
    exists turn,
      In turn (slice_from (- n) (turns_of self conversation_id)) /\
      In entity (entities turn).
Proof.
  intros recent. subst recent. rewrite get_recent_entities_turns. split.
  - apply fromkeys_NoDup.
  - intros entity. rewrite fromkeys_In, in_flat_map.
    split; intros [turn [Ht He]]; exists turn; split; try exact He.
    + now apply in_rev.
    + now apply in_rev in Ht.
Qed.

(** X24. Reading the history goes through a [defaultdict]: it registers
    the conversation it is asked about, and changes no history. *)
Theorem reading_registers_the_conversation (self : ConversationMemory)
        (conversation_id other : string) :
  let self' := fst (get_history self conversation_id) in
  In conversation_id (dict_keys (conversations self')) /\
  snd (get_history self' other) = snd (get_history self other).
Proof.
  intros self'. subst self'. split.
  - unfold get_history, dd_getitem.
    destruct (dict_mem String.eqb (conversations self) conversation_id)
      eqn:E; simpl.
    + now apply (dict_mem_In String.eqb String.eqb_spec).
    + rewrite (dict_keys_set String.eqb String.eqb_spec), E.
      apply in_or_app. right. now left.
  - rewrite !get_history_turns. unfold turns_of, get_history.
    pose proof (dd_getitem_fst (conversations self) conversation_id other)
      as Hf.
    destruct (dd_getitem (conversations self) conversation_id) as [d l].
    simpl in *. now rewrite Hf.
Qed.

(** ** The filler of the reranker *)



(** ** The chunker *)

Lemma count_words_nonneg (s : string) : (0 <= count_words s)%Z.
Proof.
  unfold count_words. lia.
Qed.

Lemma sum_words_fold (l : list string) (acc : Z) :
  fold_left (fun acc s => (acc + count_words s)%Z) l acc
  = (acc + sum_words l)%Z.
Proof.
  unfold sum_words. revert acc.
  induction l as [| s l IH]; intros acc; simpl; [lia |].
  rewrite IH, (IH (count_words s)). lia.
Qed.

Lemma sum_words_cons (s : string) (l : list string) :
  sum_words (s :: l) = (count_words s + sum_words l)%Z.
Proof.
  unfold sum_words at 1. simpl. now rewrite sum_words_fold.
Qed.

Lemma sum_words_app (l1 l2 : list string) :
  sum_words (l1 ++ l2) = (sum_words l1 + sum_words l2)%Z.
Proof.
  induction l1 as [| s l1 IH]; simpl; [reflexivity |].
  rewrite !sum_words_cons, IH. lia.
Qed.

Lemma sum_words_nonneg (l : list string) : (0 <= sum_words l)%Z.
Proof.
  induction l as [| s l IH]; [unfold sum_words; simpl; lia |].
  rewrite sum_words_cons. pose proof (count_words_nonneg s). lia.
Qed.

Lemma overlap_loop_spec (self : VoiceOptimizedChunker)
      (reversed overlap : list string) :
  (sum_words overlap <= overlap_words self)%Z ->
  exists earlier taken,
    rev reversed = earlier ++ taken /\
    overlap_loop self reversed overlap (sum_words overlap)
    = taken ++ overlap /\
    (sum_words (taken ++ overlap) <= overlap_words self)%Z /\
    forall earlier' sentence,
      earlier = earlier' ++ [sentence] ->
      (overlap_words self
       < sum_words (taken ++ overlap) + count_words sentence)%Z.
Proof.
  revert overlap. induction reversed as [| s rest IH]; intros overlap Hle.
  - exists [], []. simpl. repeat split; auto.
    intros [| ? ?] ? E; discriminate.
  - cbn [overlap_loop].
    destruct (Z.leb_spec (sum_words overlap + count_words s)
                         (overlap_words self)) as [Hfit | Hnot].
    + destruct (IH (s :: overlap)) as [earlier [taken [Hr [Ho [Hs Hm]]]]].
      { rewrite sum_words_cons. lia. }
      exists earlier, (taken ++ [s]). simpl rev.
      rewrite Hr, <- !app_assoc. simpl.
      repeat split; auto.
      rewrite <- Ho, sum_words_cons. f_equal. lia.
    + exists (rev rest ++ [s]), []. simpl. repeat split; auto.
      { now rewrite app_nil_r. }
      intros earlier' sentence E. apply app_inj_tail in E.
      destruct E as [_ <-]. lia.
Qed.

(** X26. For [overlap_words >= 0], the overlap is the longest run of
    last sentences whose words together do not exceed [overlap_words]: it
    is an end of the list, within the limit, and the sentence before it,
    when there is one, would not fit. *)
Theorem overlap_is_a_bounded_suffix (self : VoiceOptimizedChunker)
        (sentences : list string) :
  (0 <= overlap_words self)%Z ->
  exists earlier,
    sentences = earlier ++ _get_overlap self sentences /\
    (sum_words (_get_overlap self sentences) <= overlap_words self)%Z /\
    forall earlier' sentence,
      earlier = earlier' ++ [sentence] ->
      (overlap_words self
       < sum_words (_get_overlap self sentences) + count_words sentence)%Z.
Proof.
  intros Hpos.
  destruct (@overlap_loop_spec self (rev sentences) []) as
    [earlier [taken [Hr [Ho [Hs Hm]]]]].
  { exact Hpos. }
  rewrite rev_involutive in Hr. rewrite app_nil_r in *.
  change (sum_words []) with 0%Z in Ho.
  assert (E : _get_overlap self sentences = taken).
  { unfold _get_overlap. destruct sentences as [| s0 l]; [| exact Ho].
    destruct earlier; destruct taken; try discriminate. reflexivity. }
  rewrite E. exists earlier. auto.
Qed.

Lemma overlap_is_a_bounded_suffix_witness :
  exists earlier,
    ["a b c"; "d e"; "f"]%string
    = earlier ++ _get_overlap demo_chunker
                              ["a b c"; "d e"; "f"]%string /\
    (sum_words (_get_overlap demo_chunker
                             ["a b c"; "d e"; "f"]%string)
     <= overlap_words demo_chunker)%Z /\
    forall earlier' sentence,
      earlier = earlier' ++ [sentence] ->
      (overlap_words demo_chunker
       < sum_words (_get_overlap demo_chunker
                                 ["a b c"; "d e"; "f"]%string)
         + count_words sentence)%Z.
Proof.
  apply (@overlap_is_a_bounded_suffix demo_chunker
           ["a b c"; "d e"; "f"]%string).
  simpl. lia.
Defined.

Lemma join_cons (sep s : string) (l : list string) :
  l <> [] -> join sep (s :: l) = (s ++ sep ++ join sep l)%string.
Proof.
  destruct l; [congruence | reflexivity].
Qed.

Lemma string_app_assoc (a b c : string) :
  ((a ++ b) ++ c = a ++ b ++ c)%string.
Proof.
  induction a as [| ch a IH]; simpl; [reflexivity | now rewrite IH].
Qed.

Lemma string_app_nil_r (a : string) : (a ++ EmptyString = a)%string.
Proof.
  induction a as [| ch a IH]; simpl; [reflexivity | now rewrite IH].
Qed.

(** Joining the joined groups is joining everything. *)
Lemma join_group (sep : string) (current rest : list string) :
  current <> [] ->
  join sep (join sep current :: rest) = join sep (current ++ rest).
Proof.
  induction current as [| a current IH]; intros Hne; [congruence |].
  destruct current as [| a' current'].
  - reflexivity.
  - rewrite (@join_cons sep a (a' :: current')) by discriminate.
    change ((a :: a' :: current') ++ rest)
      with (a :: ((a' :: current') ++ rest)).
    rewrite (@join_cons sep a ((a' :: current') ++ rest)) by discriminate.
    rewrite <- IH by discriminate.
    destruct rest as [| r rest'].
    + reflexivity.
    + rewrite !join_cons by discriminate.
      now rewrite !string_app_assoc.
Qed.

Lemma join_groups (sep : string) (result current rest : list string) :
  current <> [] ->
  join sep (result ++ join sep current :: rest)
  = join sep (result ++ current ++ rest).
Proof.
  intros Hne. induction result as [| a result IH]; simpl app.
  - now apply join_group.
  - rewrite !join_cons.
    + now rewrite IH.
    + destruct result; [destruct current; [congruence | discriminate]
                       | discriminate].
    + destruct result; discriminate.
Qed.

Lemma flush_current_join (result current rest : list string) :
  join " " (flush_current result current ++ rest)
  = join " " (result ++ current ++ rest).
Proof.
  unfold flush_current. destruct current as [| a current]; [reflexivity |].
  rewrite <- app_assoc.
  apply (@join_groups " " result (a :: current) rest). discriminate.
Qed.

Lemma split_long_loop_join (self : VoiceOptimizedChunker)
      (parts result current : list string) (current_words : Z) :
  join " " (split_long_loop self parts result current current_words)
  = join " " (result ++ current ++ parts).
Proof.
  revert result current current_words.
  induction parts as [| part rest IH]; intros result current current_words;
    cbn [split_long_loop].
  - rewrite <- (app_nil_r (flush_current result current)).
    apply flush_current_join.
  - destruct (_ <=? _)%Z; rewrite IH.
    + now rewrite <- app_assoc.
    + apply (flush_current_join result current (part :: rest)).
Qed.

(** X27. Splitting a long sentence loses none of its parts and keeps
    their order: the pieces, joined by a space, are the parts joined by a
    space. *)
Theorem long_sentence_pieces_keep_every_part
        (pause_split : string -> list string)
        (self : VoiceOptimizedChunker) (sentence : string) :
  join " " (_split_long_sentence pause_split self sentence)
  = join " " (pause_split sentence).
Proof.
  unfold _split_long_sentence. now rewrite split_long_loop_join.
Qed.

Lemma create_chunk_Some (self : VoiceOptimizedChunker)
      (sentences : list string) (meta : option metadata) :
  wpm self <> 0%Z ->
  exists chunk,
    _create_chunk self sentences meta = Some chunk /\
    chunk_content chunk = join " " sentences /\
    chunk_metadata chunk = match meta with Some m => m | None => [] end /\
    word_count chunk = List.length (split (join " " sentences)).
Proof.
  intros Hwpm. unfold _create_chunk.
  destruct (Z.eqb_spec (wpm self) 0) as [E | _]; [contradiction |].
  eexists. split; [reflexivity |]. simpl. auto.
Qed.

Section Chunker_facts.
Variable _add_pronunciation_guides : string -> string.
Variable _split_into_sentences : string -> list string.
Variable pause_split : string -> list string.
Variable self : VoiceOptimizedChunker.
Variable meta : option metadata.

(** While the sentences fit, the loop only collects them. *)
Lemma chunk_loop_fits (sentences : list string) (chunks : list VoiceChunk)
      (current_chunk : list string) (current_word_count : Z) :
  (0 <= current_word_count)%Z ->
  (current_word_count + sum_words sentences <= max_chunk_words self)%Z ->
  chunk_loop pause_split self meta sentences chunks current_chunk
             current_word_count
  = save_current self meta chunks (current_chunk ++ sentences).
Proof.
  revert current_chunk current_word_count.
  induction sentences as [| s rest IH];
    intros current_chunk current_word_count Hpos Hfit;
    cbn [chunk_loop].
  - now rewrite app_nil_r.
  - rewrite sum_words_cons in Hfit.
    pose proof (count_words_nonneg s) as Hs.
    pose proof (sum_words_nonneg rest) as Hrest.
    destruct (Z.ltb_spec (max_chunk_words self) (count_words s)); [lia |].
    destruct (Z.leb_spec (current_word_count + count_words s)
                         (max_chunk_words self)); [| lia].
    rewrite IH by lia. now rewrite <- app_assoc.
Qed.
End Chunker_facts.

(** X28. A text whose sentences together have at most [max_chunk_words]
    words becomes one chunk, the sentences joined by a space, with the
    metadata given; a text without sentences gives no chunk. (The words per
    minute must not be zero, or the division fails.) *)
Theorem short_text_is_one_chunk
        (_add_pronunciation_guides : string -> string)
        (_split_into_sentences pause_split : string -> list string)
        (self : VoiceOptimizedChunker) (text : string)
        (meta : option metadata) :
  wpm self <> 0%Z ->
  (sum_words (_split_into_sentences (_add_pronunciation_guides text))
   <= max_chunk_words self)%Z ->
  let sentences := _split_into_sentences (_add_pronunciation_guides text) in
  match sentences with
  | [] =>
      chunk_document _add_pronunciation_guides _split_into_sentences
                     pause_split self text meta = Some []
  | _ =>
      exists chunk,
        chunk_document _add_pronunciation_guides _split_into_sentences
                       pause_split self text meta = Some [chunk] /\
        chunk_content chunk = join " " sentences /\
        chunk_metadata chunk = match meta with Some m => m | None => [] end
  end.
Proof.
  intros Hwpm Hfit sentences. unfold chunk_document. fold sentences.
  fold sentences in Hfit.
  rewrite chunk_loop_fits by lia. simpl app.
  destruct sentences as [| s rest]; [reflexivity |].
  unfold save_current.
  destruct (@create_chunk_Some self (s :: rest) meta Hwpm)
    as [chunk [Hc [Hcontent [Hmeta _]]]].
  rewrite Hc. exists chunk. auto.
Qed.

Lemma short_text_is_one_chunk_witness :
  exists chunk,
    chunk_document demo_add_pronunciation_guides demo_split_into_sentences
                   demo_pause_split VoiceOptimizedChunker_init demo_text
                   (Some (meta_page "7")) = Some [chunk] /\
    chunk_content chunk
    = "the gpu is fast it is new one two three,four five six the end"%string
    /\ chunk_metadata chunk = meta_page "7".
Proof.
  apply (@short_text_is_one_chunk demo_add_pronunciation_guides
           demo_split_into_sentences demo_pause_split
           VoiceOptimizedChunker_init demo_text (Some (meta_page "7")));
    vm_compute; discriminate.
Defined.

Lemma substring_refl (s : string) : substring s s.
Proof.
  exists EmptyString, EmptyString. simpl. now rewrite string_app_nil_r.
Qed.

Lemma join_substring (sep s : string) (l : list string) :
  In s l -> substring s (join sep l).
Proof.
  induction l as [| a l IH]; intros Hin; [contradiction |].
  destruct l as [| a' l'].
  - destruct Hin as [-> | []]. apply substring_refl.
  - rewrite join_cons by discriminate. destruct Hin as [-> | Hin].
    + exists EmptyString, (sep ++ join sep (a' :: l'))%string. reflexivity.
    + destruct (IH Hin) as [pre [post E]]. rewrite E.
      exists (a ++ sep ++ pre)%string, post.
      now rewrite !string_app_assoc.
Qed.

Lemma covered_more (s : string) (chunks more : list VoiceChunk) :
  (forall c, In c chunks -> In c more) -> covered s chunks -> covered s more.
Proof.
  intros Hincl [chunk [Hin Hsub]]. exists chunk. auto.
Qed.

Lemma save_current_Some (self : VoiceOptimizedChunker)
      (meta : option metadata) (chunks : list VoiceChunk)
      (current_chunk : list string) :
  wpm self <> 0%Z ->
  exists out,
    save_current self meta chunks current_chunk = Some out /\
    (forall c, In c chunks -> In c out) /\
    (forall s, In s current_chunk -> covered s out).
Proof.
  intros Hwpm. unfold save_current.
  destruct current_chunk as [| s0 l].
  - exists chunks. repeat split; auto. intros s [].
  - destruct (@create_chunk_Some self (s0 :: l) meta Hwpm)
      as [chunk [Hc [Hcontent _]]].
    rewrite Hc. exists (chunks ++ [chunk]). repeat split.
    + intros c Hin. apply in_or_app. now left.
    + intros s Hs. exists chunk. split.
      * apply in_or_app. right. now left.
      * rewrite Hcontent. now apply join_substring.
Qed.

Section Chunker_coverage.
Variable pause_split : string -> list string.
Variable self : VoiceOptimizedChunker.
Variable meta : option metadata.
Hypothesis Hwpm : wpm self <> 0%Z.

Lemma create_chunks_Some (sub_sentences : list string)
      (chunks : list VoiceChunk) :
  exists out,
    create_chunks self sub_sentences meta chunks = Some out /\
    (forall c, In c chunks -> In c out) /\
    (forall piece, In piece sub_sentences ->
                   exists c, In c out /\ chunk_content c = piece).
Proof.
  revert chunks. induction sub_sentences as [| sub rest IH]; intros chunks;
    cbn [create_chunks].
  - exists chunks. repeat split; auto. intros piece [].
  - destruct (@create_chunk_Some self [sub] meta Hwpm)
      as [chunk [Hc [Hcontent _]]].
    rewrite Hc. destruct (IH (chunks ++ [chunk])) as [out [Ho [Hincl Hall]]].
    exists out. split; [exact Ho |]. split.
    + intros c Hin. apply Hincl, in_or_app. now left.
    + intros piece [<- | Hin]; [| now apply Hall].
      exists chunk. split; [| exact Hcontent].
      apply Hincl, in_or_app. right. now left.
Qed.

Lemma chunk_loop_covers (sentences : list string)
      (chunks : list VoiceChunk) (current_chunk : list string)
      (current_word_count : Z) :
  exists out,
    chunk_loop pause_split self meta sentences chunks current_chunk
               current_word_count = Some out /\
    (forall c, In c chunks -> In c out) /\
    (forall s, In s current_chunk -> covered s out) /\
    (forall s, In s sentences ->
               (count_words s <= max_chunk_words self)%Z -> covered s out) /\
    (forall s piece,
        In s sentences -> (max_chunk_words self < count_words s)%Z ->
        In piece (_split_long_sentence pause_split self s) ->
        exists c, In c out /\ chunk_content c = piece).
Proof.
  revert chunks current_chunk current_word_count.
  induction sentences as [| sentence rest IH];
    intros chunks current_chunk current_word_count; cbn [chunk_loop].
  - destruct (@save_current_Some self meta chunks current_chunk Hwpm)
      as [out [Ho [Hincl Hcur]]].
    exists out. split; [exact Ho |]. split; [exact Hincl |].
    split; [exact Hcur |]. split.
    + intros s [].
    + intros s piece [].
  - destruct (Z.ltb_spec (max_chunk_words self) (count_words sentence))
      as [Hlong | Hshort].
    + destruct (@save_current_Some self meta chunks current_chunk Hwpm)
        as [chunks1 [Ho1 [Hincl1 Hcur1]]].
      rewrite Ho1.
      destruct (@create_chunks_Some
                  (_split_long_sentence pause_split self sentence) chunks1)
        as [chunks2 [Ho2 [Hincl2 Hpieces]]].
      rewrite Ho2.
      destruct (IH chunks2
                   match current_chunk with
                   | [] => current_chunk
                   | _ :: _ => []
                   end
                   match current_chunk with
                   | [] => current_word_count
                   | _ :: _ => 0%Z
                   end)
        as [out [Ho [Hincl [_ [Hrest Hlongs]]]]].
      exists out. split; [exact Ho |]. repeat split.
      * auto.
      * intros s Hs. apply (@covered_more s chunks1); auto.
      * intros s [<- | Hs] Hle; [lia | now apply Hrest].
      * intros s piece [<- | Hs] Hlt Hpiece.
        -- destruct (Hpieces piece Hpiece) as [c [Hc Hcontent]].
           exists c. auto.
        -- now apply (Hlongs s).
    + destruct (Z.leb_spec (current_word_count + count_words sentence)
                           (max_chunk_words self)) as [Hfit | Hfull].
      * destruct (IH chunks (current_chunk ++ [sentence])
                     (current_word_count + count_words sentence)%Z)
          as [out [Ho [Hincl [Hcur [Hrest Hlongs]]]]].
        exists out. split; [exact Ho |]. repeat split.
        -- exact Hincl.
        -- intros s Hs. apply Hcur, in_or_app. now left.
        -- intros s [<- | Hs] Hle; [| now apply Hrest].
           apply Hcur, in_or_app. right. now left.
        -- intros s piece [<- | Hs] Hlt Hpiece; [lia |].
           now apply (Hlongs s).
      * destruct (@create_chunk_Some self current_chunk meta Hwpm)
          as [chunk [Hc [Hcontent _]]].
        rewrite Hc.
        destruct (IH (chunks ++ [chunk])
                     (_get_overlap self current_chunk ++ [sentence])
                     (sum_words
                        (_get_overlap self current_chunk ++ [sentence])))
          as [out [Ho [Hincl [Hcur [Hrest Hlongs]]]]].
        exists out. split; [exact Ho |]. repeat split.
        -- intros c Hin. apply Hincl, in_or_app. now left.
        -- intros s Hs. exists chunk. split.
           ++ apply Hincl, in_or_app. right. now left.
           ++ rewrite Hcontent. now apply join_substring.
        -- intros s [<- | Hs] Hle; [| now apply Hrest].
           apply Hcur, in_or_app. right. now left.
        -- intros s piece [<- | Hs] Hlt Hpiece; [lia |].
           now apply (Hlongs s).
Qed.
End Chunker_coverage.

(** X29. With a speech rate that is not zero, [chunk_document] returns
    chunks and drops no sentence: every sentence of at most
    [max_chunk_words] words is a part of the content of some chunk, and
    every piece of a longer sentence is the content of a chunk. *)
Theorem chunks_cover_the_text
        (_add_pronunciation_guides : string -> string)
        (_split_into_sentences pause_split : string -> list string)
        (self : VoiceOptimizedChunker) (text : string)
        (meta : option metadata) :
  wpm self <> 0%Z ->
  exists chunks,
    chunk_document _add_pronunciation_guides _split_into_sentences
                   pause_split self text meta = Some chunks /\
    forall sentence,
      In sentence (_split_into_sentences (_add_pronunciation_guides text)) ->
      if (count_words sentence <=? max_chunk_words self)%Z
      then exists chunk,
          In chunk chunks /\ substring sentence (chunk_content chunk)
      else forall piece,
          In piece (_split_long_sentence pause_split self sentence) ->
          exists chunk, In chunk chunks /\ chunk_content chunk = piece.
Proof.
  intros Hwpm. unfold chunk_document.
  destruct (@chunk_loop_covers pause_split self meta Hwpm
              (_split_into_sentences (_add_pronunciation_guides text))
              [] [] 0%Z) as [out [Ho [_ [_ [Hshort Hlong]]]]].
  exists out. split; [exact Ho |]. intros sentence Hin.
  destruct (Z.leb_spec (count_words sentence) (max_chunk_words self)).
  - now apply Hshort.
  - intros piece Hpiece. now apply (Hlong sentence).
Qed.

Lemma chunks_cover_the_text_witness :
  map chunk_content
      (match chunk_document demo_add_pronunciation_guides
               demo_split_into_sentences demo_pause_split demo_chunker
               demo_text None with
       | Some chunks => chunks
       | None => []
       end)
  = ["the gpu is fast"; "it is new"; "one two three"; "four five six";
     "the end"]%string /\
  exists chunks,
    chunk_document demo_add_pronunciation_guides demo_split_into_sentences
                   demo_pause_split demo_chunker demo_text None
    = Some chunks /\
    forall sentence,
      In sentence (demo_split_into_sentences
                     (demo_add_pronunciation_guides demo_text)) ->
      if (count_words sentence <=? max_chunk_words demo_chunker)%Z
      then exists chunk,
          In chunk chunks /\ substring sentence (chunk_content chunk)
      else forall piece,
          In piece (_split_long_sentence demo_pause_split demo_chunker
                                         sentence) ->
          exists chunk, In chunk chunks /\ chunk_content chunk = piece.
Proof.
  split; [vm_compute; reflexivity |].
  apply (@chunks_cover_the_text demo_add_pronunciation_guides
           demo_split_into_sentences demo_pause_split demo_chunker
           demo_text None).
  vm_compute. discriminate.
Defined.

(* ================================================================== *)
(** * Part V: the score of a document                                  *)
(* ================================================================== *)

(** ** The fused score of a document that is listed once *)

(** When [d] occurs at most once in a list and no other content of the
    list has its hash, what is accumulated under [hash d] is the
    contribution of the rank of [d], whatever else the list repeats. *)
Lemma key_contributions_once (hash : string -> Z) (w : float)
      (k rank : nat) (d : string) (l : list ResultTuple) :
  (count_occ string_dec (contents l) d <= 1)%nat ->
  (forall c, In c (contents l) -> hash c = hash d -> c = d) ->
  key_contributions hash w k rank (hash d) l =
  match rank_of d l with
  | Some r => w * (1 / float_of_nat (k + (rank + r) + 1))
  | None => 0
  end.
Proof.
  revert rank. induction l as [| t l IH]; intros rank Hcount Hfree;
    [reflexivity |].
  cbn [key_contributions rank_of]. cbn [contents map] in Hcount, Hfree.
  fold (contents l) in Hcount, Hfree.
  destruct (String.eqb_spec (tuple_content t) d) as [E | N].
  - rewrite count_occ_cons_eq in Hcount by exact E.
    assert (Hnot : ~ In d (contents l)).
    { apply (count_occ_not_In string_dec). lia. }
    unfold tuple_key at 1. rewrite E, Z.eqb_refl, Nat.add_0_r.
    rewrite key_contributions_none; [ring |].
    intros t' Ht' Hk. apply Hnot.
    replace d with (tuple_content t'); [now apply in_map |].
    apply Hfree; [right; now apply in_map | exact Hk].
  - rewrite count_occ_cons_neq in Hcount by exact N.
    destruct (Z.eqb_spec (tuple_key hash t) (hash d)) as [Hk | _].
    + exfalso. apply N. apply Hfree; [now left | exact Hk].
    + rewrite (IH (S rank) Hcount)
        by (intros c Hc; apply Hfree; now right).
      destruct (rank_of d l) as [r |]; cbn [option_map]; [| ring].
      replace (rank + S r)%nat with (S rank + r)%nat by lia. ring.
Qed.

(** C1, as amended. For every pair of ranking lists, whatever they repeat,
    and every document [d] of the lists that occurs at most once in each
    list and whose hash no other listed content has: the score that the
    fusion step computes for it (the entry of [scores] under its key, which
    is there) is the sum, over the lists that contain it, of
    [w_L * 1 / (k + r + 1)] with [r] its 0-indexed rank in the list; every
    returned entry with this content has this score, there is such an
    entry as soon as [top_k] is at least the number of keys, and a
    document in one list only receives that list's contribution alone. The
    witness takes [k = 60] and the default weights 0.7 and 0.3. *)
Theorem fused_score_formula
        (hash : string -> Z) (self : HybridSearch)
        (v b : list ResultTuple) (top_k : Z) (k : nat) (d : string) :
  In d (contents (v ++ b)) ->
  (count_occ string_dec (contents v) d <= 1)%nat ->
  (count_occ string_dec (contents b) d <= 1)%nat ->
  (forall c, In c (contents (v ++ b)) -> hash c = hash d -> c = d) ->
  In (hash d) (dict_keys (scores (rrf_scored hash self v b k))) /\
  dict_get Z.eqb (scores (rrf_scored hash self v b k)) (hash d) 0
  = rrf_formula (vector_weight self) (bm25_weight self) k v b d /\
  (forall r,
      In r (_reciprocal_rank_fusion hash self v b top_k k) ->
      content r = d ->
      score r
      = rrf_formula (vector_weight self) (bm25_weight self) k v b d) /\
  ((Z.of_nat (distinct_keys hash v b) <= top_k)%Z ->
   exists r,
     In r (_reciprocal_rank_fusion hash self v b top_k k) /\
     content r = d /\
     score r
     = rrf_formula (vector_weight self) (bm25_weight self) k v b d) /\
  (~ In d (contents b) ->
   exists rv, rank_of d v = Some rv /\
     rrf_formula (vector_weight self) (bm25_weight self) k v b d
     = vector_weight self * (1 / float_of_nat (k + rv + 1))) /\
  (~ In d (contents v) ->
   exists rb, rank_of d b = Some rb /\
     rrf_formula (vector_weight self) (bm25_weight self) k v b d
     = bm25_weight self * (1 / float_of_nat (k + rb + 1))).
Proof.
  intros Hd Hv Hb Hfree.
  assert (Hfv : forall c, In c (contents v) -> hash c = hash d -> c = d).
  { intros c Hc. apply Hfree. unfold contents in *. rewrite map_app.
    apply in_or_app. now left. }
  assert (Hfb : forall c, In c (contents b) -> hash c = hash d -> c = d).
  { intros c Hc. apply Hfree. unfold contents in *. rewrite map_app.
    apply in_or_app. now right. }
  assert (Hkey : In (hash d) (first_seen (map (tuple_key hash) (v ++ b)))).
  { apply first_seen_In. unfold contents in Hd.
    apply in_map_iff in Hd. destruct Hd as [t [<- Ht]].
    change (hash (tuple_content t)) with (tuple_key hash t).
    now apply in_map. }
  assert (Hscore :
            dict_get Z.eqb (scores (rrf_scored hash self v b k)) (hash d) 0
            = rrf_formula (vector_weight self) (bm25_weight self) k v b d).
  { rewrite rrf_scored_score.
    rewrite (@key_contributions_once hash _ k 0 d v Hv Hfv).
    rewrite (@key_contributions_once hash _ k 0 d b Hb Hfb).
    reflexivity. }
  assert (Hcontent :
            forall h,
              In h (first_seen (map (tuple_key hash) (v ++ b))) ->
              content (result_of_key (rrf_scored hash self v b k) h) = d ->
              h = hash d).
  { intros h Hh Hc. rewrite <- (rrf_scored_keys hash self v b k) in Hh.
    destruct (rrf_scored_from_entry hash self v b k h Hh)
      as [t [_ [Hk [Ht _]]]].
    unfold result_of_key in Hc. simpl in Hc. rewrite Ht in Hc.
    rewrite <- Hk. unfold tuple_key. now rewrite Hc. }
  split; [now rewrite rrf_scored_keys |].
  split; [exact Hscore |].
  split; [| split; [| split]].
  - intros r Hr Hc. apply fusion_In in Hr. destruct Hr as [h [Hh ->]].
    rewrite (Hcontent h Hh Hc). exact Hscore.
  - intros Htop.
    exists (result_of_key (rrf_scored hash self v b k) (hash d)).
    split; [| split; [| exact Hscore]].
    + unfold _reciprocal_rank_fusion.
      rewrite slice_to_all by now rewrite sorted_keys_length.
      apply in_map. unfold sorted_keys. apply sorted_desc_In.
      now rewrite rrf_scored_keys.
    + rewrite <- (rrf_scored_keys hash self v b k) in Hkey.
      destruct (rrf_scored_from_entry hash self v b k (hash d) Hkey)
        as [t [Ht [Hk [Hc _]]]].
      unfold result_of_key. simpl. rewrite Hc.
      apply Hfree; [now apply in_map | exact Hk].
  - intros Hnot. unfold contents in Hd. rewrite map_app in Hd.
    apply in_app_or in Hd. destruct Hd as [Hd | Hd]; [| contradiction].
    destruct (rank_of_In _ _ Hd) as [rv Hrv]. exists rv.
    split; [exact Hrv |].
    unfold rrf_formula, list_contribution.
    rewrite Hrv, (rank_of_notin _ _ Hnot). ring.
  - intros Hnot. unfold contents in Hd. rewrite map_app in Hd.
    apply in_app_or in Hd. destruct Hd as [Hd | Hd]; [contradiction |].
    destruct (rank_of_In _ _ Hd) as [rb Hrb]. exists rb.
    split; [exact Hrb |].
    unfold rrf_formula, list_contribution.
    rewrite Hrb, (rank_of_notin _ _ Hnot). ring.
Qed.

(** In a vector list that repeats the text ["b"], the text ["a"], listed
    once there and once in the lexical list, has the score of the formula,
    0.7/61 + 0.3/61. *)
Lemma fused_score_formula_witness :
  exists r,
    In r (_reciprocal_rank_fusion code_hash HybridSearch_init
            vector_with_repeat tie_vector 10 RRF_K) /\
    content r = "a"%string /\
    score r
    = rrf_formula default_vector_weight default_bm25_weight RRF_K
        vector_with_repeat tie_vector "a" /\
    (this (score r) == 1 # 61)%Q.
Proof.
  destruct (@fused_score_formula code_hash HybridSearch_init
              vector_with_repeat tie_vector 10%Z RRF_K "a"%string)
    as [_ [_ [_ [Hex _]]]].
  - vm_compute. tauto.
  - vm_compute. lia.
  - vm_compute. lia.
  - intros c _. apply code_hash_inj.
  - destruct Hex as [r [Hin [Hc Hs]]]; [vm_compute; discriminate |].
    exists r. split; [exact Hin |]. split; [exact Hc |].
    split; [exact Hs |]. rewrite Hs. vm_compute. reflexivity.
Defined.

(** ** One fused entry for each hash *)

Lemma NoDup_map_eq (A B : Type) (f : A -> B) (l : list A) (x y : A) :
  NoDup (map f l) -> In x l -> In y l -> f x = f y -> x = y.
Proof.
  induction l as [| a l IH]; simpl; intros Hnd Hx Hy E; [contradiction |].
  inversion Hnd as [| ? ? Hnin Hnd']; subst.
  destruct Hx as [<- | Hx]; destruct Hy as [<- | Hy].
  - reflexivity.
  - exfalso. apply Hnin. rewrite E. now apply in_map.
  - exfalso. apply Hnin. rewrite <- E. now apply in_map.
  - now apply IH.
Qed.

(** C6, as amended. The contributions of the two ranking lists are
    accumulated under the key [hash(content)], not under an identifier of
    the document: the fused list has at most one entry for each hash; an
    entry carries a content of the lists, and its score is the sum of the
    contributions of every entry of either list whose content has its
    hash; and, when [top_k] does not cut the list, two listed entries
    whose contents have the same hash, be they the same document or not,
    end in one fused entry, the only one under their hash, which collects
    the contributions of both. *)
Theorem fusion_keyed_by_content_hash
        (hash : string -> Z) (self : HybridSearch)
        (v b : list ResultTuple) (top_k : Z) (k : nat) :
  NoDup (map (result_key hash)
             (_reciprocal_rank_fusion hash self v b top_k k)) /\
  Forall
    (fun r =>
       In (content r) (contents (v ++ b)) /\
       score r
       = key_contributions hash (vector_weight self) k 0
           (hash (content r)) v
         + key_contributions hash (bm25_weight self) k 0
             (hash (content r)) b)
    (_reciprocal_rank_fusion hash self v b top_k k) /\
  ((Z.of_nat (distinct_keys hash v b) <= top_k)%Z ->
   forall t t',
     In t (v ++ b) -> In t' (v ++ b) ->
     tuple_key hash t = tuple_key hash t' ->
     exists r,
       In r (_reciprocal_rank_fusion hash self v b top_k k) /\
       result_key hash r = tuple_key hash t /\
       result_key hash r = tuple_key hash t' /\
       score r
       = key_contributions hash (vector_weight self) k 0
           (tuple_key hash t) v
         + key_contributions hash (bm25_weight self) k 0
             (tuple_key hash t) b /\
       forall r',
         In r' (_reciprocal_rank_fusion hash self v b top_k k) ->
         result_key hash r' = tuple_key hash t
         \/ result_key hash r' = tuple_key hash t' ->
         r' = r).
Proof.
  assert (Hnd : NoDup (map (result_key hash)
                         (_reciprocal_rank_fusion hash self v b top_k k))).
  { unfold _reciprocal_rank_fusion. rewrite map_map.
    rewrite (map_ext_in _ (fun h => h)).
    - rewrite map_id. apply NoDup_slice_to, sorted_keys_NoDup.
    - intros h Hh. apply result_of_key_key.
      apply In_slice_to in Hh. unfold sorted_keys in Hh.
      apply sorted_desc_In in Hh. now rewrite rrf_scored_keys in Hh. }
  split; [exact Hnd |]. split.
  - apply Forall_forall. intros r Hr.
    destruct (fusion_entry hash self v b top_k k r Hr) as [Hc [_ Hs]].
    split; assumption.
  - intros Htop t t' Ht Ht' E.
    assert (Hkey : In (tuple_key hash t)
                      (first_seen (map (tuple_key hash) (v ++ b)))).
    { apply first_seen_In. now apply in_map. }
    set (r := result_of_key (rrf_scored hash self v b k) (tuple_key hash t)).
    assert (Hr : In r (_reciprocal_rank_fusion hash self v b top_k k)).
    { unfold _reciprocal_rank_fusion.
      rewrite slice_to_all by now rewrite sorted_keys_length.
      apply in_map. unfold sorted_keys. apply sorted_desc_In.
      now rewrite rrf_scored_keys. }
    assert (Hrk : result_key hash r = tuple_key hash t)
      by now apply result_of_key_key.
    exists r. split; [exact Hr |]. split; [exact Hrk |].
    split; [now rewrite <- E |]. split.
    + unfold r, result_of_key. simpl. apply rrf_scored_score.
    + intros r' Hr' Hk.
      apply (@NoDup_map_eq _ _ (result_key hash) _ r' r Hnd Hr' Hr).
      rewrite Hrk. destruct Hk as [Hk | Hk]; [exact Hk |].
      now rewrite E.
Qed.

(** Under the length of the text as its hash, ["ab"] of the vector list
    and ["cd"] of the lexical list end in one entry, which has the
    contributions of both, 0.7/61 + 0.3/61. *)
Lemma fusion_keyed_by_content_hash_witness :
  exists r,
    In r (_reciprocal_rank_fusion length_hash HybridSearch_init
            [entry "ab" 1 []] [entry "cd" 1 []] 10 RRF_K) /\
    result_key length_hash r = tuple_key length_hash (entry "ab" 1 []) /\
    result_key length_hash r = tuple_key length_hash (entry "cd" 1 []) /\
    (this (score r) == 1 # 61)%Q /\
    forall r',
      In r' (_reciprocal_rank_fusion length_hash HybridSearch_init
               [entry "ab" 1 []] [entry "cd" 1 []] 10 RRF_K) ->
      result_key length_hash r' = tuple_key length_hash (entry "ab" 1 [])
      \/ result_key length_hash r'
         = tuple_key length_hash (entry "cd" 1 []) ->
      r' = r.
Proof.
  destruct (@fusion_keyed_by_content_hash length_hash HybridSearch_init
              [entry "ab" 1 []] [entry "cd" 1 []] 10%Z RRF_K)
    as [_ [_ Hmerge]].
  destruct (Hmerge ltac:(vm_compute; discriminate)
                   (entry "ab" 1 []) (entry "cd" 1 []))
    as [r [Hin [Hk [Hk' [Hs Hone]]]]].
  - now left.
  - right. now left.
  - reflexivity.
  - exists r. split; [exact Hin |]. split; [exact Hk |].
    split; [exact Hk' |]. split; [| exact Hone].
    rewrite Hs. vm_compute. reflexivity.
Defined.

(** ** The lexical score *)

(** C2. For a corpus of [N] documents, parameters [k1 >= 0] and
    [0 <= b <= 1] (the defaults 1.5 and 0.75 among them) and any sequence
    of query terms: [get_scores] divides by positive numbers only, so
    that it raises no [ZeroDivisionError], and the lexical score of
    document [i] is the sum over the query terms [t] of
    [idf(t) * tf(t,i) * (k1 + 1) / (tf(t,i) + k1 * (1 - b + b * len(i)
    / avgLen))], with [idf(t) = ln(1 + (N - df(t) + 0.5) / (df(t) + 0.5))]
    and the denominator [tf(t,i) + k1] when [avgLen = 0]; a term with
    [df(t) = 0] contributes 0, and a document that contains none of the
    query terms has the score 0. There is one score for each document. *)
Theorem lexical_score_formula
        (log : float -> float) (docs : list (list string)) (p1 pb : float)
        (query_terms : list string) (i : nat) :
  0 <= p1 -> 0 <= pb -> pb <= 1 ->
  (i < List.length docs)%nat ->
  (forall t j,
      (0 < tf docs t j)%nat ->
      0 < float_of_nat (df docs t) + half /\
      0 < (if truthy (avg_doc_len (BM25Okapi_init docs p1 pb))
           then float_of_nat (tf docs t j)
                + k1 (BM25Okapi_init docs p1 pb)
                  * (1 - b (BM25Okapi_init docs p1 pb)
                     + b (BM25Okapi_init docs p1 pb)
                       * float_of_nat (len docs j)
                       / avg_doc_len (BM25Okapi_init docs p1 pb))
           else float_of_nat (tf docs t j)
                + k1 (BM25Okapi_init docs p1 pb))) /\
  List.length (get_scores log (BM25Okapi_init docs p1 pb) query_terms)
  = List.length docs /\
  nth i (get_scores log (BM25Okapi_init docs p1 pb) query_terms) 0
  = bm25_formula log docs p1 pb query_terms i /\
  (forall t, df docs t = O -> term_contribution log docs p1 pb t i = 0) /\
  ((forall t, In t query_terms -> ~ In t (nth i docs [])) ->
   nth i (get_scores log (BM25Okapi_init docs p1 pb) query_terms) 0 = 0).
Proof.
  intros Hp1 Hpb0 Hpb1 Hi.
  destruct (BM25Okapi_init_fields docs p1 pb)
    as [_ [Hn [Ha [Hk [Hb [Hf _]]]]]].
  split.
  { intros t j Htf. split.
    - rewrite Qcplus_comm.
      apply Qc_plus_pos_nonneg; [apply half_pos | apply float_of_nat_nonneg].
    - rewrite Ha, Hk, Hb.
      now apply score_denominator_positive. }
  assert (Hlen : List.length (repeat (0 : Qc) (List.length docs))
                 = List.length (doc_freqs (BM25Okapi_init docs p1 pb)))
    by (rewrite Hf, repeat_length, length_map; reflexivity).
  destruct (score_terms_spec log (BM25Okapi_init docs p1 pb)
              query_terms _ Hlen) as [H1 H2].
  rewrite repeat_length in H1, H2. specialize (H2 i Hi).
  assert (Hscore :
            nth i (get_scores log (BM25Okapi_init docs p1 pb) query_terms) 0
            = bm25_formula log docs p1 pb query_terms i).
  { unfold get_scores. rewrite Hn.
    destruct (List.length docs) as [| n] eqn:En; [lia |].
    rewrite H2, nth_repeat. unfold bm25_formula. clear H1 H2.
    generalize (0 : Qc). induction query_terms as [| t q IH]; intros acc;
      simpl; [reflexivity |].
    rewrite term_part_formula by lia. apply IH. }
  split; [| split; [exact Hscore | split]].
  - unfold get_scores. rewrite Hn.
    destruct (List.length docs) as [| n] eqn:En; [lia | exact H1].
  - intros t Hdf. unfold term_contribution. now rewrite Hdf.
  - intros Hnone. rewrite Hscore. now apply bm25_formula_zero.
Qed.

(** On the corpus of the example, with the default parameters: document 0
    has the score of the formula for the query [fast gpu tpu], which is
    not 0, and document 1, which contains none of these terms, has the
    score 0. *)
Lemma lexical_score_formula_witness :
  (nth 0 (get_scores demo_log
            (BM25Okapi_init demo_corpus default_k1 default_b)
            ["fast"; "gpu"; "tpu"]%string) 0
   = bm25_formula demo_log demo_corpus default_k1 default_b
       ["fast"; "gpu"; "tpu"]%string 0 /\
   (this (bm25_formula demo_log demo_corpus default_k1 default_b
            ["fast"; "gpu"; "tpu"]%string 0) == 2200 # 687)%Q) /\
  nth 1 (get_scores demo_log
           (BM25Okapi_init demo_corpus default_k1 default_b)
           ["fast"; "gpu"; "tpu"]%string) 0 = 0.
Proof.
  split; [split |].
  - apply (@lexical_score_formula demo_log demo_corpus default_k1 default_b
             ["fast"; "gpu"; "tpu"]%string 0%nat);
      [discriminate | discriminate | discriminate | simpl; lia].
  - vm_compute. reflexivity.
  - apply (@lexical_score_formula demo_log demo_corpus default_k1 default_b
             ["fast"; "gpu"; "tpu"]%string 1%nat);
      [discriminate | discriminate | discriminate | simpl; lia |].
    intros t [<- | [<- | [<- | []]]]; simpl;
      intros H; repeat destruct H as [H | H]; discriminate H || exact H.
Defined.
